(** * FRIDAY assistant: the client-side conversation state machine

    A shallow embedding of [src/App.tsx]: the message log, the intent
    classifier, the streaming text flow, the image generation flow and the
    history store, followed by the properties of the specification that
    concern them.

    Conventions of the embedding.
    - A JavaScript string is a Rocq [string]; its 8-bit characters are read as
      the code units U+0000..U+00FF (Latin-1), which is where the functions
      below ([trim], [toLowerCase], the regular expression matcher) agree with
      their JavaScript counterparts. The strings inside a value [JSON.parse]
      returns are lists of code units, since an escape can name any of them.
    - React state is a record. A setter called with a value, or with an
      updater that reads nothing but constants, is applied to the record in
      program order: the state React shows once it has rendered is the same.
      The updater of the [for await] loop reads a variable the loop goes on
      assigning; it is kept in a queue and run when React renders.
    - A handler is embedded by itself. The effects of the component, which
      React runs after a render (the save of the log, the creation of the
      chat session), are definitions of their own; the fields [storage] and
      [chatRef] of the state a handler returns are what the handler left
      there.
    - Everything the component receives from outside (generated ids, the
      clock, what the remote capabilities answer, the answer to a confirmation
      dialog) is an argument of the function that consumes it. *)

From Stdlib Require Import Bool Arith Lia List ZArith Ascii String DecimalString.
From Stdlib Require Import DecimalPos DecimalZ.
From Stdlib Require Import QArith Qround.
Close Scope Q_scope.
Import ListNotations.
Open Scope string_scope.

(** ** JavaScript strings *)

Module Js.

Definition code (c : ascii) : nat := nat_of_ascii c.

Definition in_range (lo hi : nat) (c : ascii) : bool :=
  Nat.leb lo (code c) && Nat.leb (code c) hi.

(** WhiteSpace and LineTerminator code units below U+0100: TAB, LF, VT, FF,
    CR, SP and NBSP. *)
Definition is_ws (c : ascii) : bool :=
  in_range 9 13 c || Nat.eqb (code c) 32 || Nat.eqb (code c) 160.

(** The class [\w] of a regular expression without the [u] flag. *)
Definition is_word (c : ascii) : bool :=
  in_range 48 57 c || in_range 65 90 c || in_range 97 122 c || Nat.eqb (code c) 95.

(** [toLowerCase] of one code unit below U+0100. (Above, JavaScript maps
    U+212A to [k] and U+0130 to [i] followed by U+0307; texts with such
    code units are not strings of this embedding.) *)
Definition lower_char (c : ascii) : ascii :=
  if in_range 65 90 c || (in_range 192 222 c && negb (Nat.eqb (code c) 215))
  then ascii_of_nat (code c + 32) else c.

(** Canonicalize of a case-insensitive regular expression (upper case). *)
Definition canonicalize (c : ascii) : ascii :=
  if in_range 97 122 c || (in_range 224 254 c && negb (Nat.eqb (code c) 247))
  then ascii_of_nat (code c - 32) else c.

Fixpoint toLowerCase (s : string) : string :=
  match s with
  | "" => ""
  | String c r => String (lower_char c) (toLowerCase r)
  end.

Fixpoint trimStart (s : string) : string :=
  match s with
  | "" => ""
  | String c r => if is_ws c then trimStart r else s
  end.

Fixpoint trimEnd (s : string) : string :=
  match s with
  | "" => ""
  | String c r =>
      match trimEnd r with
      | "" => if is_ws c then "" else String c ""
      | r' => String c r'
      end
  end.

Definition trim (s : string) : string := trimEnd (trimStart s).

Fixpoint startsWith (p s : string) : bool :=
  match p, s with
  | "", _ => true
  | String a p', String b s' => Ascii.eqb a b && startsWith p' s'
  | String _ _, "" => false
  end.

(** [s.includes(k)] *)
Fixpoint includes (k s : string) : bool :=
  startsWith k s ||
  match s with
  | "" => false
  | String _ r => includes k r
  end.

(** ToBoolean of a string: only the empty string is falsy. *)
Definition truthy (s : string) : bool :=
  match s with "" => false | _ => true end.

(** [a || b] on strings. *)
Definition or_else (a b : string) : string := if truthy a then a else b.

(** The code units of a string, and the string a list of code units is when
    none of them is above U+00FF. *)
Definition units (s : string) : list N := map N_of_ascii (list_ascii_of_string s).

Fixpoint of_units (u : list N) : option string :=
  match u with
  | [] => Some ""
  | n :: r =>
      match of_units r with
      | Some s => if N.ltb n 256 then Some (String (ascii_of_N n) s) else None
      | None => None
      end
  end.

Fixpoint units_eqb (a b : list N) : bool :=
  match a, b with
  | [], [] => true
  | x :: a', y :: b' => N.eqb x y && units_eqb a' b'
  | _, _ => false
  end.

End Js.

(** ** The regular expressions of the component

    Both expressions of [App.tsx] are alternatives of a start anchor, literal
    characters and a word boundary, so the matcher covers exactly these
    atoms. [prev] is the character before the current position ([None] at
    index 0), which is what [^] and [\b] look at. *)

Module Re.

Inductive atom : Type :=
| Bol                 (* ^  *)
| Chr (c : ascii)     (* a literal character *)
| WordB.              (* \b *)

Record RegExp : Type := mkRegExp {
  alternatives : list (list atom);
  ignoreCase : bool
}.

Definition lit (s : string) : list atom := map Chr (list_ascii_of_string s).

Definition char_matches (ci : bool) (c x : ascii) : bool :=
  if ci then Ascii.eqb (Js.canonicalize c) (Js.canonicalize x)
  else Ascii.eqb c x.

Definition is_word_opt (o : option ascii) : bool :=
  match o with Some c => Js.is_word c | None => false end.

Definition next_char (s : string) : option ascii :=
  match s with "" => None | String c _ => Some c end.

(** Length of the match of one alternative at the current position. *)
Fixpoint match_seq (ci : bool) (prev : option ascii) (p : list atom)
    (s : string) : option nat :=
  match p with
  | [] => Some 0
  | Bol :: p' =>
      match prev with
      | None => match_seq ci prev p' s
      | Some _ => None
      end
  | WordB :: p' =>
      if xorb (is_word_opt prev) (is_word_opt (next_char s))
      then match_seq ci prev p' s else None
  | Chr c :: p' =>
      match s with
      | "" => None
      | String x s' =>
          if char_matches ci c x
          then option_map S (match_seq ci (Some x) p' s')
          else None
      end
  end.

(** Ordered choice between the alternatives. *)
Fixpoint match_alt (ci : bool) (alts : list (list atom))
    (prev : option ascii) (s : string) : option nat :=
  match alts with
  | [] => None
  | p :: rest =>
      match match_seq ci prev p s with
      | Some n => Some n
      | None => match_alt ci rest prev s
      end
  end.

Definition match_here (re : RegExp) : option ascii -> string -> option nat :=
  match_alt (ignoreCase re) (alternatives re).

Fixpoint search (re : RegExp) (prev : option ascii) (s : string) : bool :=
  match match_here re prev s with
  | Some _ => true
  | None =>
      match s with
      | "" => false
      | String c r => search re (Some c) r
      end
  end.

(** [re.test(s)] *)
Definition test (re : RegExp) (s : string) : bool := search re None s.

(** [s.replace(re, repl)] for an expression with the [g] flag: every match,
    left to right, is replaced. [skip] counts the characters of the current
    match that are still to be dropped. *)
Fixpoint replace_from (re : RegExp) (repl : string) (prev : option ascii)
    (skip : nat) (s : string) : string :=
  match s with
  | "" =>
      match skip, match_here re prev "" with
      | 0, Some _ => repl
      | _, _ => ""
      end
  | String c r =>
      match skip with
      | S k => replace_from re repl (Some c) k r
      | 0 =>
          match match_here re prev s with
          | Some (S n) => repl ++ replace_from re repl (Some c) n r
          | Some 0 => repl ++ String c (replace_from re repl (Some c) 0 r)
          | None => String c (replace_from re repl (Some c) 0 r)
          end
      end
  end.

Definition replace_g (re : RegExp) (s repl : string) : string :=
  replace_from re repl None 0 s.

End Re.

(** ** Intent classifier *)

Definition IMAGE_KEYWORDS : list string :=
  ["image"; "generate"; "create"; "draw"; "paint"; "photo"; "render";
   "illustrate"; "picture"; "design"].

Definition COMMAND_TOKENS : list string := ["/image"; "/img"; "/photo"].

(** The alternative [^tok\b] of a command token. *)
Definition token_alternative (tok : string) : list Re.atom :=
  (Re.Bol :: Re.lit tok ++ [Re.WordB])%list.

(** [^\/image\b|^\/img\b|^\/photo\b] *)
Definition command_alternatives : list (list Re.atom) :=
  map token_alternative COMMAND_TOKENS.

(** [/^\/image\b|^\/img\b|^\/photo\b/] of [detectImageIntent] *)
Definition COMMAND_RE : Re.RegExp := Re.mkRegExp command_alternatives false.

(** [/^\/image\b|^\/img\b|^\/photo\b/ig] of [generateImageFlow] *)
Definition COMMAND_RE_ig : Re.RegExp := Re.mkRegExp command_alternatives true.

Definition detectImageIntent (text : string) : bool :=
  let t := Js.toLowerCase text in
  existsb (fun k => Js.includes k t) IMAGE_KEYWORDS || Re.test COMMAND_RE t.

Inductive Intent : Type := TextChat | ImageRequest.

(** The branch [handleSend] takes on [isImage]. *)
Definition classify (rawText : string) : Intent :=
  if detectImageIntent rawText then ImageRequest else TextChat.

(** The prompt [generateImageFlow] puts in the request body. *)
Definition cleaned (prompt : string) : string :=
  Js.trim (Re.replace_g COMMAND_RE_ig prompt "").

Definition bodyPrompt (prompt : string) : string :=
  Js.or_else (cleaned prompt) prompt.

(** ** Messages and the message log *)

Inductive Sender : Type := User | Assistant.

Record Message : Type := mkMessage {
  id : string;
  from : Sender;
  text : string;
  image : option string;
  ts : option Z
}.

Definition Sender_eqb (a b : Sender) : bool :=
  match a, b with
  | User, User | Assistant, Assistant => true
  | _, _ => false
  end.

Definition WELCOME_TEXT : string := "FRIDAY online. Secure channel active.".

(** [{id:genId(), from:'assistant', text:'FRIDAY online. Secure channel active.'}] *)
Definition welcome (newId : string) : Message :=
  mkMessage newId Assistant WELCOME_TEXT None None.

(** [{ ...m, text: t }] *)
Definition set_text (t : string) (m : Message) : Message :=
  mkMessage (id m) (from m) t (image m) (ts m).

(** [m => [...m, msg]] *)
Definition append (msg : Message) (log : list Message) : list Message :=
  log ++ [msg].

(** [prev => prev.map(m => m.id === target ? mutator(m) : m)] *)
Definition updateById (target : string) (mutator : Message -> Message)
    (log : list Message) : list Message :=
  map (fun m => if String.eqb (id m) target then mutator m else m) log.

(** Ids of the messages of a log, in order. *)
Definition ids (log : list Message) : list string := map id log.


(** ** JSON values and [JSON.parse]

    What [JSON.parse] returns is an untyped value; [loadHistory] hands it to
    the component as it is. A number keeps its lexeme; a string is the list
    of its code units, so that a [\u] escape can name any of the 65536. The
    reader follows the JSON grammar (ECMA-404). [fuel] bounds the nested
    calls; [parse] starts with two units per input character. *)

Module Json.

#[local] Set Warnings "-register-all".

Inductive value : Type :=
| Null
| Bool (b : bool)
| Num (lexeme : string)
| Str (s : list N)
| Arr (items : list value)
| Obj (members : list (list N * value)).

Definition dquote : ascii := ascii_of_nat 34.

Definition is_ws (c : ascii) : bool :=
  let n := Js.code c in
  Nat.eqb n 9 || Nat.eqb n 10 || Nat.eqb n 13 || Nat.eqb n 32.

Fixpoint skip_ws (s : string) : string :=
  match s with
  | "" => ""
  | String c r => if is_ws c then skip_ws r else s
  end.

Definition is_digit (c : ascii) : bool := Js.in_range 48 57 c.

Fixpoint span_digits (s : string) : string * string :=
  match s with
  | "" => ("", "")
  | String c r =>
      if is_digit c
      then let (d, rest) := span_digits r in (String c d, rest)
      else ("", s)
  end.

Definition hex_val (c : ascii) : option N :=
  let n := Js.code c in
  if Js.in_range 48 57 c then Some (N.of_nat (n - 48))
  else if Js.in_range 65 70 c then Some (N.of_nat (n - 55))
  else if Js.in_range 97 102 c then Some (N.of_nat (n - 87))
  else None.

Definition hex4 (a b c d : ascii) : option N :=
  match hex_val a, hex_val b, hex_val c, hex_val d with
  | Some x, Some y, Some z, Some w => Some (((x * 16 + y) * 16 + z) * 16 + w)%N
  | _, _, _, _ => None
  end.

Definition simple_escape (e : ascii) : option ascii :=
  if Ascii.eqb e dquote then Some dquote
  else if Ascii.eqb e "\" then Some "\"%char
  else if Ascii.eqb e "/" then Some "/"%char
  else if Ascii.eqb e "b" then Some (ascii_of_nat 8)
  else if Ascii.eqb e "f" then Some (ascii_of_nat 12)
  else if Ascii.eqb e "n" then Some (ascii_of_nat 10)
  else if Ascii.eqb e "r" then Some (ascii_of_nat 13)
  else if Ascii.eqb e "t" then Some (ascii_of_nat 9)
  else None.

Definition cons_unit (n : N) (k : option (list N * string))
    : option (list N * string) :=
  match k with
  | Some (body, rest) => Some (n :: body, rest)
  | None => None
  end.

(** The code units of a string literal, after its opening quote. *)
Fixpoint parse_chars (s : string) : option (list N * string) :=
  match s with
  | "" => None
  | String c r =>
      if Ascii.eqb c dquote then Some ([], r)
      else if Ascii.eqb c "\" then
        match r with
        | "" => None
        | String e r1 =>
            match simple_escape e with
            | Some x => cons_unit (N_of_ascii x) (parse_chars r1)
            | None =>
                if Ascii.eqb e "u" then
                  match r1 with
                  | String h1 (String h2 (String h3 (String h4 r2))) =>
                      match hex4 h1 h2 h3 h4 with
                      | Some n => cons_unit n (parse_chars r2)
                      | None => None
                      end
                  | _ => None
                  end
                else None
            end
        end
      else if Nat.ltb (Js.code c) 32 then None
      else cons_unit (N_of_ascii c) (parse_chars r)
  end.

(** A number: an optional minus, an integer part without a leading zero,
    an optional fraction and an optional exponent. Its lexeme is kept. *)
Definition parse_number (s : string) : option (string * string) :=
  let (sign, s1) :=
    match s with
    | String c r => if Ascii.eqb c "-" then ("-", r) else ("", s)
    | "" => ("", s)
    end in
  let int_part :=
    match s1 with
    | String c r =>
        if Ascii.eqb c "0" then Some ("0", r)
        else if is_digit c then Some (span_digits s1)
        else None
    | "" => None
    end in
  match int_part with
  | None => None
  | Some (i, s2) =>
      let frac :=
        match s2 with
        | String c r =>
            if Ascii.eqb c "." then
              match span_digits r with
              | ("", _) => None
              | (d, r') => Some (String c d, r')
              end
            else Some ("", s2)
        | "" => Some ("", s2)
        end in
      match frac with
      | None => None
      | Some (f, s3) =>
          let expo :=
            match s3 with
            | String c r =>
                if Ascii.eqb c "e" || Ascii.eqb c "E" then
                  let (sg, r0) :=
                    match r with
                    | String g r' =>
                        if Ascii.eqb g "+" || Ascii.eqb g "-"
                        then (String g "", r') else ("", r)
                    | "" => ("", r)
                    end in
                  match span_digits r0 with
                  | ("", _) => None
                  | (d, r') => Some (String c (sg ++ d), r')
                  end
                else Some ("", s3)
            | "" => Some ("", s3)
            end in
          match expo with
          | None => None
          | Some (e, s4) => Some (sign ++ i ++ f ++ e, s4)
          end
      end
  end.

Definition expect (lit : string) (v : value) (s : string)
    : option (value * string) :=
  if Js.startsWith lit s
  then Some (v, substring (length lit) (length s - length lit) s)
  else None.

Fixpoint parse_value (fuel : nat) (s : string) : option (value * string) :=
  match fuel with
  | 0 => None
  | S f =>
      match skip_ws s with
      | "" => None
      | String c r as s0 =>
          if Ascii.eqb c "n" then expect "null" Null s0
          else if Ascii.eqb c "t" then expect "true" (Bool true) s0
          else if Ascii.eqb c "f" then expect "false" (Bool false) s0
          else if Ascii.eqb c dquote then
            match parse_chars r with
            | Some (body, rest) => Some (Str body, rest)
            | None => None
            end
          else if Ascii.eqb c "[" then
            match skip_ws r with
            | String c1 r1 as r0 =>
                if Ascii.eqb c1 "]" then Some (Arr [], r1)
                else
                  match parse_elems f r0 with
                  | Some (vs, rest) => Some (Arr vs, rest)
                  | None => None
                  end
            | "" => None
            end
          else if Ascii.eqb c "{" then
            match skip_ws r with
            | String c1 r1 as r0 =>
                if Ascii.eqb c1 "}" then Some (Obj [], r1)
                else
                  match parse_members f r0 with
                  | Some (ms, rest) => Some (Obj ms, rest)
                  | None => None
                  end
            | "" => None
            end
          else
            match parse_number s0 with
            | Some (lx, rest) => Some (Num lx, rest)
            | None => None
            end
      end
  end

with parse_elems (fuel : nat) (s : string) : option (list value * string) :=
  match fuel with
  | 0 => None
  | S f =>
      match parse_value f s with
      | None => None
      | Some (v, r) =>
          match skip_ws r with
          | String c r1 =>
              if Ascii.eqb c "," then
                match parse_elems f r1 with
                | Some (vs, rest) => Some (v :: vs, rest)
                | None => None
                end
              else if Ascii.eqb c "]" then Some ([v], r1)
              else None
          | "" => None
          end
      end
  end

with parse_members (fuel : nat) (s : string)
    : option (list (list N * value) * string) :=
  match fuel with
  | 0 => None
  | S f =>
      match skip_ws s with
      | String q r =>
          if Ascii.eqb q dquote then
            match parse_chars r with
            | None => None
            | Some (key, r1) =>
                match skip_ws r1 with
                | String c r2 =>
                    if Ascii.eqb c ":" then
                      match parse_value f r2 with
                      | None => None
                      | Some (v, r3) =>
                          match skip_ws r3 with
                          | String d r4 =>
                              if Ascii.eqb d "," then
                                match parse_members f r4 with
                                | Some (ms, rest) => Some ((key, v) :: ms, rest)
                                | None => None
                                end
                              else if Ascii.eqb d "}" then Some ([(key, v)], r4)
                              else None
                          | "" => None
                          end
                      end
                    else None
                | "" => None
                end
            end
          else None
      | "" => None
      end
  end.

(** [JSON.parse(s)]: [None] stands for the SyntaxError it throws. *)
Definition parse (s : string) : option value :=
  match parse_value (2 * length s + 2) s with
  | Some (v, rest) =>
      match skip_ws rest with
      | "" => Some v
      | _ => None
      end
  | None => None
  end.

(** [o[k]]: the last member of that name wins, as in JavaScript. *)
Fixpoint get (k : string) (members : list (list N * value)) : option value :=
  match members with
  | [] => None
  | (k', v) :: rest =>
      match get k rest with
      | Some v' => Some v'
      | None => if Js.units_eqb k' (Js.units k) then Some v else None
      end
  end.

End Json.

(** ** The history store

    [localStorage] holds, under [STORAGE_KEY], what [JSON.stringify] made of
    the log. The object a message is in JavaScript is [json_of_message]; the
    component uses the value [loadHistory] returns as its log without looking
    at it, which is [log_of_json] where the value has the shape of a log and
    its texts hold no code unit above U+00FF. *)

Definition json_of_text (s : string) : Json.value := Json.Str (Js.units s).

Definition text_of_json (v : Json.value) : option string :=
  match v with
  | Json.Str u => Js.of_units u
  | _ => None
  end.

Definition json_of_sender (f : Sender) : Json.value :=
  json_of_text (match f with User => "user" | Assistant => "assistant" end).

Definition string_of_Z (z : Z) : string :=
  DecimalString.NilZero.string_of_int (Z.to_int z).

Definition Z_of_string (s : string) : option Z :=
  option_map Z.of_int (DecimalString.NilZero.int_of_string s).

Definition json_of_message (m : Message) : Json.value :=
  Json.Obj
    ([(Js.units "id", json_of_text (id m));
      (Js.units "from", json_of_sender (from m));
      (Js.units "text", json_of_text (text m))]
     ++ match image m with
        | Some u => [(Js.units "image", json_of_text u)]
        | None => []
        end
     ++ match ts m with
        | Some t => [(Js.units "ts", Json.Num (string_of_Z t))]
        | None => []
        end)%list.

Definition json_of_log (log : list Message) : Json.value :=
  Json.Arr (map json_of_message log).

Definition sender_of_json (v : Json.value) : option Sender :=
  match text_of_json v with
  | Some s =>
      if String.eqb s "user" then Some User
      else if String.eqb s "assistant" then Some Assistant
      else None
  | None => None
  end.

Definition message_of_json (v : Json.value) : option Message :=
  match v with
  | Json.Obj ms =>
      match Json.get "id" ms, Json.get "from" ms, Json.get "text" ms with
      | Some vi, Some f, Some vt =>
          match text_of_json vi, sender_of_json f, text_of_json vt with
          | Some i, Some sd, Some t =>
              let img :=
                match Json.get "image" ms with
                | None => Some None
                | Some vu => option_map Some (text_of_json vu)
                end in
              let stamp :=
                match Json.get "ts" ms with
                | None => Some None
                | Some (Json.Num lx) => option_map Some (Z_of_string lx)
                | Some _ => None
                end in
              match img, stamp with
              | Some im, Some st => Some (mkMessage i sd t im st)
              | _, _ => None
              end
          | _, _, _ => None
          end
      | _, _, _ => None
      end
  | _ => None
  end.

Fixpoint messages_of_json (items : list Json.value) : option (list Message) :=
  match items with
  | [] => Some []
  | v :: rest =>
      match message_of_json v, messages_of_json rest with
      | Some m, Some ms => Some (m :: ms)
      | _, _ => None
      end
  end.

(** The log a loaded value is, when it is an array of messages. *)
Definition log_of_json (v : Json.value) : option (list Message) :=
  match v with
  | Json.Arr items => messages_of_json items
  | _ => None
  end.

(** [loadHistory]: [r] is what [localStorage.getItem(STORAGE_KEY)] returned
    ([None] for [null]) and [newId] what [genId()] returns if it is called. *)
Definition loadHistory (r : option string) (newId : string) : Json.value :=
  match r with
  | None => json_of_log [welcome newId]
  | Some stored =>
      if negb (Js.truthy stored) then json_of_log [welcome newId]
      else
        match Json.parse stored with
        | Some v => v
        | None => json_of_log [welcome newId]
        end
  end.

(** ** Values thrown by the remote capabilities

    What a rejected call throws is an object or a primitive other than
    [null] and [undefined]; the handlers read its [message] and, failing
    that, its string conversion. *)

Record Thrown : Type := mkThrown {
  message : option string;   (* [err.message], when it is a string *)
  toString : string          (* [String(err)] *)
}.

(** [new Error(msg)] *)
Definition new_Error (msg : string) : Thrown :=
  mkThrown (Some msg) (if Js.truthy msg then "Error: " ++ msg else "Error").

(** [err.message || String(err)] *)
Definition error_detail (err : Thrown) : string :=
  match message err with
  | Some m => Js.or_else m (toString err)
  | None => toString err
  end.

Definition NO_IMAGE_DATA : string :=
  "No image data was returned. The prompt may have been blocked for safety reasons.".

Definition COULD_NOT_REACH : string := "FRIDAY couldn't reach the AI. ".

Definition IMAGE_FAILED : string := "Image generation failed.".

(** ** Component state

    The React state of [App], the chat reference, the storage slot and the
    timers the component owns. [requests] records, in order, the calls issued
    to the remote capabilities. An interval is kept with the variable [p] its
    callback closes over; the random increments of the progress ticker are
    taken as rationals. *)

Inductive Request : Type :=
| SendMessageStream (msg : string)
| GenerateContent (prompt : string).

Inductive Role : Type := RoleUser | RoleModel.

(** The history a chat session is created with. *)
Definition Chat : Type := list (Role * string).

Record AppState : Type := mkApp {
  messages : list Message;
  input : string;
  isThinking : bool;
  isGenerating : bool;
  lastError : option string;
  progress : Z;
  chatRef : option Chat;
  storage : option string;
  intervals : list (nat * Q);
  timeouts : list nat;
  nextHandle : nat;
  requests : list Request
}.

Definition setMessages (f : list Message -> list Message) (s : AppState) :=
  mkApp (f (messages s)) (input s) (isThinking s) (isGenerating s)
    (lastError s) (progress s) (chatRef s) (storage s) (intervals s)
    (timeouts s) (nextHandle s) (requests s).

Definition setInput (v : string) (s : AppState) :=
  mkApp (messages s) v (isThinking s) (isGenerating s) (lastError s)
    (progress s) (chatRef s) (storage s) (intervals s) (timeouts s)
    (nextHandle s) (requests s).

Definition setIsThinking (v : bool) (s : AppState) :=
  mkApp (messages s) (input s) v (isGenerating s) (lastError s) (progress s)
    (chatRef s) (storage s) (intervals s) (timeouts s) (nextHandle s)
    (requests s).

Definition setIsGenerating (v : bool) (s : AppState) :=
  mkApp (messages s) (input s) (isThinking s) v (lastError s) (progress s)
    (chatRef s) (storage s) (intervals s) (timeouts s) (nextHandle s)
    (requests s).

Definition setLastError (v : option string) (s : AppState) :=
  mkApp (messages s) (input s) (isThinking s) (isGenerating s) v (progress s)
    (chatRef s) (storage s) (intervals s) (timeouts s) (nextHandle s)
    (requests s).

Definition setProgress (v : Z) (s : AppState) :=
  mkApp (messages s) (input s) (isThinking s) (isGenerating s) (lastError s)
    v (chatRef s) (storage s) (intervals s) (timeouts s) (nextHandle s)
    (requests s).

Definition setStorage (v : option string) (s : AppState) :=
  mkApp (messages s) (input s) (isThinking s) (isGenerating s) (lastError s)
    (progress s) (chatRef s) v (intervals s) (timeouts s) (nextHandle s)
    (requests s).

Definition setTimers (iv : list (nat * Q)) (ts' : list nat) (next : nat)
    (s : AppState) :=
  mkApp (messages s) (input s) (isThinking s) (isGenerating s) (lastError s)
    (progress s) (chatRef s) (storage s) iv ts' next (requests s).

Definition issue (r : Request) (s : AppState) :=
  mkApp (messages s) (input s) (isThinking s) (isGenerating s) (lastError s)
    (progress s) (chatRef s) (storage s) (intervals s) (timeouts s)
    (nextHandle s) (requests s ++ [r]).

(** *** Timers *)

Definition handles (s : AppState) : list nat := map fst (intervals s).

(** [setInterval(cb, 380)] with [p = 10] in the closure of [cb]. *)
Definition fakeProgress (s : AppState) : nat * AppState :=
  let h := nextHandle s in
  (h, setTimers ((h, 10%Q) :: intervals s) (timeouts s) (S h) s).

Definition clearInterval (h : nat) (s : AppState) : AppState :=
  setTimers (filter (fun e => negb (Nat.eqb (fst e) h)) (intervals s))
    (timeouts s) (nextHandle s) s.

(** [setTimeout(() => setProgress(0), 900)] *)
Definition setTimeout (s : AppState) : nat * AppState :=
  let h := nextHandle s in
  (h, setTimers (intervals s) (h :: timeouts s) (S h) s).

(** The timeout [h] expires. *)
Definition fire_timeout (h : nat) (s : AppState) : AppState :=
  if existsb (Nat.eqb h) (timeouts s)
  then setProgress 0
         (setTimers (intervals s)
            (filter (fun x => negb (Nat.eqb x h)) (timeouts s))
            (nextHandle s) s)
  else s.

(** [p += Math.random()*12; if (p > 88) p = 88] with [r] the increment. *)
Definition advance (p r : Q) : Q :=
  let p' := Qplus p r in
  if Qle_bool p' 88%Q then p' else 88%Q.

Fixpoint tick_entry (h : nat) (r : Q) (iv : list (nat * Q))
    : list (nat * Q) * option Z :=
  match iv with
  | [] => ([], None)
  | (h', p) :: rest =>
      if Nat.eqb h' h
      then ((h', advance p r) :: rest, Some (Qfloor (advance p r)))
      else let (rest', out) := tick_entry h r rest in ((h', p) :: rest', out)
  end.

(** One run of the callback of interval [h]; nothing happens once it is
    cleared. *)
Definition tick (h : nat) (r : Q) (s : AppState) : AppState :=
  match tick_entry h r (intervals s) with
  | (iv, Some v) => setProgress v (setTimers iv (timeouts s) (nextHandle s) s)
  | (_, None) => s
  end.

Definition run_ticks (h : nat) (rs : list Q) (s : AppState) : AppState :=
  fold_left (fun st r => tick h r st) rs s.

(** ** Image generation flow *)

Record InlineData : Type := mkInline { mimeType : string; data : string }.

Inductive ImageResponse : Type :=
| Resolved (inlineData : option InlineData)
    (* [response.candidates?.[0]?.content?.parts?.[0]?.inlineData] *)
| Rejected (err : Thrown).

Record ImageEnv : Type := mkImageEnv {
  img_ticks : list Q;          (* ticker runs while the request is in flight *)
  img_response : ImageResponse;
  img_msgId : string;          (* [genId()] *)
  img_now : Z                  (* [Date.now()] *)
}.

Definition quoted (s : string) : string :=
  String Json.dquote s ++ String Json.dquote "".

(** The [catch] block of [generateImageFlow]. *)
Definition image_catch (fakeTimer : nat) (newId : string) (err : Thrown)
    (s : AppState) : AppState :=
  let s := clearInterval fakeTimer s in
  let s := setMessages (append (mkMessage newId Assistant IMAGE_FAILED None None)) s in
  setLastError (Some (error_detail err)) s.

Definition generateImageFlow (env : ImageEnv) (prompt : string)
    (s : AppState) : AppState :=
  let s := setIsGenerating true s in
  let s := setLastError None s in
  let (fakeTimer, s) := fakeProgress s in
  let s := setProgress 6 s in
  let body := bodyPrompt prompt in
  let s := issue (GenerateContent body) s in
  let s := run_ticks fakeTimer (img_ticks env) s in
  let s :=
    match img_response env with
    | Resolved part =>
        let s := clearInterval fakeTimer s in
        let s := setProgress 80 s in
        match part with
        | Some d =>
            let imageUrl := "data:" ++ mimeType d ++ ";base64," ++ data d in
            let s :=
              setMessages
                (append (mkMessage (img_msgId env) Assistant
                           ("Generated image: " ++ quoted body)
                           (Some imageUrl) (Some (img_now env)))) s in
            setProgress 100 s
        | None =>
            image_catch fakeTimer (img_msgId env) (new_Error NO_IMAGE_DATA) s
        end
    | Rejected err => image_catch fakeTimer (img_msgId env) err s
    end in
  let s := setIsGenerating false s in
  snd (setTimeout s).

(** ** Text flow *)

Record ChatOutcome : Type := mkChatOutcome {
  fragments : list string;     (* the [chunk.text] of the chunks received *)
  failure : option Thrown      (* what ended the stream, if not its end *)
}.

Record SendEnv : Type := mkSendEnv {
  userMsgId : string;          (* [genId()] *)
  now : Z;                     (* [Date.now()] *)
  assistantMsgId : string;     (* [genId()] *)
  chat_outcome : ChatOutcome;
  image_env : ImageEnv
}.

(** *** The [for await] loop

    [setMessages(prev => prev.map(m => m.id === assistantMsgId ? { ...m,
    text: fullReply } : m))] hands React a function that reads the variable
    [fullReply] when it runs, and React runs it when it next renders, after
    the loop may have assigned the variable again. A queued updater is
    therefore a function of the value [fullReply] has when it runs. Whether
    React renders between two chunks depends on how they arrive (and on the
    root: a legacy root renders at every call), so the renders are an
    input of the loop, one boolean per chunk. (An updater React runs at the
    call itself, which it may when nothing else is queued, reads what a
    render after that chunk reads.) *)

Definition Updater : Type := string -> list Message -> list Message.

Record Loop : Type := mkLoop {
  rendered : AppState;        (* the state as of the last render *)
  fullReply : string;         (* [let fullReply] *)
  queued : list Updater       (* the calls of [setMessages] since then *)
}.

(** The log after the queued updaters have run, in order. *)
Definition run_queue (cur : string) (q : list Updater) (log : list Message)
    : list Message :=
  fold_left (fun acc u => u cur acc) q log.

(** React renders. *)
Definition render (l : Loop) : Loop :=
  match queued l with
  | [] => l
  | q =>
      mkLoop (setMessages (run_queue (fullReply l) q) (rendered l))
        (fullReply l) []
  end.

(** [prev => prev.map(m => m.id === target ? { ...m, text: fullReply } : m)] *)
Definition show_reply (target : string) : Updater :=
  fun cur => updateById target (set_text cur).

(** [fullReply += chunk.text; setMessages(...)] *)
Definition on_chunk (target chunk : string) (l : Loop) : Loop :=
  mkLoop (rendered l) (fullReply l ++ chunk) (queued l ++ [show_reply target]).

(** The loop after each chunk of [for await (const chunk of stream)]. *)
Fixpoint for_await_trace (target : string) (chunks : list string)
    (renders : list bool) (l : Loop) : list Loop :=
  match chunks with
  | [] => []
  | chunk :: rest =>
      let l := on_chunk target chunk l in
      let l := if hd false renders then render l else l in
      l :: for_await_trace target rest (tl renders) l
  end.

(** The state React shows when the loop is left: the updaters still queued
    run with the value [fullReply] has then. The renders before do not
    change it ([for_await_renders] below), so none is taken here. *)
Definition for_await (target fullReply : string) (chunks : list string)
    (s : AppState) : AppState :=
  let start := mkLoop s fullReply [] in
  rendered (render (last (for_await_trace target chunks [] start) start)).

(** What the loop keeps true of its state, [s] being the state at its
    entry: the queue holds updaters of the reply only, and the state of the
    last render is [s], or [s] with some text under the target id. *)
Definition loop_inv (target : string) (s : AppState) (l : Loop) : Prop :=
  (exists n, queued l = repeat (show_reply target) n) /\
  (rendered l = s \/
   exists t, rendered l = setMessages (updateById target (set_text t)) s).

(** The [catch] block of [handleSend]. *)
Definition send_catch (target : string) (err : Thrown) (s : AppState)
    : AppState :=
  let errorText := COULD_NOT_REACH ++ error_detail err in
  let s := setMessages (updateById target (set_text errorText)) s in
  setLastError (Some (error_detail err)) s.

Definition isSome {A : Type} (o : option A) : bool :=
  match o with Some _ => true | None => false end.

(** [handleSend]: the state React shows once the handler has returned and
    its updates are rendered. *)
Definition handleSend (env : SendEnv) (s : AppState) : AppState :=
  let text := Js.trim (input s) in
  if negb (Js.truthy text) || negb (isSome (chatRef s)) then s
  else
    let s := setLastError None s in
    let isImage := detectImageIntent text in
    let userMsg := mkMessage (userMsgId env) User text None (Some (now env)) in
    let s := setMessages (append userMsg) s in
    let s := setInput "" s in
    if isImage then generateImageFlow (image_env env) text s
    else
      let s := setIsThinking true s in
      let target := assistantMsgId env in
      let s := setMessages (append (mkMessage target Assistant "" None None)) s in
      let s := issue (SendMessageStream text) s in
      let s := for_await target "" (fragments (chat_outcome env)) s in
      let s :=
        match failure (chat_outcome env) with
        | Some err => send_catch target err s
        | None => s
        end in
      setIsThinking false s.

(** ** Clearing the history *)

(** [clearHistory]: [confirmed] is the answer to the confirmation dialog. *)
Definition clearHistory (confirmed : bool) (newId : string) (s : AppState)
    : AppState :=
  if negb confirmed then s
  else
    let w := welcome newId in
    let s := setMessages (fun _ => [w]) s in
    setStorage None s.

(** ** Notions the properties are stated with *)

(** [k] occurs in [s]. *)
Definition contains (k s : string) : Prop := exists a b, s = a ++ k ++ b.

(** What follows a command token: the end of the text or a character that
    is not a word character. *)
Definition token_ends (rest : string) : bool :=
  negb (Re.is_word_opt (Re.next_char rest)).

Definition fold_case (ci : bool) (s : string) : string :=
  if ci then Js.toLowerCase s else s.

(** [s] is the token [tok] (up to case when [ci]) followed by [rest]. *)
Definition leading_token (ci : bool) (tok s rest : string) : Prop :=
  exists pre, s = pre ++ rest /\ fold_case ci pre = tok /\ token_ends rest = true.

Definition begins_with_command (ci : bool) (s : string) : Prop :=
  exists tok rest, In tok COMMAND_TOKENS /\ leading_token ci tok s rest.

(** The operations of the message log, as the component performs them. *)
Inductive LogOp : Type :=
| Append (m : Message)
| UpdateById (target newText : string)
| ResetLog (newId : string).

Definition apply_op (op : LogOp) (s : AppState) : AppState :=
  match op with
  | Append m => setMessages (append m) s
  | UpdateById target newText =>
      setMessages (updateById target (set_text newText)) s
  | ResetLog newId => clearHistory true newId s
  end.

Definition run_ops (ops : list LogOp) (s : AppState) : AppState :=
  fold_left (fun st op => apply_op op st) ops s.

(** [concat] of the fragments received so far. *)
Definition joined (chunks : list string) : string :=
  fold_right String.append "" chunks.

(** The character before the position reached after reading [pre]. *)
Fixpoint last_of (prev : option ascii) (pre : string) : option ascii :=
  match pre with
  | "" => prev
  | String x r => last_of (Some x) r
  end.

Definition fold_char (ci : bool) (c : ascii) : ascii :=
  if ci then Js.lower_char c else c.

Fixpoint drop (n : nat) (s : string) : string :=
  match n, s with
  | 0, _ => s
  | S k, String _ r => drop k r
  | S _, "" => ""
  end.

(** A trigger of the image intent in a text [t] already in lower case. *)
Definition image_trigger (t : string) : Prop :=
  (exists k, In k IMAGE_KEYWORDS /\ contains k t) \/ begins_with_command false t.

(** The message [handleSend] shows for the user's text. *)
Definition userMsg_of (env : SendEnv) (text : string) : Message :=
  mkMessage (userMsgId env) User text None (Some (now env)).

(** The assistant message of a text send, holding [t]. *)
Definition assistantMsg_of (env : SendEnv) (t : string) : Message :=
  mkMessage (assistantMsgId env) Assistant t None None.

(** The state in which [handleSend] enters its [for await] loop. *)
Definition loop_entry (env : SendEnv) (text : string) (s : AppState) : AppState :=
  issue (SendMessageStream text)
    (setMessages (append (assistantMsg_of env ""))
       (setIsThinking true
          (setInput ""
             (setMessages (append (userMsg_of env text))
                (setLastError None s))))).

(** The log of a text send when the reply reads [t]: the log at the entry
    of the loop with [t] as the text of the assistant message, and of any
    other message that carries its id. *)
Definition log_showing (env : SendEnv) (text t : string) (s : AppState)
    : list Message :=
  updateById (assistantMsgId env) (set_text t)
    (messages (loop_entry env text s)).

(** The condition under which [handleSend] starts a text send of [text]. *)
Definition text_send (s : AppState) (text : string) : Prop :=
  Js.trim (input s) = text /\ text <> "" /\ chatRef s <> None /\
  detectImageIntent text = false.

(** The ids a text send allocates are new to the log and distinct. *)
Definition fresh_ids (env : SendEnv) (s : AppState) : Prop :=
  ~ In (assistantMsgId env) (ids (messages s)) /\
  assistantMsgId env <> userMsgId env.

(** The environment [env] with another answer of the image capability. *)
Definition with_response (r : ImageResponse) (env : ImageEnv) : ImageEnv :=
  mkImageEnv (img_ticks env) r (img_msgId env) (img_now env).

(** The message the image flow appends when it fails. *)
Definition failureMsg_of (env : ImageEnv) : Message :=
  mkMessage (img_msgId env) Assistant IMAGE_FAILED None None.

(** A state and environments on which the properties are exercised. *)
Definition sample_state (typed : string) : AppState :=
  mkApp [welcome "w0"] typed false false None 0 (Some []) None [] [] 0 [].

Definition sample_image_env (r : ImageResponse) : ImageEnv :=
  mkImageEnv [(7 # 2)%Q; 11%Q; (90 # 1)%Q] r "g1" 2000.

Definition sample_env (o : ChatOutcome) : SendEnv :=
  mkSendEnv "u1" 1000 "a1" o (sample_image_env (Resolved None)).

(** The message the image flow appends when it succeeds. *)
Definition imageMsg_of (env : ImageEnv) (prompt : string) (d : InlineData)
    : Message :=
  mkMessage (img_msgId env) Assistant
    ("Generated image: " ++ quoted (bodyPrompt prompt))
    (Some ("data:" ++ mimeType d ++ ";base64," ++ data d))
    (Some (img_now env)).

(** The state in which [generateImageFlow] awaits the answer, and the state
    when the answer arrives, the progress ticker having run meanwhile. *)
Definition in_flight (prompt : string) (s : AppState) : AppState :=
  issue (GenerateContent (bodyPrompt prompt))
    (setProgress 6
       (snd (fakeProgress (setLastError None (setIsGenerating true s))))).

Definition on_answer (env : ImageEnv) (prompt : string) (s : AppState) : AppState :=
  run_ticks (nextHandle s) (img_ticks env) (in_flight prompt s).

(** The component at its first render: the log is what [loadHistory]
    returned. A loaded value that is not an array of messages, or that holds
    a text with a code unit above U+00FF, is outside the embedding. *)
Definition mount (r : option string) (newId : string) : option AppState :=
  option_map
    (fun log => mkApp log "" false false None 0 None r [] [] 0 [])
    (log_of_json (loadHistory r newId)).

(** Checking a property of every 8-bit character by evaluation. *)
Definition all_bool (P : bool -> bool) : bool := P true && P false.

Definition all_ascii (P : ascii -> bool) : bool :=
  all_bool (fun b0 => all_bool (fun b1 => all_bool (fun b2 => all_bool (fun b3 =>
  all_bool (fun b4 => all_bool (fun b5 => all_bool (fun b6 => all_bool (fun b7 =>
    P (Ascii b0 b1 b2 b3 b4 b5 b6 b7))))))))).


(** ** Further notions: accepted sends *)

(** [handleSend] goes past its guard. *)
Definition accepted (s : AppState) : Prop :=
  Js.trim (input s) <> "" /\ chatRef s <> None.

(** The branch an accepted send takes. *)
Definition image_branch (s : AppState) : bool :=
  detectImageIntent (Js.trim (input s)).

(** The id of the assistant message a send appends. *)
Definition reply_id (env : SendEnv) (s : AppState) : string :=
  if image_branch s then img_msgId (image_env env) else assistantMsgId env.

(** The request a send issues. *)
Definition request_of (s : AppState) : Request :=
  if image_branch s then GenerateContent (bodyPrompt (Js.trim (input s)))
  else SendMessageStream (Js.trim (input s)).

Definition has_inline_data (r : ImageResponse) : bool :=
  match r with
  | Resolved (Some _) => true
  | _ => false
  end.

(** The remote capability delivered what the send asked for. *)
Definition delivered (env : SendEnv) (s : AppState) : bool :=
  if image_branch s then has_inline_data (img_response (image_env env))
  else negb (isSome (failure (chat_outcome env))).

(** The state in which [handleSend] calls [generateImageFlow]. *)
Definition image_entry (env : SendEnv) (text : string) (s : AppState) : AppState :=
  setInput "" (setMessages (append (userMsg_of env text)) (setLastError None s)).

(** Everything of a message but its text. *)
Definition frame (m : Message) : string * Sender * option string * option Z :=
  (id m, from m, image m, ts m).

(** ** While the image request is in flight

    What changes the progress value while [generateImageFlow] awaits the
    answer: a run of the flow's own ticker, and the reset an earlier flow
    left pending (the timeout of [setTimeout(() => setProgress(0), 900)] is
    never cancelled), when its delay is over. *)

Inductive FlightEvent : Type :=
| Ticker (r : Q)          (* the ticker runs, with the increment [r] *)
| StaleReset (h : nat).   (* the timeout [h] expires *)

Definition flight_step (timer : nat) (e : FlightEvent) (s : AppState)
    : AppState :=
  match e with
  | Ticker r => tick timer r s
  | StaleReset h => fire_timeout h s
  end.

(** The state after the events [evs], from the state in which the flow
    starts to await the answer. *)
Definition while_in_flight (evs : list FlightEvent) (prompt : string)
    (s : AppState) : AppState :=
  fold_left (fun st e => flight_step (nextHandle s) e st) evs
    (in_flight prompt s).

(** The increments of the ticker runs among the events. *)
Fixpoint increments (evs : list FlightEvent) : list Q :=
  match evs with
  | [] => []
  | Ticker r :: rest => r :: increments rest
  | StaleReset _ :: rest => increments rest
  end.

(** ** Retry *)

(** [[...messages].reverse().find(m => m.from === 'user')] *)
Definition lastUser (log : list Message) : option Message :=
  find (fun m => Sender_eqb (from m) User) (rev log).

(** [retryLast]: the state after the call, and the handle of the timeout
    that will dispatch the submit event, when one was set. *)
Definition retryLast (s : AppState) : AppState * option nat :=
  match lastUser (messages s) with
  | None => (s, None)
  | Some m =>
      let s := setInput (text m) s in
      let h := nextHandle s in
      (setTimers (intervals s) (timeouts s) (S h) s, Some h)
  end.

(** The retry and, when its timeout expires, the submit it dispatches. *)
Definition retry_and_submit (env : SendEnv) (s : AppState) : AppState :=
  match retryLast s with
  | (s1, Some _) => handleSend env s1
  | (s1, None) => s1
  end.

(** ** [JSON.stringify] of a log, [saveHistory] and [exportHistory]

    The text [JSON.stringify(messages, null, gap)] gives for a log whose
    messages are the objects the component builds: the keys [id], [from],
    [text], then [image] and [ts] when they are set, in this order. [gap] is
    the number of spaces of the indentation, 0 when the call gives none. A
    timestamp is written in decimal digits (its magnitude is below 10^21). *)

Module Stringify.

Definition hex_digit (n : nat) : ascii :=
  if Nat.ltb n 10 then ascii_of_nat (48 + n) else ascii_of_nat (87 + n).

(** QuoteJSONString, one code unit. *)
Definition escape_char (c : ascii) : string :=
  let n := Js.code c in
  if Ascii.eqb c Json.dquote then String "\" (String Json.dquote "")
  else if Ascii.eqb c "\" then "\\"
  else if Nat.eqb n 8 then "\b"
  else if Nat.eqb n 9 then "\t"
  else if Nat.eqb n 10 then "\n"
  else if Nat.eqb n 12 then "\f"
  else if Nat.eqb n 13 then "\r"
  else if Nat.ltb n 32
       then "\u00" ++ String (hex_digit (n / 16)) (String (hex_digit (n mod 16)) "")
  else String c "".

Fixpoint escape (s : string) : string :=
  match s with
  | "" => ""
  | String c r => escape_char c ++ escape r
  end.

Definition quote (s : string) : string :=
  String Json.dquote (escape s ++ String Json.dquote "").

Fixpoint spaces (n : nat) : string :=
  match n with
  | 0 => ""
  | S k => String " " (spaces k)
  end.

(** The line break before an item at depth [depth]; nothing without gap. *)
Definition break (gap depth : nat) : string :=
  match gap with
  | 0 => ""
  | _ => String (ascii_of_nat 10) (spaces (gap * depth))
  end.

Definition colon (gap : nat) : string :=
  match gap with 0 => ":" | _ => ": " end.

Fixpoint join (sep : string) (items : list string) : string :=
  match items with
  | [] => ""
  | [x] => x
  | x :: rest => x ++ sep ++ join sep rest
  end.

(** SerializeJSONObject and SerializeJSONArray, for items at [depth]. *)
Definition enclose (opening closing : string) (gap depth : nat)
    (items : list string) : string :=
  match items with
  | [] => opening ++ closing
  | _ =>
      opening ++ break gap depth
      ++ join ("," ++ break gap depth) items
      ++ break gap (depth - 1) ++ closing
  end.

Definition member (gap : nat) (key value : string) : string :=
  quote key ++ colon gap ++ value.

Definition sender_text (f : Sender) : string :=
  match f with User => "user" | Assistant => "assistant" end.

Definition message (gap : nat) (m : Message) : string :=
  enclose "{" "}" gap 2
    ([member gap "id" (quote (id m));
      member gap "from" (quote (sender_text (from m)));
      member gap "text" (quote (text m))]
     ++ match image m with
        | Some u => [member gap "image" (quote u)]
        | None => []
        end
     ++ match ts m with
        | Some t => [member gap "ts" (string_of_Z t)]
        | None => []
        end)%list.

Definition log (gap : nat) (l : list Message) : string :=
  enclose "[" "]" gap 1 (map (message gap) l).

End Stringify.

(** [saveHistory(messages)]: [stored] tells whether [localStorage.setItem]
    returned; when it throws, the exception is caught and logged. *)
Definition saveHistory (stored : bool) (log : list Message) (s : AppState)
    : AppState :=
  if stored then setStorage (Some (Stringify.log 0 log)) s else s.

(** The text [exportHistory] offers for download. *)
Definition exportHistory (s : AppState) : string :=
  Stringify.log 2 (messages s).

(** The effect [useEffect(() => saveHistory(messages), [messages])]. *)
Definition persist (stored : bool) (s : AppState) : AppState :=
  saveHistory stored (messages s) s.

(** Texts made of JSON whitespace, and what may follow a value. *)
Fixpoint all_ws (w : string) : bool :=
  match w with
  | "" => true
  | String c r => Json.is_ws c && all_ws r
  end.

Definition is_delimiter (c : ascii) : bool :=
  Json.is_ws c || Ascii.eqb c "," || Ascii.eqb c "}" || Ascii.eqb c "]".

Definition delimited (rest : string) : bool :=
  match rest with
  | "" => true
  | String c _ => is_delimiter c
  end.

(** [txt] is read as the value [v] with [k] units of fuel or more, after any
    whitespace and before any delimiter. *)
Definition reads_as (k : nat) (txt : string) (v : Json.value) : Prop :=
  forall f w rest,
    k <= f -> all_ws w = true -> delimited rest = true ->
    Json.parse_value f (w ++ txt ++ rest) = Some (v, rest).

(** What may follow the digits of a number. *)
Definition number_ends (rest : string) : bool :=
  match rest with
  | "" => true
  | String c _ =>
      negb (Json.is_digit c || Ascii.eqb c "." || Ascii.eqb c "e"
            || Ascii.eqb c "E")
  end.

(** The members of the object a message is written as: key, text of the
    value, value. *)
Definition Field : Type := string * string * Json.value.

Definition fields_of (m : Message) : list Field :=
  ([("id", Stringify.quote (id m), json_of_text (id m));
    ("from", Stringify.quote (Stringify.sender_text (from m)),
     json_of_sender (from m));
    ("text", Stringify.quote (text m), json_of_text (text m))]
   ++ match image m with
      | Some u => [("image", Stringify.quote u, json_of_text u)]
      | None => []
      end
   ++ match ts m with
      | Some t => [("ts", string_of_Z t, Json.Num (string_of_Z t))]
      | None => []
      end)%list.

Definition field_text (gap : nat) (fl : Field) : string :=
  Stringify.member gap (fst (fst fl)) (snd (fst fl)).

Definition field_value (fl : Field) : list N * Json.value :=
  (Js.units (fst (fst fl)), snd fl).

(** Items separated by a comma and [sep], then [closing]. *)
Fixpoint items_text (sep : string) (items : list string) (closing : string)
    : string :=
  match items with
  | [] => closing
  | [x] => x ++ closing
  | x :: rest => x ++ String "," (sep ++ items_text sep rest closing)
  end.

(** ** The context of the chat session *)

(** [!m.image] *)
Definition no_image (m : Message) : bool :=
  match image m with
  | Some u => negb (Js.truthy u)
  | None => true
  end.

(** [{ role: m.from === 'user' ? 'user' : 'model', parts: [{ text: m.text }] }] *)
Definition turn_of (m : Message) : Role * string :=
  (if Sender_eqb (from m) User then RoleUser else RoleModel, text m).

(** [messages.slice(1).filter(m => !m.image).map(...)], the history the
    chat session is created with. *)
Definition chatHistory (log : list Message) : Chat :=
  map turn_of (filter no_image (skipn 1 log)).

(** The text the assistant message of a text send ends with. *)
Definition reply_text (env : SendEnv) : string :=
  match failure (chat_outcome env) with
  | Some err => COULD_NOT_REACH ++ error_detail err
  | None => joined (fragments (chat_outcome env))
  end.

(** The turns of the assistant a send adds to the context. *)
Definition reply_turns (env : SendEnv) (s : AppState) : Chat :=
  if image_branch s then
    if has_inline_data (img_response (image_env env)) then []
    else [(RoleModel, IMAGE_FAILED)]
  else [(RoleModel, reply_text env)].

(** ** The proxy: [POST /api/chat] and [POST /api/image]

    [req.body] is the object [express.json()] made of the request. A field
    of it is seen through what the handlers do with it: its truth value
    ([!message], [style || 'Cinematic']) and its string conversion (in the
    template literal); a string field is both. What the remote capability
    answers is an argument; the calls issued to it are returned with the
    response. *)

Module Server.

Record Seen : Type := mkSeen {
  truthy : bool;
  shown : string
}.

(** A field holding the string [s]. *)
Definition of_text (s : string) : Seen := mkSeen (Js.truthy s) s.

(** A field that is missing. *)
Definition undefined : Seen := mkSeen false "undefined".

Inductive Body : Type :=
| ErrorBody (error : string)
| ReplyBody (reply : option string)
| ImageBody (imageUrl : string).

Record Response : Type := mkResponse {
  status : nat;
  body : Body
}.

Inductive Upstream : Type :=
| SendMessage (historyGiven : bool) (msg : Seen)
| GenerateImage (prompt : string).

Inductive ChatAnswer : Type :=
| Replied (text : option string)     (* [response.text] *)
| ChatFailed (err : Thrown).

Definition MESSAGE_REQUIRED : string := "Message is required".
Definition CHAT_FAILED : string := "Failed to get response from AI".
Definition PROMPT_REQUIRED : string := "Prompt is required".
Definition IMAGE_FAILED_DEFAULT : string := "Failed to generate image".
Definition NO_IMAGE_FROM_API : string :=
  "No image data was returned from the API. The prompt may have been blocked for safety reasons.".

(** [app.post('/api/chat', ...)] *)
Definition api_chat (history message : Seen) (answer : ChatAnswer)
    : Response * list Upstream :=
  if negb (truthy message) then (mkResponse 400 (ErrorBody MESSAGE_REQUIRED), [])
  else
    let calls := [SendMessage (truthy history) message] in
    match answer with
    | Replied t => (mkResponse 200 (ReplyBody t), calls)
    | ChatFailed _ => (mkResponse 500 (ErrorBody CHAT_FAILED), calls)
    end.

(** [`${prompt}, ${style || 'Cinematic'} style, high detail, masterpiece`] *)
Definition fullPrompt (prompt style : Seen) : string :=
  shown prompt ++ ", "
  ++ (if truthy style then shown style else "Cinematic")
  ++ " style, high detail, masterpiece".

(** [error.message || 'Failed to generate image'] *)
Definition image_error (err : Thrown) : string :=
  match message err with
  | Some m => Js.or_else m IMAGE_FAILED_DEFAULT
  | None => IMAGE_FAILED_DEFAULT
  end.

(** [app.post('/api/image', ...)] *)
Definition api_image (prompt style : Seen) (answer : ImageResponse)
    : Response * list Upstream :=
  if negb (truthy prompt) then (mkResponse 400 (ErrorBody PROMPT_REQUIRED), [])
  else
    let calls := [GenerateImage (fullPrompt prompt style)] in
    match answer with
    | Resolved (Some d) =>
        (mkResponse 200
           (ImageBody ("data:" ++ mimeType d ++ ";base64," ++ data d)), calls)
    | Resolved None =>
        (mkResponse 500 (ErrorBody (image_error (new_Error NO_IMAGE_FROM_API))),
         calls)
    | Rejected err => (mkResponse 500 (ErrorBody (image_error err)), calls)
    end.

End Server.

(** ** Voice input

    The state the voice functions add to the component: the [listening]
    flag, the recognizer in [speechRef.current], and what was asked of the
    browser (recognizers started and stopped, alerts shown). A recognizer is
    named by the number of recognizers created before it. Its events reach
    the handlers [startListening] installed on it, which act on the state of
    the component whichever recognizer they belong to. *)

Module Voice.

Record State : Type := mkState {
  app : AppState;
  listening : bool;
  speechRef : option nat;
  started : list nat;
  stopped : list nat;
  alerts : list string
}.

(** [prev => prev ? prev + ' ' + t : t] *)
Definition heard (t prev : string) : string :=
  if Js.truthy prev then prev ++ " " ++ t else t.

Definition setListening (b : bool) (v : State) : State :=
  mkState (app v) b (speechRef v) (started v) (stopped v) (alerts v).

(** [startListening]: [supported] tells whether the browser has a speech
    recognition constructor. *)
Definition startListening (supported : bool) (v : State) : State :=
  if negb supported
  then mkState (app v) (listening v) (speechRef v) (started v) (stopped v)
         (alerts v ++ ["Voice not supported"])
  else
    let r := List.length (started v) in
    mkState (app v) (listening v) (Some r) (started v ++ [r]) (stopped v)
      (alerts v).

(** [stopListening]: an exception of [stop()] is caught. *)
Definition stopListening (v : State) : State :=
  let v :=
    match speechRef v with
    | Some r =>
        mkState (app v) (listening v) (speechRef v) (started v)
          (stopped v ++ [r]) (alerts v)
    | None => v
    end in
  setListening false v.

Definition toggleListening (supported : bool) (v : State) : State :=
  if listening v then stopListening v else startListening supported v.

Inductive Action : Type :=
| Toggle            (* the microphone button *)
| OnStart
| OnResult (transcript : string)
| OnError
| OnEnd.

Definition step (supported : bool) (a : Action) (v : State) : State :=
  match a with
  | Toggle => toggleListening supported v
  | OnStart => setListening true v
  | OnResult t =>
      mkState (setInput (heard t (input (app v))) (app v)) (listening v)
        (speechRef v) (started v) (stopped v) (alerts v)
  | OnError => setListening false v
  | OnEnd => setListening false v
  end.

Definition run (supported : bool) (acts : list Action) (v : State) : State :=
  fold_left (fun st a => step supported a st) acts v.

End Voice.

(** The transcripts of the results among the actions. *)
Fixpoint transcripts (acts : list Voice.Action) : list string :=
  match acts with
  | [] => []
  | Voice.OnResult t :: rest => t :: transcripts rest
  | _ :: rest => transcripts rest
  end.

(** No recognizer of the state has a name a later one will get. *)
Definition voice_wf (v : Voice.State) : Prop :=
  (forall r, Voice.speechRef v = Some r -> r < List.length (Voice.started v)) /\
  (forall r, In r (Voice.stopped v) -> r < List.length (Voice.started v)).

(** * Properties *)

(** ** Strings *)

Lemma append_empty_r (s : string) : s ++ "" = s.
Proof. induction s as [|c s IH]; simpl; [reflexivity | now rewrite IH]. Qed.

Lemma append_assoc (a b c : string) : (a ++ b) ++ c = a ++ b ++ c.
Proof. induction a as [|x a IH]; simpl; [reflexivity | now rewrite IH]. Qed.

Lemma startsWith_spec (p s : string) :
  Js.startsWith p s = true <-> exists r, s = p ++ r.
Proof.
  revert s. induction p as [|a p IH]; intros s; simpl.
  - split; [intros _; now exists s | reflexivity].
  - destruct s as [|b s].
    + split; [discriminate | intros [r H]; discriminate].
    + rewrite andb_true_iff, IH. split.
      * intros [Hab [r ->]]. apply Ascii.eqb_eq in Hab. subst. now exists r.
      * intros [r H]. injection H as -> ->. split; [apply Ascii.eqb_refl | now exists r].
Qed.

Lemma includes_spec (k s : string) : Js.includes k s = true <-> contains k s.
Proof.
  unfold contains. induction s as [|c s IH].
  - simpl. rewrite orb_false_r, startsWith_spec. split.
    + intros [r H]. now exists "", r.
    + intros [a [b H]]. destruct a; [now exists b | discriminate].
  - cbn [Js.includes]. rewrite orb_true_iff, startsWith_spec, IH. split.
    + intros [[r H] | [a [b H]]].
      * now exists "", r.
      * exists (String c a), b. simpl. now rewrite H.
    + intros [a [b H]]. destruct a as [|x a].
      * left. now exists b.
      * right. simpl in H. injection H as _ H. now exists a, b.
Qed.

Lemma toLowerCase_app (a b : string) :
  Js.toLowerCase (a ++ b) = Js.toLowerCase a ++ Js.toLowerCase b.
Proof. induction a as [|x a IH]; simpl; [reflexivity | now rewrite IH]. Qed.

Lemma toLowerCase_length (s : string) : length (Js.toLowerCase s) = length s.
Proof. induction s as [|x s IH]; simpl; [reflexivity | now rewrite IH]. Qed.

Lemma append_inv_length (a b c d : string) :
  a ++ b = c ++ d -> length a = length c -> a = c /\ b = d.
Proof.
  revert c. induction a as [|x a IH]; intros [|y c] H L; simpl in *;
    try discriminate.
  - now split.
  - injection H as -> H. injection L as L. destruct (IH _ H L) as [-> ->].
    now split.
Qed.

(** *** Deciding a property of every character *)

Lemma all_bool_sound (P : bool -> bool) :
  all_bool P = true -> forall b, P b = true.
Proof.
  unfold all_bool. intros H b. apply andb_true_iff in H. now destruct b.
Qed.

Lemma all_ascii_sound (P : ascii -> bool) :
  all_ascii P = true -> forall c, P c = true.
Proof.
  intros H [b0 b1 b2 b3 b4 b5 b6 b7]. unfold all_ascii in H.
  apply (all_bool_sound _ (all_bool_sound _ (all_bool_sound _ (all_bool_sound _
    (all_bool_sound _ (all_bool_sound _ (all_bool_sound _ (all_bool_sound _ H
      b0) b1) b2) b3) b4) b5) b6) b7).
Qed.

Lemma canonicalize_lower (c x : ascii) :
  Ascii.eqb (Js.canonicalize c) (Js.canonicalize x)
  = Ascii.eqb (Js.lower_char c) (Js.lower_char x).
Proof.
  apply Bool.eqb_prop. revert x.
  apply (all_ascii_sound (fun x =>
    Bool.eqb (Ascii.eqb (Js.canonicalize c) (Js.canonicalize x))
             (Ascii.eqb (Js.lower_char c) (Js.lower_char x)))).
  revert c.
  apply (all_ascii_sound (fun c => all_ascii (fun x =>
    Bool.eqb (Ascii.eqb (Js.canonicalize c) (Js.canonicalize x))
             (Ascii.eqb (Js.lower_char c) (Js.lower_char x))))).
  vm_compute. reflexivity.
Qed.

Lemma is_word_lower (c : ascii) : Js.is_word (Js.lower_char c) = Js.is_word c.
Proof.
  apply Bool.eqb_prop. revert c.
  apply (all_ascii_sound (fun c =>
    Bool.eqb (Js.is_word (Js.lower_char c)) (Js.is_word c))).
  vm_compute. reflexivity.
Qed.

Lemma lower_char_idem (c : ascii) :
  Js.lower_char (Js.lower_char c) = Js.lower_char c.
Proof.
  apply Ascii.eqb_eq. revert c.
  apply (all_ascii_sound (fun c =>
    Ascii.eqb (Js.lower_char (Js.lower_char c)) (Js.lower_char c))).
  vm_compute. reflexivity.
Qed.

(** ** The regular expression matcher on the command tokens *)

Lemma char_matches_spec (ci : bool) (c x : ascii) :
  Re.char_matches ci c x = true <-> fold_char ci c = fold_char ci x.
Proof.
  unfold Re.char_matches, fold_char. destruct ci.
  - rewrite canonicalize_lower. apply Ascii.eqb_eq.
  - apply Ascii.eqb_eq.
Qed.

Lemma fold_case_cons (ci : bool) (c : ascii) (s : string) :
  fold_case ci (String c s) = String (fold_char ci c) (fold_case ci s).
Proof. now destruct ci. Qed.

Lemma fold_case_nil (ci : bool) (s : string) : fold_case ci s = "" -> s = "".
Proof. destruct ci, s; simpl; congruence. Qed.

Lemma match_seq_lit (ci : bool) (tok : string) :
  forall prev s n,
    Re.match_seq ci prev (Re.lit tok ++ [Re.WordB])%list s = Some n <->
    exists pre rest,
      s = pre ++ rest /\ length pre = n /\
      fold_case ci pre = fold_case ci tok /\
      xorb (Re.is_word_opt (last_of prev pre))
           (Re.is_word_opt (Re.next_char rest)) = true.
Proof.
  induction tok as [|c tok IH]; intros prev s n.
  - cbn [Re.lit list_ascii_of_string map app Re.match_seq]. split.
    + destruct (xorb _ _) eqn:E; [|discriminate].
      intros [= <-]. exists "", s. repeat split. exact E.
    + intros (pre & rest & -> & L & F & X).
      replace (fold_case ci "") with "" in F by now destruct ci.
      apply fold_case_nil in F. subst pre. simpl in *. now rewrite X, <- L.
  - change (Re.lit (String c tok) ++ [Re.WordB])%list
      with (Re.Chr c :: (Re.lit tok ++ [Re.WordB]))%list.
    cbn [Re.match_seq]. split.
    + destruct s as [|x s]; [discriminate|].
      destruct (Re.char_matches ci c x) eqn:E; [|discriminate].
      destruct (Re.match_seq ci (Some x) _ s) as [m|] eqn:M; [|discriminate].
      intros [= <-]. apply IH in M. destruct M as (pre & rest & -> & L & F & X).
      exists (String x pre), rest. repeat split.
      * simpl. now rewrite L.
      * rewrite !fold_case_cons, F. f_equal. symmetry.
        now apply char_matches_spec.
      * exact X.
    + intros (pre & rest & -> & L & F & X).
      destruct pre as [|x pre].
      * rewrite fold_case_cons in F. destruct ci; discriminate.
      * rewrite !fold_case_cons in F. injection F as Fc F. simpl.
        assert (E : Re.char_matches ci c x = true)
          by now apply char_matches_spec.
        rewrite E. destruct n as [|m]; [discriminate|].
        simpl in L. injection L as L.
        assert (M : Re.match_seq ci (Some x) (Re.lit tok ++ [Re.WordB])%list
                      (pre ++ rest) = Some m).
        { apply IH. exists pre, rest. now repeat split. }
        now rewrite M.
Qed.

Lemma last_of_lower (prev : option ascii) (pre : string) :
  Re.is_word_opt (last_of prev pre)
  = Re.is_word_opt (last_of prev (Js.toLowerCase pre)).
Proof.
  revert prev. induction pre as [|x pre IH]; intros prev; simpl.
  - reflexivity.
  - rewrite IH. clear IH. generalize (Js.toLowerCase pre). intros q.
    destruct q; simpl; [now rewrite is_word_lower | reflexivity].
Qed.

Lemma last_of_fold (ci : bool) (prev : option ascii) (pre : string) :
  Re.is_word_opt (last_of prev pre)
  = Re.is_word_opt (last_of prev (fold_case ci pre)).
Proof. destruct ci; [apply last_of_lower | reflexivity]. Qed.

Lemma command_token_shape (tok : string) :
  In tok COMMAND_TOKENS ->
  Js.toLowerCase tok = tok /\
  forall prev, Re.is_word_opt (last_of prev tok) = true.
Proof.
  intros [<- | [<- | [<- | []]]]; split; reflexivity.
Qed.

Lemma fold_case_token (ci : bool) (tok : string) :
  In tok COMMAND_TOKENS -> fold_case ci tok = tok.
Proof.
  intros H. destruct ci; [apply (command_token_shape _ H) | reflexivity].
Qed.

(** One alternative [^tok\b] at index 0. *)
Lemma match_token (ci : bool) (tok s : string) (n : nat) :
  In tok COMMAND_TOKENS ->
  Re.match_seq ci None (Re.Bol :: Re.lit tok ++ [Re.WordB])%list s = Some n <->
  exists rest, leading_token ci tok s rest /\ length s = n + length rest.
Proof.
  intros Htok. cbn [Re.match_seq]. rewrite match_seq_lit.
  rewrite (fold_case_token ci tok Htok).
  destruct (command_token_shape tok Htok) as [_ Hw]. split.
  - intros (pre & rest & -> & L & F & X).
    rewrite (last_of_fold ci), F, Hw in X.
    exists rest. split.
    + exists pre. repeat split; [exact F|]. unfold token_ends.
      now destruct (Re.is_word_opt (Re.next_char rest)).
    + rewrite <- L. clear. induction pre; simpl; [reflexivity | now rewrite IHpre].
  - intros (rest & (pre & -> & F & E) & L).
    exists pre, rest. repeat split.
    + assert (length (pre ++ rest) = length pre + length rest)
        by (clear; induction pre; simpl; [reflexivity | now rewrite IHpre]).
      lia.
    + exact F.
    + rewrite (last_of_fold ci), F, Hw. unfold token_ends in E.
      now destruct (Re.is_word_opt (Re.next_char rest)).
Qed.

Lemma string_length_app (a b : string) : length (a ++ b) = length a + length b.
Proof. induction a as [|x a IH]; simpl; [reflexivity | now rewrite IH]. Qed.

Lemma fold_case_length (ci : bool) (s : string) : length (fold_case ci s) = length s.
Proof. destruct ci; [apply toLowerCase_length | reflexivity]. Qed.

Lemma fold_case_app (ci : bool) (a b : string) :
  fold_case ci (a ++ b) = fold_case ci a ++ fold_case ci b.
Proof. destruct ci; [apply toLowerCase_app | reflexivity]. Qed.

Lemma drop_app (pre rest : string) : drop (length pre) (pre ++ rest) = rest.
Proof. induction pre as [|x pre IH]; simpl; [now destruct rest | exact IH]. Qed.

Lemma command_tokens_apart (t1 t2 x y : string) :
  In t1 COMMAND_TOKENS -> In t2 COMMAND_TOKENS -> t1 ++ x = t2 ++ y -> t1 = t2.
Proof.
  intros [<- | [<- | [<- | []]]] [<- | [<- | [<- | []]]] H;
    try reflexivity; simpl in H; discriminate.
Qed.

(** At most one command token leads a text, and what follows it is fixed. *)
Lemma leading_token_unique (ci : bool) (t1 t2 s r1 r2 : string) :
  In t1 COMMAND_TOKENS -> In t2 COMMAND_TOKENS ->
  leading_token ci t1 s r1 -> leading_token ci t2 s r2 -> t1 = t2 /\ r1 = r2.
Proof.
  intros H1 H2 (p1 & E1 & F1 & _) (p2 & E2 & F2 & _).
  assert (T : t1 = t2).
  { apply (command_tokens_apart t1 t2 (fold_case ci r1) (fold_case ci r2) H1 H2).
    rewrite <- F1, <- F2, <- !fold_case_app. now rewrite <- E1, <- E2. }
  assert (L : length p1 = length p2).
  { rewrite <- (fold_case_length ci p1), <- (fold_case_length ci p2).
    now rewrite F1, F2, T. }
  split; [exact T|]. rewrite E1 in E2.
  now destruct (append_inv_length _ _ _ _ E2 L).
Qed.

Lemma match_alt_tokens (ci : bool) (toks : list string) (s : string) :
  (forall t, In t toks -> In t COMMAND_TOKENS) ->
  match Re.match_alt ci (map token_alternative toks) None s with
  | Some n =>
      exists tok rest,
        In tok toks /\ leading_token ci tok s rest /\ length s = n + length rest
  | None => forall tok rest, In tok toks -> ~ leading_token ci tok s rest
  end.
Proof.
  induction toks as [|t toks IH]; intros Hin; cbn [map Re.match_alt].
  - intros tok rest [].
  - destruct (Re.match_seq ci None (token_alternative t) s) as [n|] eqn:M.
    + apply match_token in M; [|apply Hin; now left].
      destruct M as (rest & L & N). exists t, rest. repeat split; auto.
      now left.
    + specialize (IH (fun x Hx => Hin x (or_intror Hx))).
      destruct (Re.match_alt ci (map token_alternative toks) None s) as [n|].
      * destruct IH as (tok & rest & I & L & N). exists tok, rest.
        repeat split; auto. now right.
      * intros tok rest [<- | I] L; [|exact (IH tok rest I L)].
        assert (X : Re.match_seq ci None (token_alternative t) s
                    = Some (length s - length rest)).
        { apply match_token; [apply Hin; now left|]. exists rest. split; [exact L|].
          destruct L as (pre & -> & _). rewrite string_length_app. lia. }
        congruence.
Qed.

Lemma match_here_command (ci : bool) (s : string) :
  match Re.match_alt ci command_alternatives None s with
  | Some n =>
      exists tok rest,
        In tok COMMAND_TOKENS /\ leading_token ci tok s rest /\
        length s = n + length rest
  | None => ~ begins_with_command ci s
  end.
Proof.
  pose proof (match_alt_tokens ci COMMAND_TOKENS s (fun t H => H)) as H.
  change (map token_alternative COMMAND_TOKENS) with command_alternatives in H.
  destruct (Re.match_alt ci command_alternatives None s).
  - exact H.
  - intros (tok & rest & I & L). exact (H tok rest I L).
Qed.

(** Every alternative starts with [^]: nothing matches past index 0. *)
Lemma no_command_inside (ci : bool) (c : ascii) (s : string) :
  Re.match_alt ci command_alternatives (Some c) s = None.
Proof. reflexivity. Qed.

Lemma search_inside (ci : bool) (s : string) (c : ascii) :
  Re.search (Re.mkRegExp command_alternatives ci) (Some c) s = false.
Proof.
  revert c. induction s as [|x s IH]; intros c; cbn [Re.search];
    unfold Re.match_here; cbn [Re.alternatives Re.ignoreCase];
    rewrite no_command_inside; [reflexivity | apply IH].
Qed.

Lemma test_command (s : string) :
  Re.test COMMAND_RE s = true <-> begins_with_command false s.
Proof.
  unfold Re.test. pose proof (match_here_command false s) as H.
  destruct s as [|x s]; cbn [Re.search]; unfold Re.match_here, COMMAND_RE;
    cbn [Re.alternatives Re.ignoreCase];
    destruct (Re.match_alt false command_alternatives None _) as [n|].
  - split; [intros _|reflexivity].
    destruct H as (tok & rest & I & L & _). now exists tok, rest.
  - split; [discriminate | intros B; now destruct (H B)].
  - split; [intros _|reflexivity].
    destruct H as (tok & rest & I & L & _). now exists tok, rest.
  - fold COMMAND_RE. unfold COMMAND_RE. rewrite search_inside.
    split; [discriminate | intros B; now destruct (H B)].
Qed.

Lemma replace_inside (ci : bool) (repl s : string) :
  forall c n,
    Re.replace_from (Re.mkRegExp command_alternatives ci) repl (Some c) n s
    = drop n s.
Proof.
  induction s as [|x s IH]; intros c n.
  - destruct n; reflexivity.
  - destruct n as [|k]; cbn [Re.replace_from].
    + unfold Re.match_here. cbn [Re.alternatives Re.ignoreCase].
      rewrite no_command_inside, IH. reflexivity.
    + rewrite IH. reflexivity.
Qed.

Lemma replace_command (s : string) :
  Re.replace_g COMMAND_RE_ig s ""
  = match Re.match_alt true command_alternatives None s with
    | Some n => drop n s
    | None => s
    end.
Proof.
  unfold Re.replace_g, COMMAND_RE_ig. destruct s as [|x s].
  - reflexivity.
  - cbn [Re.replace_from]. unfold Re.match_here.
    cbn [Re.alternatives Re.ignoreCase].
    destruct (Re.match_alt true command_alternatives None (String x s))
      as [[|n]|]; rewrite replace_inside; reflexivity.
Qed.

(** What the replacement leaves: the text after the leading token, or the
    whole text. *)
Lemma replace_command_leading (s tok rest : string) :
  In tok COMMAND_TOKENS -> leading_token true tok s rest ->
  Re.replace_g COMMAND_RE_ig s "" = rest.
Proof.
  intros I L. rewrite replace_command.
  pose proof (match_here_command true s) as H.
  destruct (Re.match_alt true command_alternatives None s) as [n|].
  - destruct H as (tok' & rest' & I' & L' & N).
    destruct (leading_token_unique true _ _ _ _ _ I' I L' L) as [_ ->].
    destruct L as (pre & -> & _). rewrite string_length_app in N.
    replace n with (length pre) by lia. apply drop_app.
  - destruct H. now exists tok, rest.
Qed.

Lemma replace_command_none (s : string) :
  ~ begins_with_command true s -> Re.replace_g COMMAND_RE_ig s "" = s.
Proof.
  intros B. rewrite replace_command.
  pose proof (match_here_command true s) as H.
  destruct (Re.match_alt true command_alternatives None s) as [n|];
    [|reflexivity].
  destruct H as (tok & rest & I & L & _). destruct B. now exists tok, rest.
Qed.

(** ** Intent classifier *)

Lemma detectImageIntent_true (text : string) :
  detectImageIntent text = true <-> image_trigger (Js.toLowerCase text).
Proof.
  unfold detectImageIntent, image_trigger.
  rewrite orb_true_iff, existsb_exists, test_command.
  split; intros [(k & I & H) | H]; auto; left; exists k; split; auto;
    now apply includes_spec.
Qed.

(** C5. [classify] is a function of its input text alone: it answers image
    exactly when the lower-cased text contains a keyword of the fixed set or
    begins with one of the command tokens [/image], [/img], [/photo] (a
    token ends where the text ends or a character that is not a letter, a
    digit or an underscore follows), and text otherwise; "draw a cat" and
    "/img sunset" are image requests, "hello there" is text. *)
Theorem classify_spec :
  (forall text,
     (classify text = ImageRequest <-> image_trigger (Js.toLowerCase text)) /\
     (classify text = TextChat <-> ~ image_trigger (Js.toLowerCase text))) /\
  classify "draw a cat" = ImageRequest /\
  classify "hello there" = TextChat /\
  classify "/img sunset" = ImageRequest.
Proof.
  split; [|repeat split].
  intros text. unfold classify.
  pose proof (detectImageIntent_true text) as H.
  destruct (detectImageIntent text); split; split; try discriminate;
    try reflexivity.
  - intros _. now apply H.
  - intros N. destruct N. now apply H.
  - intros T. apply H in T. discriminate.
  - intros _ T. apply H in T. discriminate.
Qed.

Lemma classify_spec_witness :
  image_trigger (Js.toLowerCase "Please DRAW a cat") /\
  classify "Please DRAW a cat" = ImageRequest.
Proof.
  assert (T : image_trigger (Js.toLowerCase "Please DRAW a cat")).
  { left. exists "draw". split; [simpl; tauto|]. now exists "please ", " a cat". }
  split; [exact T|].
  exact (proj2 (proj1 (proj1 classify_spec "Please DRAW a cat")) T).
Defined.

(** ** Prompt of the image request *)

Lemma or_else_spec (a b : string) :
  (a = "" -> Js.or_else a b = b) /\ (a <> "" -> Js.or_else a b = a).
Proof. unfold Js.or_else. destruct a; simpl; split; congruence. Qed.

Lemma tick_entry_handles (h : nat) (r : Q) (iv : list (nat * Q)) :
  map fst (fst (tick_entry h r iv)) = map fst iv.
Proof.
  induction iv as [|[h' p] iv IH]; simpl; [reflexivity|].
  destruct (Nat.eqb h' h); simpl; [reflexivity|].
  destruct (tick_entry h r iv); simpl in *. now rewrite IH.
Qed.

(** The ticker writes the progress value and its own counter, nothing else. *)
Lemma tick_shape (h : nat) (r : Q) (s : AppState) :
  exists p iv,
    map fst iv = handles s /\
    tick h r s = setProgress p (setTimers iv (timeouts s) (nextHandle s) s).
Proof.
  unfold tick. pose proof (tick_entry_handles h r (intervals s)) as H.
  destruct (tick_entry h r (intervals s)) as [iv [v|]]; simpl in H.
  - now exists v, iv.
  - exists (progress s), (intervals s). split; [reflexivity | now destruct s].
Qed.

Lemma run_ticks_shape (h : nat) (rs : list Q) (s : AppState) :
  exists p iv,
    map fst iv = handles s /\
    run_ticks h rs s = setProgress p (setTimers iv (timeouts s) (nextHandle s) s).
Proof.
  unfold run_ticks. revert s. induction rs as [|r rs IH]; intros s; simpl.
  - exists (progress s), (intervals s). split; [reflexivity | now destruct s].
  - destruct (tick_shape h r s) as (p & iv & Hh & ->).
    destruct (IH (setProgress p (setTimers iv (timeouts s) (nextHandle s) s)))
      as (p' & iv' & Hh' & ->).
    exists p', iv'. split; [now rewrite Hh', <- Hh | reflexivity].
Qed.

Lemma generateImageFlow_requests (env : ImageEnv) (prompt : string) (s : AppState) :
  requests (generateImageFlow env prompt s)
  = (requests s ++ [GenerateContent (bodyPrompt prompt)])%list.
Proof.
  unfold generateImageFlow, fakeProgress.
  match goal with |- context [run_ticks ?h ?rs ?st] =>
    destruct (run_ticks_shape h rs st) as (p & iv & _ & ->) end.
  destruct (img_response env) as [[d|]|err]; reflexivity.
Qed.

(** C6. The image flow sends the prompt without its leading command token
    and trimmed; when nothing is left, it sends the prompt as given. The
    prompt of "/img sunset" is "sunset" and that of "/image" is "/image". *)
Theorem bodyPrompt_spec :
  (forall prompt env s,
     requests (generateImageFlow env prompt s)
     = (requests s ++ [GenerateContent (bodyPrompt prompt)])%list) /\
  (forall prompt tok rest,
     In tok COMMAND_TOKENS -> leading_token true tok prompt rest ->
     (Js.trim rest <> "" -> bodyPrompt prompt = Js.trim rest) /\
     (Js.trim rest = "" -> bodyPrompt prompt = prompt)) /\
  (forall prompt,
     ~ begins_with_command true prompt ->
     (Js.trim prompt <> "" -> bodyPrompt prompt = Js.trim prompt) /\
     (Js.trim prompt = "" -> bodyPrompt prompt = prompt)) /\
  bodyPrompt "/img sunset" = "sunset" /\
  bodyPrompt "/image" = "/image".
Proof.
  split; [|split; [|split; [|split; reflexivity]]].
  - intros. apply generateImageFlow_requests.
  - intros prompt tok rest I L. unfold bodyPrompt, cleaned.
    rewrite (replace_command_leading prompt tok rest I L).
    destruct (or_else_spec (Js.trim rest) prompt). now split.
  - intros prompt B. unfold bodyPrompt, cleaned.
    rewrite (replace_command_none prompt B).
    destruct (or_else_spec (Js.trim prompt) prompt). now split.
Qed.

Lemma bodyPrompt_spec_witness :
  In "/photo" COMMAND_TOKENS /\
  leading_token true "/photo" "/Photo  of a red fox " "  of a red fox " /\
  bodyPrompt "/Photo  of a red fox " = "of a red fox".
Proof.
  assert (I : In "/photo" COMMAND_TOKENS) by (simpl; tauto).
  assert (L : leading_token true "/photo" "/Photo  of a red fox " "  of a red fox ")
    by (exists "/Photo"; repeat split).
  split; [exact I|]. split; [exact L|].
  apply (proj1 (proj1 (proj2 bodyPrompt_spec) _ _ _ I L)). discriminate.
Defined.

(** ** Message log *)

Lemma updateById_absent (target : string) (f : Message -> Message)
    (log : list Message) :
  ~ In target (ids log) -> updateById target f log = log.
Proof.
  induction log as [|m log IH]; simpl; intros H; [reflexivity|].
  destruct (String.eqb_spec (id m) target) as [E|E].
  - destruct H. now left.
  - rewrite IH; [reflexivity | intros I; apply H; now right].
Qed.

Lemma updateById_app (target : string) (f : Message -> Message)
    (a b : list Message) :
  updateById target f (a ++ b) = (updateById target f a ++ updateById target f b)%list.
Proof. apply map_app. Qed.

Lemma updateById_length (target : string) (f : Message -> Message)
    (log : list Message) :
  List.length (updateById target f log) = List.length log.
Proof. apply length_map. Qed.

Lemma updateById_nth (target : string) (f : Message -> Message)
    (log : list Message) (i : nat) (m : Message) :
  nth_error log i = Some m ->
  nth_error (updateById target f log) i
  = Some (if String.eqb (id m) target then f m else m).
Proof.
  intros H. unfold updateById. rewrite nth_error_map, H. reflexivity.
Qed.

Lemma updateById_twice (target t1 t2 : string) (log : list Message) :
  updateById target (set_text t2) (updateById target (set_text t1) log)
  = updateById target (set_text t2) log.
Proof.
  unfold updateById. rewrite map_map. apply map_ext. intros m.
  destruct (String.eqb (id m) target) eqn:E; simpl; now rewrite E.
Qed.

(** C7. [updateById] with an id that no message carries returns the log as
    it was. With an id that is present it keeps the length and the order of
    the log, returns every message of another id as it was, and changes in
    a targeted message only the text: id, sender, image and timestamp stay.
    Applying it again is harmless: the same update twice is the update once,
    and of two updates in a row the later text stands. *)
Theorem updateById_frame :
  (forall target f log,
     ~ In target (ids log) -> updateById target f log = log) /\
  (forall target f log,
     List.length (updateById target f log) = List.length log /\
     forall i m,
       nth_error log i = Some m -> id m <> target ->
       nth_error (updateById target f log) i = Some m) /\
  (forall target t log i m,
     nth_error log i = Some m -> id m = target ->
     exists m',
       nth_error (updateById target (set_text t) log) i = Some m' /\
       text m' = t /\ id m' = id m /\ from m' = from m /\
       image m' = image m /\ ts m' = ts m) /\
  (forall target t log,
     updateById target (set_text t) (updateById target (set_text t) log)
     = updateById target (set_text t) log) /\
  (forall target t1 t2 log,
     updateById target (set_text t2) (updateById target (set_text t1) log)
     = updateById target (set_text t2) log).
Proof.
  split; [exact updateById_absent|].
  split; [|split; [|split]].
  - intros target f log. split; [apply updateById_length|].
    intros i m H N. rewrite (updateById_nth _ _ _ _ _ H).
    now destruct (String.eqb_spec (id m) target).
  - intros target t log i m H E. exists (set_text t m).
    rewrite (updateById_nth _ _ _ _ _ H).
    apply String.eqb_eq in E. rewrite E. now repeat split.
  - intros. apply updateById_twice.
  - intros. apply updateById_twice.
Qed.

Lemma updateById_frame_witness :
  let log := [welcome "w0"; mkMessage "u1" User "hi" None (Some 5%Z);
              mkMessage "a1" Assistant "" None None] in
  ~ In "zz" (ids log) /\
  updateById "zz" (set_text "lost") log = log /\
  updateById "a1" (set_text "Hel") log
  = [welcome "w0"; mkMessage "u1" User "hi" None (Some 5%Z);
     mkMessage "a1" Assistant "Hel" None None].
Proof.
  intros log.
  assert (N : ~ In "zz" (ids log))
    by (simpl; intros [H|[H|[H|[]]]]; discriminate).
  split; [exact N|]. split; [|reflexivity].
  exact (proj1 updateById_frame "zz" (set_text "lost") log N).
Defined.

(** ** Streaming text flow *)

Lemma update_last (target : string) (sd : Sender) (x t : string)
    (im : option string) (st : option Z) (base : list Message) :
  ~ In target (ids base) ->
  updateById target (set_text t) (base ++ [mkMessage target sd x im st])
  = (base ++ [mkMessage target sd t im st])%list.
Proof.
  intros H. rewrite updateById_app, (updateById_absent _ _ _ H). simpl.
  now rewrite String.eqb_refl.
Qed.

Lemma last_cons {A : Type} (l : list A) :
  forall a d : A, last (a :: l) d = last l a.
Proof.
  induction l as [|b l IH]; intros a d; [reflexivity|].
  change (last (a :: b :: l) d) with (last (b :: l) d).
  now rewrite (IH b d), (IH b a).
Qed.

Lemma setMessages_ext (f g : list Message -> list Message) (s : AppState) :
  f (messages s) = g (messages s) -> setMessages f s = setMessages g s.
Proof. unfold setMessages. now intros ->. Qed.

(** However many updaters of the reply are queued, they show the text
    [fullReply] holds when they run. *)
Lemma run_queue_show (target cur : string) (n : nat) :
  forall log,
    run_queue cur (repeat (show_reply target) (S n)) log
    = updateById target (set_text cur) log.
Proof.
  induction n as [|n IH]; intros log; [reflexivity|].
  change (run_queue cur (repeat (show_reply target) (S (S n))) log)
    with (run_queue cur (repeat (show_reply target) (S n))
            (updateById target (set_text cur) log)).
  rewrite IH. apply updateById_twice.
Qed.


Lemma render_shows (target : string) (s : AppState) (l : Loop) :
  loop_inv target s l -> queued l <> [] ->
  render l
  = mkLoop (setMessages (updateById target (set_text (fullReply l))) s)
      (fullReply l) [].
Proof.
  intros [[n Q] R] N. destruct n as [|n]; [now destruct N|].
  unfold render. rewrite Q. cbn [repeat]. f_equal.
  change (show_reply target :: repeat (show_reply target) n)
    with (repeat (show_reply target) (S n)).
  destruct R as [-> | [t ->]].
  - apply setMessages_ext, run_queue_show.
  - unfold setMessages at 1. cbn [messages input isThinking isGenerating
      lastError progress chatRef storage intervals timeouts nextHandle
      requests setMessages].
    unfold setMessages. now rewrite run_queue_show, updateById_twice.
Qed.

(** One turn of the loop, with or without a render after it. *)
Lemma loop_step (target : string) (s : AppState) (c : string) (b : bool)
    (l : Loop) :
  loop_inv target s l ->
  let l' := if b then render (on_chunk target c l) else on_chunk target c l in
  loop_inv target s l' /\
  fullReply l' = fullReply l ++ c /\
  rendered (render l')
  = setMessages (updateById target (set_text (fullReply l ++ c))) s /\
  (b = true -> queued l' = []) /\
  (b = false -> rendered l' = rendered l).
Proof.
  intros [[n Q] R].
  assert (I : loop_inv target s (on_chunk target c l)).
  { split; [|exact R]. exists (S n). cbn [on_chunk queued].
    rewrite Q. symmetry. apply repeat_cons. }
  assert (N : queued (on_chunk target c l) <> []).
  { cbn [on_chunk queued]. now destruct (queued l). }
  pose proof (render_shows target s _ I N) as E.
  cbn [on_chunk fullReply] in E.
  destruct b; cbv zeta.
  - rewrite E. split; [|split; [|split; [|split]]]; try reflexivity.
    + split; [now exists 0 | right; now eexists].
    + discriminate.
  - split; [exact I|]. split; [reflexivity|]. split; [|split].
    + now rewrite E.
    + discriminate.
    + reflexivity.
Qed.



Lemma for_await_trace_last (target : string) (s : AppState) :
  forall chunks renders l,
    loop_inv target s l -> chunks <> [] ->
    rendered (render (last (for_await_trace target chunks renders l) l))
    = setMessages
        (updateById target (set_text (fullReply l ++ joined chunks))) s.
Proof.
  induction chunks as [|c chunks IH]; intros renders l I N; [now destruct N|].
  cbn [for_await_trace].
  destruct (loop_step target s c (hd false renders) l I)
    as (I1 & F1 & R1 & _).
  set (l1 := if hd false renders then render (on_chunk target c l)
             else on_chunk target c l) in *.
  rewrite last_cons. destruct chunks as [|c2 chunks].
  - cbn [for_await_trace last joined fold_right]. rewrite R1.
    now rewrite append_empty_r.
  - rewrite (IH (tl renders) l1 I1) by discriminate. rewrite F1.
    change (joined (c :: c2 :: chunks)) with (c ++ joined (c2 :: chunks)).
    now rewrite append_assoc.
Qed.

Lemma loop_inv_start (target fullReply : string) (s : AppState) :
  loop_inv target s (mkLoop s fullReply []).
Proof. split; [now exists 0 | now left]. Qed.


Lemma for_await_eq (target acc : string) (chunks : list string)
    (s : AppState) :
  for_await target acc chunks s
  = match chunks with
    | [] => s
    | _ => setMessages (updateById target (set_text (acc ++ joined chunks))) s
    end.
Proof.
  unfold for_await. destruct chunks as [|c chunks]; [reflexivity|].
  now rewrite (for_await_trace_last target s)
    by (try apply loop_inv_start; discriminate).
Qed.

Lemma for_await_cons (target acc c : string) (chunks : list string)
    (s : AppState) :
  for_await target acc (c :: chunks) s
  = for_await target (acc ++ c) chunks
      (setMessages (updateById target (set_text (acc ++ c))) s).
Proof.
  rewrite !for_await_eq. destruct chunks as [|c2 chunks].
  - cbn [joined fold_right]. now rewrite append_empty_r.
  - change (joined (c :: c2 :: chunks)) with (c ++ joined (c2 :: chunks)).
    unfold setMessages. cbn [messages input isThinking isGenerating lastError
      progress chatRef storage intervals timeouts nextHandle requests].
    now rewrite updateById_twice, append_assoc.
Qed.

(** The loop writes the log only. *)
Lemma for_await_shape (target : string) (chunks : list string) :
  forall acc s,
    for_await target acc chunks s
    = setMessages (fun _ => messages (for_await target acc chunks s)) s.
Proof.
  induction chunks as [|c chunks IH]; intros acc s.
  - unfold for_await. simpl. now destruct s.
  - rewrite for_await_cons, IH. simpl. reflexivity.
Qed.

Lemma for_await_messages (target : string) (base : list Message)
    (sd : Sender) (im : option string) (tm : option Z) :
  ~ In target (ids base) ->
  forall chunks acc s x,
    messages s = (base ++ [mkMessage target sd x im tm])%list ->
    chunks <> [] \/ x = acc ->
    messages (for_await target acc chunks s)
    = (base ++ [mkMessage target sd (acc ++ joined chunks) im tm])%list.
Proof.
  intros F. induction chunks as [|c chunks IH]; intros acc s x M H.
  - destruct H as [H | ->]; [now destruct H|].
    unfold for_await. simpl. now rewrite append_empty_r.
  - rewrite for_await_cons.
    erewrite IH.
    + simpl. now rewrite append_assoc.
    + simpl. rewrite M. now apply update_last.
    + now right.
Qed.

Lemma ids_app (a b : list Message) : ids (a ++ b) = (ids a ++ ids b)%list.
Proof. apply map_app. Qed.


Lemma truthy_nonempty (t : string) : t <> "" -> Js.truthy t = true.
Proof. destruct t; [congruence | reflexivity]. Qed.

(** *** A text send

    [handleSend] is followed on an input that is not blank and not an image
    request, with a chat session in place. Nothing is assumed of the ids it
    generates; what holds only when they are new to the log says so. *)

Lemma log_showing_last (env : SendEnv) (txt t : string) (s : AppState) :
  log_showing env txt t s
  = (updateById (assistantMsgId env) (set_text t)
       (messages s ++ [userMsg_of env txt])
     ++ [assistantMsg_of env t])%list.
Proof.
  unfold log_showing, loop_entry, append.
  cbn [messages setMessages issue setIsThinking setInput setLastError].
  rewrite updateById_app. cbn [updateById map assistantMsg_of id].
  now rewrite String.eqb_refl.
Qed.


Section TextSend.

Variables (env : SendEnv) (s : AppState) (txt : string).
Hypothesis TS : text_send s txt.

Let target : string := assistantMsgId env.
Let frags : list string := fragments (chat_outcome env).
Let entry : AppState := loop_entry env txt s.
Let base : list Message := (messages s ++ [userMsg_of env txt])%list.

Lemma fresh_base (FR : fresh_ids env s) : ~ In target (ids base).
Proof.
  destruct FR as [F N]. unfold base. rewrite ids_app, in_app_iff. simpl.
  intros [I | [E | []]].
  - exact (F I).
  - exact (N (eq_sym E)).
Qed.

Lemma loop_entry_messages :
  messages entry = (base ++ [assistantMsg_of env ""])%list.
Proof. reflexivity. Qed.

(** [handleSend] on a text send: the loop, the handler of a failure, the
    [finally] block. *)
Lemma handleSend_text :
  handleSend env s
  = setIsThinking false
      (match failure (chat_outcome env) with
       | Some err => send_catch target err (for_await target "" frags entry)
       | None => for_await target "" frags entry
       end).
Proof.
  destruct TS as (T & N & C & D). unfold handleSend.
  rewrite T, (truthy_nonempty _ N), D.
  destruct (chatRef s); [reflexivity | congruence].
Qed.

Lemma loop_exit_messages (FR : fresh_ids env s) :
  messages (for_await target "" frags entry)
  = (base ++ [assistantMsg_of env (joined frags)])%list.
Proof.
  exact (for_await_messages target base Assistant None None (fresh_base FR)
           frags "" entry "" loop_entry_messages (or_intror eq_refl)).
Qed.

(** With ids that are new, showing [t] touches the assistant message
    only. *)
Lemma log_showing_fresh (FR : fresh_ids env s) (t : string) :
  log_showing env txt t s = (base ++ [assistantMsg_of env t])%list.
Proof.
  rewrite log_showing_last. fold base target.
  now rewrite (updateById_absent _ _ _ (fresh_base FR)).
Qed.

(** The log after a failure, whatever was received before. *)
Lemma failure_messages (err : Thrown) :
  failure (chat_outcome env) = Some err ->
  messages (handleSend env s)
  = log_showing env txt (COULD_NOT_REACH ++ error_detail err) s.
Proof.
  intros FL. rewrite handleSend_text, FL. unfold send_catch, log_showing.
  cbn [messages setIsThinking setLastError setMessages].
  rewrite for_await_eq. fold entry target. destruct frags as [|c fr].
  - reflexivity.
  - cbn [messages setMessages]. apply updateById_twice.
Qed.


(** C3. When a text send fails, after the fragments received so far, the
    assistant message of the send, which is the last of the log, holds the
    error txt (the fixed prefix followed by the error's description) in
    place of the partial reply, and the last-error slot holds that
    description. Every message of another id is as it was. If the id
    generated for the assistant message is carried by no earlier message and
    is not the id of the user's message, every message the log had before,
    as well as the user's message, is as it was. *)
Theorem streaming_failure (err : Thrown) :
  failure (chat_outcome env) = Some err ->
  let errorText := COULD_NOT_REACH ++ error_detail err in
  messages (handleSend env s) = log_showing env txt errorText s /\
  (exists older,
     messages (handleSend env s)
     = (older ++ [assistantMsg_of env errorText])%list /\
     List.length older = List.length base) /\
  errorText <> "" /\
  lastError (handleSend env s) = Some (error_detail err) /\
  (forall i m,
     nth_error base i = Some m -> id m <> target ->
     nth_error (messages (handleSend env s)) i = Some m) /\
  (fresh_ids env s ->
   messages (handleSend env s)
   = (messages s ++ [userMsg_of env txt;
                     assistantMsg_of env errorText])%list /\
   forall i m,
     nth_error (messages s) i = Some m ->
     nth_error (messages (handleSend env s)) i = Some m) /\
  isThinking (handleSend env s) = false.
Proof.
  intros FL errorText. pose proof (failure_messages err FL) as M.
  fold errorText in M.
  split; [exact M|]. split; [|split; [|split; [|split; [|split]]]].
  - rewrite M. eexists. split; [apply log_showing_last|].
    now rewrite updateById_length.
  - discriminate.
  - rewrite handleSend_text, FL. reflexivity.
  - intros i m H N. rewrite M, log_showing_last. fold base target.
    rewrite nth_error_app1
      by (rewrite updateById_length; apply nth_error_Some; congruence).
    rewrite (updateById_nth _ _ _ _ _ H).
    now destruct (String.eqb_spec (id m) target).
  - intros FR.
    assert (E : messages (handleSend env s)
                = (messages s ++ [userMsg_of env txt;
                                  assistantMsg_of env errorText])%list).
    { rewrite M, (log_showing_fresh FR). unfold base.
      now rewrite <- app_assoc. }
    split; [exact E|]. intros i m H. rewrite E.
    rewrite nth_error_app1; [exact H|]. apply nth_error_Some. congruence.
  - rewrite handleSend_text. reflexivity.
Qed.

End TextSend.

(** C10. Submitting an input that trims to the empty string changes
    nothing: the state after [handleSend] is the state before, so no message
    is appended, no request is issued, and the log, the last-error slot and
    the in-flight flags are as they were. *)
Theorem handleSend_blank (env : SendEnv) (s : AppState) :
  Js.trim (input s) = "" ->
  handleSend env s = s /\
  messages (handleSend env s) = messages s /\
  requests (handleSend env s) = requests s /\
  lastError (handleSend env s) = lastError s /\
  isThinking (handleSend env s) = isThinking s /\
  isGenerating (handleSend env s) = isGenerating s.
Proof.
  intros T. assert (E : handleSend env s = s).
  { unfold handleSend. rewrite T. reflexivity. }
  rewrite E. now repeat split.
Qed.



Lemma streaming_failure_witness :
  let env := sample_env (mkChatOutcome ["Hel"] (Some (new_Error "network down"))) in
  let s := sample_state "hello there" in
  text_send s "hello there" /\ fresh_ids env s /\
  messages (handleSend env s)
  = [welcome "w0"; mkMessage "u1" User "hello there" None (Some 1000%Z);
     mkMessage "a1" Assistant "FRIDAY couldn't reach the AI. network down" None None] /\
  lastError (handleSend env s) = Some "network down".
Proof.
  intros env s.
  assert (TS : text_send s "hello there")
    by (repeat split; discriminate).
  assert (FR : fresh_ids env s)
    by (split; [intros [H|[]]; discriminate | discriminate]).
  destruct (streaming_failure env s "hello there" TS
              (new_Error "network down") eq_refl) as (_ & _ & _ & E & _ & F & _).
  split; [exact TS|]. split; [exact FR|]. split; [exact (proj1 (F FR)) | exact E].
Defined.

(** C3 as it is stated fails in the same case: a message of the log that
    carries the id generated for the assistant message is overwritten with
    the error text too. *)
Lemma failure_id_collision :
  let earlier := mkMessage "a1" User "an earlier question" None (Some 5%Z) in
  let s :=
    mkApp [welcome "w0"; earlier] "hello there" false false None 0 (Some [])
      None [] [] 0 [] in
  let env := sample_env (mkChatOutcome ["Hel"] (Some (new_Error "network down"))) in
  text_send s "hello there" /\
  nth_error (messages s) 1 = Some earlier /\
  nth_error (messages (handleSend env s)) 1
  = Some (mkMessage "a1" User "FRIDAY couldn't reach the AI. network down"
            None (Some 5%Z)).
Proof.
  split; [repeat split; discriminate|]. split; reflexivity.
Qed.

Lemma handleSend_blank_witness :
  let s := sample_state "  " in
  Js.trim (input s) = "" /\
  handleSend (sample_env (mkChatOutcome ["x"] None)) s = s.
Proof.
  intros s. split; [reflexivity|].
  exact (proj1 (handleSend_blank (sample_env (mkChatOutcome ["x"] None)) s eq_refl)).
Defined.

(** ** Image generation flow *)

Lemma map_fst_filter (P : nat -> bool) (iv : list (nat * Q)) :
  map fst (filter (fun e => P (fst e)) iv) = filter P (map fst iv).
Proof.
  induction iv as [|e iv IH]; simpl; [reflexivity|].
  destruct (P (fst e)); simpl; now rewrite IH.
Qed.

Lemma filter_twice {A : Type} (P : A -> bool) (l : list A) :
  filter P (filter P l) = filter P l.
Proof.
  induction l as [|a l IH]; simpl; [reflexivity|].
  destruct (P a) eqn:E; simpl; [rewrite E|]; now rewrite IH.
Qed.

Lemma filter_absent (h : nat) (l : list nat) :
  ~ In h (filter (fun x => negb (Nat.eqb x h)) l).
Proof.
  intros I. apply filter_In in I. destruct I as [_ I].
  now rewrite Nat.eqb_refl in I.
Qed.

(** The state the image flow ends in, by the answer of the capability. *)
Lemma generateImageFlow_end (env : ImageEnv) (prompt : string) (s : AppState) :
  let h := nextHandle s in
  let arrived := on_answer env prompt s in
  let live := filter (fun e => negb (Nat.eqb (fst e) h)) (intervals arrived) in
  let finish (msgs : list Message) (e : option string) (pr : Z) :=
    mkApp msgs (input s) (isThinking s) false e pr (chatRef s) (storage s)
      live (S h :: timeouts s) (S (S h))
      (requests s ++ [GenerateContent (bodyPrompt prompt)])%list in
  handles arrived = (h :: handles s)%list /\
  generateImageFlow env prompt s
  = match img_response env with
    | Resolved (Some d) =>
        finish (messages s ++ [imageMsg_of env prompt d])%list None 100%Z
    | Resolved None =>
        finish (messages s ++ [failureMsg_of env])%list (Some NO_IMAGE_DATA) 80%Z
    | Rejected err =>
        finish (messages s ++ [failureMsg_of env])%list
          (Some (error_detail err)) (progress arrived)
    end.
Proof.
  unfold generateImageFlow, on_answer, in_flight, fakeProgress, image_catch,
    clearInterval, setTimeout.
  cbn -[run_ticks bodyPrompt filter imageMsg_of].
  match goal with |- context [run_ticks ?h ?rs ?st] =>
    destruct (run_ticks_shape h rs st) as (p & iv & Hh & E) end.
  rewrite E. clear E. split; [exact Hh|].
  destruct (img_response env) as [[d|]|err];
    cbn -[bodyPrompt filter]; rewrite ?filter_twice; reflexivity.
Qed.

Ltac flow_end env prompt s E :=
  destruct (generateImageFlow_end env prompt s) as [_ E];
  cbv zeta in E; cbn [img_response with_response] in E.

Lemma on_answer_response (r : ImageResponse) (env : ImageEnv)
    (prompt : string) (s : AppState) :
  on_answer (with_response r env) prompt s = on_answer env prompt s.
Proof. reflexivity. Qed.

(** C2. A well-formed answer without inline image data is handled as a
    failed call is: the flow appends exactly one assistant message, with the
    fixed caption "Image generation failed." and no image, and the last-error
    slot holds a non-empty description. Next to the flow of a call that fails
    with that description only the progress value differs, and no longer once
    the pending reset has set it to 0. *)
Theorem image_refusal (env : ImageEnv) (prompt : string) (s : AppState) :
  img_response env = Resolved None ->
  let s' := generateImageFlow env prompt s in
  let reset := fire_timeout (S (nextHandle s)) in
  (messages s' = (messages s ++ [failureMsg_of env])%list /\
   from (failureMsg_of env) = Assistant /\
   text (failureMsg_of env) = "Image generation failed." /\
   image (failureMsg_of env) = None) /\
  (lastError s' = Some NO_IMAGE_DATA /\ NO_IMAGE_DATA <> "") /\
  (forall err,
     let t := generateImageFlow (with_response (Rejected err) env) prompt s in
     messages t = messages s' /\ lastError t = Some (error_detail err)) /\
  (progress (reset s') = 0%Z /\
   reset s'
   = reset (generateImageFlow
              (with_response (Rejected (new_Error NO_IMAGE_DATA)) env) prompt s)).
Proof.
  intros R s' reset. unfold s', reset.
  flow_end env prompt s E. rewrite R in E. rewrite E.
  split; [now repeat split|]. split; [split; [reflexivity | discriminate]|].
  split.
  - intros err. cbv zeta.
    flow_end (with_response (Rejected err) env) prompt s E'.
    rewrite E'. now split.
  - flow_end (with_response (Rejected (new_Error NO_IMAGE_DATA)) env) prompt s E'.
    rewrite E'. unfold fire_timeout. cbn [timeouts existsb].
    rewrite Nat.eqb_refl. split; reflexivity.
Qed.

Lemma image_refusal_witness :
  let env := sample_image_env (Resolved None) in
  let s := sample_state "" in
  img_response env = Resolved None /\
  messages (generateImageFlow env "draw a cat" s)
  = [welcome "w0"; mkMessage "g1" Assistant "Image generation failed." None None] /\
  lastError (generateImageFlow env "draw a cat" s) = Some NO_IMAGE_DATA.
Proof.
  intros env s. split; [reflexivity|].
  destruct (image_refusal env "draw a cat" s eq_refl) as ((M & _) & (E & _) & _).
  split; [exact M | exact E].
Defined.

(** C8. The progress ticker the image flow starts is cancelled when the flow
    returns, whether the capability answered with an image, answered without
    one, or failed: the handle the flow obtained at its start is then not
    among the running intervals, and every interval that runs after the flow
    ran before it. *)
Theorem progress_timer_cancelled (env : ImageEnv) (prompt : string)
    (s : AppState) :
  let h := nextHandle s in
  let started := fakeProgress (setLastError None (setIsGenerating true s)) in
  let s' := generateImageFlow env prompt s in
  (fst started = h /\ In h (handles (snd started)) /\
   In h (handles (on_answer env prompt s))) /\
  handles s' = filter (fun x => negb (Nat.eqb x h)) (handles s) /\
  ~ In h (handles s') /\
  incl (handles s') (handles s).
Proof.
  intros h started s'.
  destruct (generateImageFlow_end env prompt s) as [Hh E]. cbv zeta in E.
  assert (H : handles s' = filter (fun x => negb (Nat.eqb x h)) (handles s)).
  { unfold s'. rewrite E.
    assert (X : forall iv : list (nat * Q), map fst iv = (h :: handles s)%list ->
              map fst (filter (fun e => negb (Nat.eqb (fst e) h)) iv)
              = filter (fun x => negb (Nat.eqb x h)) (handles s)).
    { intros iv Hiv.
      rewrite (map_fst_filter (fun x => negb (Nat.eqb x h)) iv), Hiv. simpl.
      now rewrite Nat.eqb_refl. }
    destruct (img_response env) as [[d|]|err]; apply X; exact Hh. }
  split; [|split; [exact H | split]].
  - split; [reflexivity|]. split; [now left|]. fold h in Hh.
    unfold h. rewrite Hh. now left.
  - rewrite H. apply filter_absent.
  - rewrite H. intros x I. apply filter_In in I. tauto.
Qed.

(** ** History store *)

Lemma Z_string_roundtrip (z : Z) : Z_of_string (string_of_Z z) = Some z.
Proof.
  unfold Z_of_string, string_of_Z. rewrite NilZero.isi.
  - simpl. now rewrite DecimalZ.of_to.
  - destruct z; simpl; try discriminate.
    intros [= H]. exact (DecimalPos.Unsigned.to_uint_nonnil _ H).
  - destruct z; simpl; try discriminate.
    intros [= H]. exact (DecimalPos.Unsigned.to_uint_nonnil _ H).
Qed.

Lemma of_units_units (s : string) : Js.of_units (Js.units s) = Some s.
Proof.
  induction s as [|c s IH]; [reflexivity|].
  unfold Js.units in *. cbn [list_ascii_of_string map Js.of_units].
  rewrite IH.
  pose proof (N_ascii_bounded c) as B. apply N.ltb_lt in B.
  now rewrite B, ascii_N_embedding.
Qed.

Lemma text_json_roundtrip (s : string) : text_of_json (json_of_text s) = Some s.
Proof. apply of_units_units. Qed.

Lemma sender_json_roundtrip (f : Sender) :
  sender_of_json (json_of_sender f) = Some f.
Proof.
  unfold sender_of_json, json_of_sender. rewrite text_json_roundtrip.
  now destruct f.
Qed.

(** A message is read back from the object it is. *)
Lemma message_json_roundtrip (m : Message) :
  message_of_json (json_of_message m) = Some m.
Proof.
  destruct m as [i f t im st]. unfold json_of_message, message_of_json.
  cbn [id from text image ts].
  destruct im as [u|], st as [z|]; cbn [app];
    repeat match goal with
    | |- context [Json.get ?k ?ms] =>
        let r := eval vm_compute in
          (match Json.get k ms with Some _ => true | None => false end) in
        match r with
        | true =>
            match ms with
            | context [(Js.units k, ?v)] =>
                change (Json.get k ms) with (Some v)
            end
        | false => change (Json.get k ms) with (@None Json.value)
        end
    end;
    cbv beta iota;
    rewrite ?text_json_roundtrip, ?sender_json_roundtrip, ?Z_string_roundtrip;
    reflexivity.
Qed.

Lemma log_json_roundtrip (log : list Message) :
  log_of_json (json_of_log log) = Some log.
Proof.
  unfold log_of_json, json_of_log.
  induction log as [|m log IH]; [reflexivity|].
  cbn [map messages_of_json]. now rewrite message_json_roundtrip, IH.
Qed.

Lemma loadHistory_parsed (stored : string) (v : Json.value) (newId : string) :
  Json.parse stored = Some v -> loadHistory (Some stored) newId = v.
Proof.
  intros H. unfold loadHistory. destruct stored as [|c r].
  - vm_compute in H. discriminate.
  - cbn [Js.truthy negb]. now rewrite H.
Qed.

Lemma loadHistory_unparseable (stored newId : string) :
  Json.parse stored = None ->
  loadHistory (Some stored) newId = json_of_log [welcome newId].
Proof.
  intros H. unfold loadHistory. destruct (negb (Js.truthy stored)); [reflexivity|].
  now rewrite H.
Qed.

(** C9. [loadHistory] returns the single welcome message when nothing is
    stored and when what is stored does not parse as JSON; a stored value
    that parses is returned as it is, whatever its shape, so the welcome
    message comes back in no other case than these (or when it is itself
    what was stored). The stored text [[]] gives the empty log; a stored
    text with an escape of a code unit above U+00FF parses, and the value
    it denotes is what is returned. *)
Theorem loadHistory_spec :
  (forall newId,
     loadHistory None newId = json_of_log [welcome newId] /\
     log_of_json (json_of_log [welcome newId]) = Some [welcome newId]) /\
  (forall stored newId,
     Json.parse stored = None ->
     loadHistory (Some stored) newId = json_of_log [welcome newId]) /\
  (forall stored v newId,
     Json.parse stored = Some v -> loadHistory (Some stored) newId = v) /\
  (forall r newId,
     loadHistory r newId = json_of_log [welcome newId] <->
     r = None \/
     exists stored,
       r = Some stored /\
       (Json.parse stored = None \/
        Json.parse stored = Some (json_of_log [welcome newId]))) /\
  (forall newId,
     Json.parse "[]" = Some (Json.Arr []) /\
     loadHistory (Some "[]") newId = Json.Arr [] /\
     log_of_json (loadHistory (Some "[]") newId) = Some []) /\
  (forall newId,
     let stored := "[" ++ quoted "caf\u0100 \uD83D\ude00" ++ "]" in
     let v := Json.Arr [Json.Str [99; 97; 102; 256; 32; 55357; 56832]%N] in
     Json.parse stored = Some v /\ loadHistory (Some stored) newId = v).
Proof.
  split; [|split; [|split; [|split; [|split]]]].
  - intros newId. split; [reflexivity | apply log_json_roundtrip].
  - exact loadHistory_unparseable.
  - exact loadHistory_parsed.
  - intros r newId. split.
    + destruct r as [stored|]; [|now left]. intros H. right. exists stored.
      split; [reflexivity|].
      destruct (Json.parse stored) as [v|] eqn:P; [right | now left].
      now rewrite (loadHistory_parsed _ _ newId P) in H; subst.
    + intros [-> | (stored & -> & [P | P])].
      * reflexivity.
      * now apply loadHistory_unparseable.
      * now apply loadHistory_parsed.
  - intros newId. repeat split.
  - intros newId stored v.
    assert (P : Json.parse stored = Some v) by (vm_compute; reflexivity).
    split; [exact P | exact (loadHistory_parsed _ _ newId P)].
Qed.

Lemma loadHistory_spec_witness :
  Json.parse "{oops" = None /\
  loadHistory (Some "{oops") "w1" = json_of_log [welcome "w1"].
Proof.
  split; [reflexivity|].
  exact (proj1 (proj2 loadHistory_spec) "{oops" "w1" eq_refl).
Defined.

(** ** The log is not empty *)

Lemma apply_op_nonempty (op : LogOp) (s : AppState) :
  messages s <> [] -> messages (apply_op op s) <> [].
Proof.
  destruct op as [m | target newText | newId]; simpl; intros H.
  - unfold append. destruct (messages s); discriminate.
  - destruct (messages s); [congruence | discriminate].
  - discriminate.
Qed.

Lemma run_ops_nonempty (ops : list LogOp) :
  forall s, messages s <> [] -> messages (run_ops ops s) <> [].
Proof.
  unfold run_ops. induction ops as [|op ops IH]; intros s H; simpl.
  - exact H.
  - apply IH. now apply apply_op_nonempty.
Qed.

Lemma mount_seeded (r : option string) (newId : string) (s : AppState) :
  mount r newId = Some s ->
  r = None \/ (exists stored, r = Some stored /\ Json.parse stored = None) ->
  messages s = [welcome newId].
Proof.
  intros M H. unfold mount in M.
  assert (L : loadHistory r newId = json_of_log [welcome newId]).
  { destruct H as [-> | (stored & -> & P)];
      [reflexivity | now apply loadHistory_unparseable]. }
  rewrite L, log_json_roundtrip in M. simpl in M. now injection M as <-.
Qed.

(** C4, as the code has it. Starting from the load of a store that is
    absent, that does not parse, or that holds a log which is not empty,
    no sequence of [append], [updateById] and reset empties the log; and a
    reset, after any such sequence, leaves exactly one message, from the
    assistant, with the fixed welcome text. *)
Theorem log_never_empty (r : option string) (newId : string) (s : AppState)
    (ops : list LogOp) :
  mount r newId = Some s ->
  r = None \/ (exists stored, r = Some stored /\ Json.parse stored = None) \/
  messages s <> [] ->
  messages (run_ops ops s) <> [] /\
  forall i,
    messages (apply_op (ResetLog i) (run_ops ops s)) = [welcome i] /\
    from (welcome i) = Assistant /\
    text (welcome i) = "FRIDAY online. Secure channel active.".
Proof.
  intros M H. split.
  - apply run_ops_nonempty. destruct H as [H | [H | H]]; [| |exact H].
    + rewrite (mount_seeded r newId s M (or_introl H)). discriminate.
    + rewrite (mount_seeded r newId s M (or_intror H)). discriminate.
  - intros i. now repeat split.
Qed.

Lemma log_never_empty_witness :
  let s := mkApp [welcome "w0"] "" false false None 0 None None [] [] 0 [] in
  let ops := [Append (mkMessage "u1" User "hi" None (Some 7%Z));
              UpdateById "u1" "ho"; ResetLog "w2"; UpdateById "zz" "x"] in
  mount None "w0" = Some s /\
  messages (run_ops ops s) <> [] /\
  messages (run_ops ops s) = [welcome "w2"].
Proof.
  intros s ops. split; [reflexivity|]. split; [|reflexivity].
  exact (proj1 (log_never_empty None "w0" s ops eq_refl (or_introl eq_refl))).
Defined.

(** C4 as it is stated fails: a store that holds the text [[]] loads as the
    empty log, and [updateById] leaves it empty. *)
Lemma empty_log_reachable :
  exists s,
    mount (Some "[]") "w1" = Some s /\
    messages s = [] /\
    messages (run_ops [UpdateById "a1" "Hello"] s) = [].
Proof.
  eexists. split; [reflexivity|]. split; reflexivity.
Qed.

(** * Further properties of the component *)

(** ** What every accepted send does *)

Lemma updateById_keeps {A : Type} (f : Message -> A) (target t : string)
    (log : list Message) :
  (forall m x, f (set_text x m) = f m) ->
  map f (updateById target (set_text t) log) = map f log.
Proof.
  intros H. unfold updateById. rewrite map_map. apply map_ext. intros m.
  destruct (String.eqb (id m) target); [apply H | reflexivity].
Qed.

Lemma for_await_keeps {A : Type} (f : Message -> A) (target : string)
    (chunks : list string) :
  (forall m x, f (set_text x m) = f m) ->
  forall acc s,
    map f (messages (for_await target acc chunks s)) = map f (messages s).
Proof.
  intros H. induction chunks as [|c chunks IH]; intros acc s.
  - reflexivity.
  - rewrite for_await_cons, IH. cbn [messages setMessages].
    now apply updateById_keeps.
Qed.

Lemma handleSend_image (env : SendEnv) (s : AppState) :
  accepted s -> image_branch s = true ->
  handleSend env s
  = generateImageFlow (image_env env) (Js.trim (input s))
      (image_entry env (Js.trim (input s)) s).
Proof.
  intros [N C] D. unfold handleSend. unfold image_branch in D.
  rewrite (truthy_nonempty _ N), D.
  destruct (chatRef s); [reflexivity | congruence].
Qed.

Lemma accepted_text_send (s : AppState) :
  accepted s -> image_branch s = false -> text_send s (Js.trim (input s)).
Proof. intros [N C] D. now repeat split. Qed.

(** The log after an accepted send, up to the texts. *)
Lemma handleSend_keeps {A : Type} (f : Message -> A) (env : SendEnv)
    (s : AppState) :
  (forall m x, f (set_text x m) = f m) ->
  accepted s ->
  exists reply,
    id reply = reply_id env s /\ from reply = Assistant /\
    (image reply <> None <->
     image_branch s = true /\
     has_inline_data (img_response (image_env env)) = true) /\
    map f (messages (handleSend env s))
    = (map f (messages s)
       ++ [f (userMsg_of env (Js.trim (input s))); f reply])%list.
Proof.
  intros H Acc. unfold reply_id. destruct (image_branch s) eqn:D.
  - rewrite (handleSend_image env s Acc D).
    flow_end (image_env env) (Js.trim (input s))
      (image_entry env (Js.trim (input s)) s) E.
    rewrite E.
    assert (M : forall reply,
              map f (messages (image_entry env (Js.trim (input s)) s) ++ [reply])
              = (map f (messages s)
                 ++ [f (userMsg_of env (Js.trim (input s))); f reply])%list).
    { intros reply. unfold image_entry, append.
      cbn [messages setInput setMessages setLastError].
      rewrite !map_app. cbn [map app]. now rewrite <- app_assoc. }
    destruct (img_response (image_env env)) as [[d|]|err]; cbn [messages].
    + exists (imageMsg_of (image_env env) (Js.trim (input s)) d).
      split; [reflexivity|]. split; [reflexivity|]. split; [|apply M].
      split; [intros _; split; reflexivity | intros _; discriminate].
    + exists (failureMsg_of (image_env env)).
      split; [reflexivity|]. split; [reflexivity|]. split; [|apply M].
      split; [intros X; now destruct X | intros [_ X]; discriminate].
    + exists (failureMsg_of (image_env env)).
      split; [reflexivity|]. split; [reflexivity|]. split; [|apply M].
      split; [intros X; now destruct X | intros [_ X]; discriminate].
  - rewrite (handleSend_text env s _ (accepted_text_send s Acc D)).
    exists (assistantMsg_of env "").
    split; [reflexivity|]. split; [reflexivity|].
    split; [split; [intros X; now destruct X | intros [X _]; discriminate]|].
    assert (K : forall st,
              map f (messages
                (match failure (chat_outcome env) with
                 | Some err => send_catch (assistantMsgId env) err st
                 | None => st
                 end)) = map f (messages st)).
    { intros st. destruct (failure (chat_outcome env)); [|reflexivity].
      unfold send_catch. cbn [messages setLastError setMessages].
      now apply updateById_keeps. }
    cbn [messages setIsThinking]. rewrite K, (for_await_keeps f _ _ H).
    rewrite loop_entry_messages, !map_app. cbn [map app].
    rewrite <- app_assoc. reflexivity.
Qed.

Lemma handleSend_length (env : SendEnv) (s : AppState) :
  accepted s ->
  List.length (messages (handleSend env s)) = List.length (messages s) + 2.
Proof.
  intros Acc.
  destruct (handleSend_keeps frame env s (fun m x => eq_refl) Acc)
    as (reply & _ & _ & _ & M).
  rewrite <- (length_map frame (messages (handleSend env s))), M.
  rewrite length_app, length_map. reflexivity.
Qed.

Lemma handleSend_noop (env : SendEnv) (s : AppState) :
  Js.trim (input s) = "" \/ chatRef s = None -> handleSend env s = s.
Proof.
  intros [B | C]; unfold handleSend.
  - now rewrite B.
  - rewrite C. now rewrite orb_true_r.
Qed.

(** X1. An accepted send appends exactly two messages, the user's and one
    from the assistant under the id generated for it, and leaves id, sender,
    image and timestamp of every earlier message as they were; the appended
    assistant message carries an image exactly when the send was an image
    request answered with inline data. *)
Theorem handleSend_appends_two (env : SendEnv) (s : AppState) :
  accepted s ->
  exists reply,
    (id reply = reply_id env s /\ from reply = Assistant /\
     (image reply <> None <->
      image_branch s = true /\
      has_inline_data (img_response (image_env env)) = true)) /\
    map frame (messages (handleSend env s))
    = (map frame (messages s)
       ++ [frame (userMsg_of env (Js.trim (input s))); frame reply])%list /\
    List.length (messages (handleSend env s)) = List.length (messages s) + 2.
Proof.
  intros Acc.
  destruct (handleSend_keeps frame env s (fun m x => eq_refl) Acc)
    as (reply & I & F & G & M).
  exists reply. split; [exact (conj I (conj F G))|]. split; [exact M|].
  rewrite <- (length_map frame (messages (handleSend env s))), M.
  rewrite length_app, length_map. reflexivity.
Qed.

Lemma accepted_sample : accepted (sample_state " draw a cat ").
Proof. split; discriminate. Defined.

Lemma handleSend_appends_two_witness :
  let s := sample_state " draw a cat " in
  let env := sample_env (mkChatOutcome [] None) in
  accepted s /\
  List.length (messages (handleSend env s)) = 3.
Proof.
  intros s env. split; [exact accepted_sample|].
  destruct (handleSend_appends_two env s accepted_sample) as (r & _ & _ & L).
  exact L.
Defined.

(** X2. [handleSend] returns the state it was given exactly when the input
    is blank or no chat session is in place: in every other case the log has
    grown. *)
Theorem handleSend_noop_iff (env : SendEnv) (s : AppState) :
  handleSend env s = s <-> Js.trim (input s) = "" \/ chatRef s = None.
Proof.
  split.
  - intros E.
    destruct (string_dec (Js.trim (input s)) "") as [B|B]; [now left|].
    destruct (chatRef s) as [c|] eqn:C; [|now right]. exfalso.
    assert (Acc : accepted s) by (split; [exact B | congruence]).
    pose proof (handleSend_length env s Acc) as L.
    rewrite E in L. lia.
  - apply handleSend_noop.
Qed.

Lemma handleSend_noop_iff_witness :
  let s := mkApp [welcome "w0"] "hello" false false None 0 None None [] [] 0 [] in
  chatRef s = None /\ handleSend (sample_env (mkChatOutcome ["x"] None)) s = s.
Proof.
  intros s. split; [reflexivity|].
  exact (proj2 (handleSend_noop_iff _ s) (or_intror eq_refl)).
Defined.

(** X3. If the ids of a log are pairwise distinct and the ids generated for
    a send are new and distinct, the ids of the log after the send are
    pairwise distinct again, whatever the send's branch and outcome. *)
Theorem handleSend_unique_ids (env : SendEnv) (s : AppState) :
  NoDup (ids (messages s)) ->
  ~ In (userMsgId env) (ids (messages s)) ->
  ~ In (reply_id env s) (ids (messages s)) ->
  userMsgId env <> reply_id env s ->
  NoDup (ids (messages (handleSend env s))).
Proof.
  intros N U R D.
  destruct (string_dec (Js.trim (input s)) "") as [B|B].
  { now rewrite (handleSend_noop env s (or_introl B)). }
  destruct (chatRef s) as [c|] eqn:C.
  2:{ now rewrite (handleSend_noop env s (or_intror C)). }
  assert (Acc : accepted s) by (split; [exact B | congruence]).
  destruct (handleSend_keeps id env s (fun m x => eq_refl) Acc)
    as (reply & I & _ & _ & M).
  unfold ids. rewrite M, I. cbn [id userMsg_of].
  apply NoDup_app; [exact N | | ].
  - constructor; [intros [X|[]]; now apply D|]. constructor; [intros []|constructor].
  - intros x Hx [<- | [<- | []]]; [exact (U Hx) | exact (R Hx)].
Qed.

Lemma handleSend_unique_ids_witness :
  let s := sample_state "hello there" in
  let env := sample_env (mkChatOutcome ["Hel"; "lo"] None) in
  NoDup (ids (messages (handleSend env s))) /\
  ids (messages (handleSend env s)) = ["w0"; "u1"; "a1"].
Proof.
  intros s env. split; [|reflexivity].
  apply (handleSend_unique_ids env s).
  - constructor; [intros [] | constructor].
  - intros [H|[]]; discriminate.
  - intros [H|[]]; discriminate.
  - discriminate.
Defined.

(** X4. An accepted send issues exactly one request, to the capability the
    classifier chose and with the trimmed input (an image request with its
    effective prompt); it empties the composer and leaves no in-flight flag
    raised: [isThinking] is down after a text send, [isGenerating] after an
    image send, whatever the outcome. *)
Theorem handleSend_one_request (env : SendEnv) (s : AppState) :
  accepted s ->
  let s' := handleSend env s in
  requests s' = (requests s ++ [request_of s])%list /\
  input s' = "" /\
  isThinking s' = (if image_branch s then isThinking s else false) /\
  isGenerating s' = (if image_branch s then false else isGenerating s).
Proof.
  intros Acc s'. unfold s', request_of. destruct (image_branch s) eqn:D.
  - rewrite (handleSend_image env s Acc D).
    flow_end (image_env env) (Js.trim (input s))
      (image_entry env (Js.trim (input s)) s) E.
    rewrite E.
    destruct (img_response (image_env env)) as [[d|]|err]; now repeat split.
  - rewrite (handleSend_text env s _ (accepted_text_send s Acc D)).
    pose proof (for_await_shape (assistantMsgId env)
                  (fragments (chat_outcome env)) ""
                  (loop_entry env (Js.trim (input s)) s)) as HL.
    set (L := for_await _ _ _ _) in *. rewrite HL.
    destruct (failure (chat_outcome env)); now repeat split.
Qed.

Lemma handleSend_one_request_witness :
  let s := sample_state " /IMG  a red fox " in
  let env := sample_env (mkChatOutcome [] None) in
  accepted s /\
  requests (handleSend env s) = [GenerateContent "a red fox"] /\
  isGenerating (handleSend env s) = false.
Proof.
  intros s env.
  assert (Acc : accepted s) by (split; discriminate).
  destruct (handleSend_one_request env s Acc) as (R & _ & _ & G).
  split; [exact Acc|]. split; [exact R | exact G].
Defined.

(** X5. After an accepted send the last-error slot tells the outcome and
    nothing of the past: it is empty when the capability delivered (the
    stream ended normally, or the image answer had inline data) and holds a
    description otherwise, whatever it held before the send. *)
Theorem handleSend_lastError (env : SendEnv) (s : AppState) :
  accepted s ->
  (delivered env s = true -> lastError (handleSend env s) = None) /\
  (delivered env s = false -> lastError (handleSend env s) <> None).
Proof.
  intros Acc. unfold delivered. destruct (image_branch s) eqn:D.
  - rewrite (handleSend_image env s Acc D).
    flow_end (image_env env) (Js.trim (input s))
      (image_entry env (Js.trim (input s)) s) E.
    rewrite E.
    destruct (img_response (image_env env)) as [[d|]|err]; simpl; split;
      intros X; try discriminate; reflexivity.
  - rewrite (handleSend_text env s _ (accepted_text_send s Acc D)).
    pose proof (for_await_shape (assistantMsgId env)
                  (fragments (chat_outcome env)) ""
                  (loop_entry env (Js.trim (input s)) s)) as HL.
    set (L := for_await _ _ _ _) in *. rewrite HL.
    destruct (failure (chat_outcome env)); simpl; split; intros X;
      try discriminate; reflexivity.
Qed.

Lemma handleSend_lastError_witness :
  let s := setLastError (Some "stale") (sample_state "hello there") in
  let env := sample_env (mkChatOutcome ["Hi"] None) in
  accepted s /\ delivered env s = true /\ lastError s = Some "stale" /\
  lastError (handleSend env s) = None.
Proof.
  intros s env.
  assert (Acc : accepted s) by (split; discriminate).
  split; [exact Acc|]. split; [reflexivity|]. split; [reflexivity|].
  exact (proj1 (handleSend_lastError env s Acc) eq_refl).
Defined.

(** ** The progress ticker *)

Lemma tick_entry_absent (h : nat) (r : Q) (iv : list (nat * Q)) :
  ~ In h (map fst iv) -> tick_entry h r iv = (iv, None).
Proof.
  induction iv as [|[h' p] iv IH]; simpl; intros N; [reflexivity|].
  destruct (Nat.eqb_spec h' h) as [E|E].
  - destruct N. now left.
  - rewrite IH; [reflexivity | intros I; apply N; now right].
Qed.

Lemma tick_absent (h : nat) (r : Q) (s : AppState) :
  ~ In h (handles s) -> tick h r s = s.
Proof. intros N. unfold tick. now rewrite (tick_entry_absent h r _ N). Qed.

Lemma flow_handles (env : ImageEnv) (prompt : string) (s : AppState) :
  handles (generateImageFlow env prompt s)
  = filter (fun x => negb (Nat.eqb x (nextHandle s))) (handles s).
Proof.
  destruct (generateImageFlow_end env prompt s) as [Hh E]. cbv zeta in E.
  rewrite E.
  assert (X : forall iv : list (nat * Q),
            map fst iv = (nextHandle s :: handles s)%list ->
            map fst (filter (fun e => negb (Nat.eqb (fst e) (nextHandle s))) iv)
            = filter (fun x => negb (Nat.eqb x (nextHandle s))) (handles s)).
  { intros iv Hiv.
    rewrite (map_fst_filter (fun x => negb (Nat.eqb x (nextHandle s))) iv), Hiv.
    simpl. now rewrite Nat.eqb_refl. }
  destruct (img_response env) as [[d|]|err]; apply X; exact Hh.
Qed.

(** X6. Once the image flow has returned, its progress ticker is inert: no
    later run of the ticker's callback changes the state, so the progress
    value can only be changed by the pending reset. *)
Theorem cancelled_ticker_is_inert (env : ImageEnv) (prompt : string)
    (s : AppState) (late : list Q) :
  run_ticks (nextHandle s) late (generateImageFlow env prompt s)
  = generateImageFlow env prompt s.
Proof.
  assert (N : ~ In (nextHandle s) (handles (generateImageFlow env prompt s)))
    by (rewrite flow_handles; apply filter_absent).
  revert N. generalize (generateImageFlow env prompt s).
  intros st N. unfold run_ticks.
  induction late as [|r late IH]; simpl; [reflexivity|].
  now rewrite (tick_absent _ r st N).
Qed.

Lemma advance_le (p r : Q) : Qle (advance p r) 88%Q.
Proof.
  unfold advance. destruct (Qle_bool (Qplus p r) 88%Q) eqn:E.
  - now apply Qle_bool_iff.
  - apply Qle_refl.
Qed.

Lemma advance_ge (p r : Q) :
  Qle 10%Q p -> Qle 0%Q r -> Qle 10%Q (advance p r).
Proof.
  intros P R. unfold advance. destruct (Qle_bool (Qplus p r) 88%Q).
  - rewrite <- (Qplus_0_r 10%Q). now apply Qplus_le_compat.
  - discriminate.
Qed.

Lemma floor_between (x : Q) :
  Qle 10%Q x -> Qle x 88%Q -> (10 <= Qfloor x <= 88)%Z.
Proof.
  intros L U. split.
  - change 10%Z with (Qfloor 10%Q). now apply Qfloor_resp_le.
  - change 88%Z with (Qfloor 88%Q). now apply Qfloor_resp_le.
Qed.

(** The ticker's own entry is the first of its handle. *)
Lemma tick_first (h : nat) (r p : Q) (rest : list (nat * Q)) (s : AppState) :
  intervals s = ((h, p) :: rest)%list ->
  intervals (tick h r s) = ((h, advance p r) :: rest)%list /\
  progress (tick h r s) = Qfloor (advance p r).
Proof.
  intros I. unfold tick. rewrite I. simpl. rewrite Nat.eqb_refl. now split.
Qed.

Lemma fire_timeout_keeps (h : nat) (s : AppState) :
  intervals (fire_timeout h s) = intervals s /\
  incl (timeouts (fire_timeout h s)) (timeouts s) /\
  (In h (timeouts s) -> progress (fire_timeout h s) = 0%Z) /\
  (~ In h (timeouts s) -> fire_timeout h s = s).
Proof.
  unfold fire_timeout.
  destruct (existsb (Nat.eqb h) (timeouts s)) eqn:E.
  - repeat split.
    + intros x I. cbn [timeouts setProgress setTimers] in I.
      apply filter_In in I. tauto.
    + intros N. apply existsb_exists in E. destruct E as (x & I & X).
      apply Nat.eqb_eq in X. subst x. now destruct N.
  - repeat split.
    + apply incl_refl.
    + intros I. assert (X : existsb (Nat.eqb h) (timeouts s) = true).
      { apply existsb_exists. exists h. split; [exact I | apply Nat.eqb_refl]. }
      congruence.
Qed.

(** The progress value after any events: the value before when nothing
    took effect, 0 after a reset that was pending, and a value between 10
    and 88 after a run of the ticker. *)
Lemma flight_progress (h : nat) (rest : list (nat * Q)) :
  forall evs st p,
    Forall (fun r => Qle 0%Q r) (increments evs) ->
    intervals st = ((h, p) :: rest)%list -> Qle 10%Q p -> Qle p 88%Q ->
    let st' := fold_left (fun a e => flight_step h e a) evs st in
    (exists p', intervals st' = ((h, p') :: rest)%list /\
                Qle 10%Q p' /\ Qle p' 88%Q) /\
    ((progress st' = progress st /\ increments evs = []) \/
     (progress st' = 0%Z /\
      exists h', In (StaleReset h') evs /\ In h' (timeouts st)) \/
     ((10 <= progress st' <= 88)%Z /\ increments evs <> [])).
Proof.
  induction evs as [|e evs IH]; intros st p F I L U.
  - cbn [fold_left increments]. split; [now exists p | now left].
  - cbn [fold_left]. destruct e as [r | h0]; cbn [flight_step increments] in *.
    + inversion F as [|r0 rs R F']. subst.
      destruct (tick_first h r p rest st I) as [I1 P1].
      destruct (IH (tick h r st) (advance p r) F' I1
                  (advance_ge p r L R) (advance_le p r)) as [A D].
      split; [exact A|]. right.
      destruct D as [[D Z] | [[D (h' & X & Y)] | [D Z]]].
      * right. split; [|discriminate]. rewrite D, P1.
        apply floor_between; [now apply advance_ge | apply advance_le].
      * left. split; [exact D|]. exists h'. split; [now right|].
        unfold tick in Y. rewrite I in Y. cbn in Y.
        rewrite Nat.eqb_refl in Y. exact Y.
      * right. split; [exact D | discriminate].
    + destruct (fire_timeout_keeps h0 st) as (K1 & K2 & K3 & K4).
      assert (I1 : intervals (fire_timeout h0 st) = ((h, p) :: rest)%list)
        by (now rewrite K1).
      destruct (IH (fire_timeout h0 st) p F I1 L U) as [A D].
      split; [exact A|].
      destruct (in_dec Nat.eq_dec h0 (timeouts st)) as [P | P].
      * destruct D as [[D Z] | [[D (h' & X & Y)] | [D Z]]].
        -- right. left. split; [now rewrite D, (K3 P)|].
           exists h0. split; [now left | exact P].
        -- right. left. split; [exact D|]. exists h'.
           split; [now right | now apply K2].
        -- right. right. now split.
      * rewrite (K4 P) in *.
        destruct D as [[D Z] | [[D (h' & X & Y)] | [D Z]]].
        -- left. now split.
        -- right. left. split; [exact D|]. exists h'. split; [now right | exact Y].
        -- right. right. now split.
Qed.

Lemma increments_app (a b : list FlightEvent) :
  increments (a ++ b) = (increments a ++ increments b)%list.
Proof.
  induction a as [|[r|h] a IH]; cbn [app increments]; [reflexivity| |exact IH].
  now rewrite IH.
Qed.

Lemma increments_tickers (rs : list Q) : increments (map Ticker rs) = rs.
Proof. induction rs as [|r rs IH]; cbn; [reflexivity | now rewrite IH]. Qed.

(** X7. While an image request is in flight the progress value is 6 until
    something happens, an integer between 10 and 88 after every run of the
    ticker (for increments that are not negative, as those of
    [Math.random()*12] are), and 0 only after the reset an earlier flow left
    pending has fired. Hence with no such reset pending it is 6 until the
    ticker first runs and between 10 and 88 from then on. The state in
    which the flow receives its answer is the one the runs of its ticker
    lead to. *)
Theorem progress_while_in_flight (evs : list FlightEvent) (prompt : string)
    (s : AppState) :
  Forall (fun r => Qle 0%Q r) (increments evs) ->
  let p := progress (while_in_flight evs prompt s) in
  (p = 0 \/ p = 6 \/ 10 <= p <= 88)%Z /\
  (evs = [] -> p = 6%Z) /\
  (forall before r, evs = (before ++ [Ticker r])%list -> (10 <= p <= 88)%Z) /\
  (p = 0%Z ->
   exists h, In (StaleReset h) evs /\ In h (timeouts s)) /\
  ((forall h, In (StaleReset h) evs -> ~ In h (timeouts s)) ->
   (increments evs = [] -> p = 6%Z) /\
   (increments evs <> [] -> (10 <= p <= 88)%Z)) /\
  (forall env : ImageEnv,
     on_answer env prompt s
     = while_in_flight (map Ticker (img_ticks env)) prompt s).
Proof.
  intros F p.
  pose proof (flight_progress (nextHandle s) (intervals s) evs
                (in_flight prompt s) 10%Q F eq_refl (Qle_refl _)
                ltac:(discriminate)) as [_ D].
  cbv zeta in D. fold (while_in_flight evs prompt s) in D. fold p in D.
  change (progress (in_flight prompt s)) with 6%Z in D.
  change (timeouts (in_flight prompt s)) with (timeouts s) in D.
  split; [|split; [|split; [|split; [|split]]]].
  - destruct D as [[D _] | [[D _] | [D _]]]; auto.
  - intros ->. reflexivity.
  - intros before r E. unfold p, while_in_flight. rewrite E, fold_left_app.
    cbn [fold_left flight_step].
    assert (Fb : Forall (fun r => Qle 0%Q r) (increments before)).
    { rewrite E, increments_app in F. now apply Forall_app in F. }
    assert (Fr : Qle 0%Q r).
    { rewrite E, increments_app in F. apply Forall_app in F.
      destruct F as [_ F]. now inversion F. }
    destruct (flight_progress (nextHandle s) (intervals s) before
                (in_flight prompt s) 10%Q Fb eq_refl (Qle_refl _)
                ltac:(discriminate)) as [(p' & I & L & U) _].
    destruct (tick_first _ r p' _ _ I) as [_ P]. rewrite P.
    apply floor_between; [now apply advance_ge | apply advance_le].
  - intros Z. destruct D as [[D _] | [[_ D] | [D _]]].
    + rewrite D in Z. discriminate.
    + exact D.
    + lia.
  - intros N. split.
    + intros Z. destruct D as [[D _] | [[_ (h & X & Y)] | [_ D]]].
      * exact D.
      * now destruct (N h X).
      * now destruct D.
    + intros Z. destruct D as [[_ D] | [[_ (h & X & Y)] | [D _]]].
      * now destruct Z.
      * now destruct (N h X).
      * exact D.
  - intros env. unfold on_answer, while_in_flight, run_ticks.
    generalize (in_flight prompt s). induction (img_ticks env) as [|r rs IH];
      intros st; [reflexivity | apply IH].
Qed.

Lemma progress_while_in_flight_witness :
  let s := snd (setTimeout (sample_state "")) in
  let evs := [Ticker (7 # 2)%Q; StaleReset 0; Ticker 11%Q] in
  Forall (fun r => Qle 0%Q r) (increments evs) /\
  map (fun n => progress (while_in_flight (firstn n evs) "draw" s)) [0; 1; 2; 3]
  = [6; 13; 0; 24]%Z /\
  (10 <= progress (while_in_flight evs "draw" s) <= 88)%Z.
Proof.
  intros s evs.
  assert (F : Forall (fun r => Qle 0%Q r) (increments evs))
    by (repeat constructor; discriminate).
  split; [exact F|]. split; [reflexivity|].
  exact (proj1 (proj2 (proj2 (progress_while_in_flight evs "draw" s F)))
           [Ticker (7 # 2)%Q; StaleReset 0] 11%Q eq_refl).
Defined.

(** X8. When the image capability answers with inline data, the flow appends
    exactly one assistant message: its image is the data URI made of the
    MIME type and the base64 data of the answer, its text quotes the prompt
    that was sent, and it is stamped with the time. The last-error slot is
    empty, the progress value is 100, [isGenerating] is down and one reset
    of the progress value is pending. *)
Theorem image_success (env : ImageEnv) (prompt : string) (s : AppState)
    (d : InlineData) :
  img_response env = Resolved (Some d) ->
  let s' := generateImageFlow env prompt s in
  let reply := imageMsg_of env prompt d in
  messages s' = (messages s ++ [reply])%list /\
  (id reply = img_msgId env /\ from reply = Assistant /\
   text reply = "Generated image: " ++ quoted (bodyPrompt prompt) /\
   image reply = Some ("data:" ++ mimeType d ++ ";base64," ++ data d) /\
   ts reply = Some (img_now env)) /\
  lastError s' = None /\ progress s' = 100%Z /\ isGenerating s' = false /\
  timeouts s' = (S (nextHandle s) :: timeouts s)%list /\
  progress (fire_timeout (S (nextHandle s)) s') = 0%Z.
Proof.
  intros R s' reply. unfold s'. flow_end env prompt s E. rewrite R in E.
  rewrite E. repeat split. unfold fire_timeout. cbn [timeouts existsb].
  now rewrite Nat.eqb_refl.
Qed.

Lemma image_success_witness :
  let env := sample_image_env (Resolved (Some (mkInline "image/png" "AAAA"))) in
  let s' := generateImageFlow env "/img sunset" (sample_state "") in
  img_response env = Resolved (Some (mkInline "image/png" "AAAA")) /\
  map image (messages s') = [None; Some "data:image/png;base64,AAAA"] /\
  lastError s' = None.
Proof.
  intros env s'.
  destruct (image_success env "/img sunset" (sample_state "")
              (mkInline "image/png" "AAAA") eq_refl) as (M & _ & E & _).
  split; [reflexivity|]. split; [|exact E].
  unfold s'. rewrite M. reflexivity.
Defined.

(** ** Trimming *)

Lemma trimStart_idem (s : string) : Js.trimStart (Js.trimStart s) = Js.trimStart s.
Proof.
  induction s as [|c r IH]; simpl; [reflexivity|].
  destruct (Js.is_ws c) eqn:E; [exact IH | simpl; now rewrite E].
Qed.

Lemma trimEnd_idem (s : string) : Js.trimEnd (Js.trimEnd s) = Js.trimEnd s.
Proof.
  induction s as [|c r IH]; [reflexivity|]. cbn [Js.trimEnd].
  destruct (Js.trimEnd r) as [|x y] eqn:E.
  - destruct (Js.is_ws c) eqn:W; [reflexivity|]. simpl. now rewrite W.
  - cbn [Js.trimEnd]. cbn [Js.trimEnd] in IH. rewrite IH. reflexivity.
Qed.

(** A text that does not begin with whitespace keeps its beginning when its
    end is trimmed. *)
Lemma trimStart_trimEnd (s : string) :
  Js.trimStart s = s -> Js.trimStart (Js.trimEnd s) = Js.trimEnd s.
Proof.
  destruct s as [|c r]; [reflexivity|]. simpl.
  destruct (Js.is_ws c) eqn:W.
  - intros H. exfalso.
    assert (L : String.length (Js.trimStart r) <= String.length r).
    { clear. induction r as [|x r IH]; simpl; [lia|].
      destruct (Js.is_ws x); simpl; lia. }
    rewrite H in L. simpl in L. lia.
  - intros _. destruct (Js.trimEnd r); simpl; now rewrite W.
Qed.

Lemma trim_idem (s : string) : Js.trim (Js.trim s) = Js.trim s.
Proof.
  unfold Js.trim.
  rewrite (trimStart_trimEnd _ (trimStart_idem s)). apply trimEnd_idem.
Qed.

(** ** The prompt that is sent *)

(** X9. The prompt the image flow sends is either the prompt it was given
    or what follows some beginning of it, trimmed; it is never empty unless
    the given prompt is, so an accepted image send never issues a request
    with an empty prompt. *)
Theorem bodyPrompt_shape :
  (forall prompt,
     bodyPrompt prompt = prompt \/
     exists pre rest,
       prompt = pre ++ rest /\ bodyPrompt prompt = Js.trim rest /\
       Js.trim rest <> "") /\
  (forall prompt, prompt <> "" -> bodyPrompt prompt <> "") /\
  (forall s,
     accepted s -> image_branch s = true ->
     exists p, request_of s = GenerateContent p /\ p <> "").
Proof.
  assert (A : forall prompt,
            bodyPrompt prompt = prompt \/
            exists pre rest,
              prompt = pre ++ rest /\ bodyPrompt prompt = Js.trim rest /\
              Js.trim rest <> "").
  { intros prompt. unfold bodyPrompt, cleaned. rewrite replace_command.
    pose proof (match_here_command true prompt) as H.
    destruct (Re.match_alt true command_alternatives None prompt) as [n|].
    - destruct H as (tok & rest & _ & (pre & E & _) & L). subst prompt.
      rewrite string_length_app in L.
      replace n with (String.length pre) by lia. rewrite drop_app.
      destruct (or_else_spec (Js.trim rest) (pre ++ rest)) as [X Y].
      destruct (string_dec (Js.trim rest) "") as [Z|Z].
      + left. now apply X.
      + right. exists pre, rest. repeat split; [now apply Y | exact Z].
    - destruct (or_else_spec (Js.trim prompt) prompt) as [X Y].
      destruct (string_dec (Js.trim prompt) "") as [Z|Z].
      + left. now apply X.
      + right. exists "", prompt. repeat split; [now apply Y | exact Z]. }
  assert (B : forall prompt, prompt <> "" -> bodyPrompt prompt <> "").
  { intros prompt N. destruct (A prompt) as [-> | (pre & rest & _ & -> & Z)];
      assumption. }
  split; [exact A|]. split; [exact B|].
  intros s [N _] D. unfold request_of. rewrite D.
  exists (bodyPrompt (Js.trim (input s))). split; [reflexivity | now apply B].
Qed.

Lemma bodyPrompt_shape_witness :
  "/image" <> "" /\ bodyPrompt "/image" <> "".
Proof.
  assert (N : "/image" <> "") by discriminate.
  split; [exact N|]. exact (proj1 (proj2 bodyPrompt_shape) "/image" N).
Defined.

(** ** Command tokens in any letter case *)

Lemma toLowerCase_split (t a b : string) :
  Js.toLowerCase t = a ++ b ->
  exists pre rest,
    t = pre ++ rest /\ Js.toLowerCase pre = a /\ Js.toLowerCase rest = b.
Proof.
  revert t. induction a as [|x a IH]; intros t H.
  - exists "", t. now repeat split.
  - destruct t as [|c t]; [discriminate|]. simpl in H. injection H as Hc H.
    destruct (IH t H) as (pre & rest & -> & P & R).
    exists (String c pre), rest. repeat split; [|exact R].
    simpl. now rewrite Hc, P.
Qed.

Lemma token_ends_lower (rest : string) :
  token_ends (Js.toLowerCase rest) = token_ends rest.
Proof.
  destruct rest as [|c r]; [reflexivity|]. unfold token_ends. simpl.
  now rewrite is_word_lower.
Qed.

Lemma classify_image_iff (t : string) :
  classify t = ImageRequest <-> image_trigger (Js.toLowerCase t).
Proof.
  unfold classify. rewrite <- detectImageIntent_true.
  destruct (detectImageIntent t); split; congruence.
Qed.

(** X10. Every command token the classifier finds, the image flow strips.
    If the lower-cased text begins with [/image], [/img] or [/photo] as a
    token, which is what [detectImageIntent] tests, then the text is an
    image request, the text itself begins with that token in some letter
    case, which is what the flow's case-insensitive pattern matches, and
    the prompt that is sent is the trimmed text after the token (the whole
    prompt when nothing is left). *)
Theorem command_token_consistent (t : string) :
  begins_with_command false (Js.toLowerCase t) ->
  classify t = ImageRequest /\
  exists tok rest,
    In tok COMMAND_TOKENS /\ leading_token true tok t rest /\
    Re.replace_g COMMAND_RE_ig t "" = rest /\
    bodyPrompt t = Js.or_else (Js.trim rest) t.
Proof.
  intros H. split; [apply classify_image_iff; now right|].
  destruct H as (tok & rest' & I & pre' & E & F & T). simpl in F. subst pre'.
  destruct (toLowerCase_split _ _ _ E) as (pre & rest & -> & P & R).
  assert (L : leading_token true tok (pre ++ rest) rest).
  { exists pre. repeat split; [exact P|].
    rewrite <- token_ends_lower. now rewrite R. }
  exists tok, rest. split; [exact I|]. split; [exact L|].
  pose proof (replace_command_leading _ _ _ I L) as X.
  split; [exact X|]. unfold bodyPrompt, cleaned. now rewrite X.
Qed.

Lemma command_token_consistent_witness :
  begins_with_command false (Js.toLowerCase "/PHOTO of a fox") /\
  classify "/PHOTO of a fox" = ImageRequest /\
  bodyPrompt "/PHOTO of a fox" = "of a fox".
Proof.
  assert (B : begins_with_command false (Js.toLowerCase "/PHOTO of a fox")).
  { exists "/photo", " of a fox". split; [simpl; tauto|].
    exists "/photo". now repeat split. }
  split; [exact B|].
  split; [exact (proj1 (command_token_consistent _ B)) | reflexivity].
Defined.

(** X11. A keyword of the fixed set anywhere in a text, in any letter case
    and whatever surrounds it, makes the text an image request. *)
Theorem keyword_anywhere (k a x b : string) :
  In k IMAGE_KEYWORDS -> Js.toLowerCase x = k ->
  classify (a ++ x ++ b) = ImageRequest.
Proof.
  intros I L. apply classify_image_iff. left. exists k. split; [exact I|].
  exists (Js.toLowerCase a), (Js.toLowerCase b).
  now rewrite !toLowerCase_app, L.
Qed.

Lemma keyword_anywhere_witness :
  classify ("can you " ++ "Design" ++ " a study plan?") = ImageRequest.
Proof.
  apply (keyword_anywhere "design"); [simpl; tauto | reflexivity].
Defined.

(** ** Retry *)

Lemma find_app {A : Type} (f : A -> bool) (l1 l2 : list A) :
  find f (l1 ++ l2)
  = match find f l1 with Some x => Some x | None => find f l2 end.
Proof.
  induction l1 as [|a l1 IH]; simpl; [reflexivity|].
  destruct (f a); [reflexivity | exact IH].
Qed.

Lemma find_none_all {A : Type} (f : A -> bool) (l : list A) :
  (forall x, In x l -> f x = false) -> find f l = None.
Proof.
  induction l as [|a l IH]; simpl; intros H; [reflexivity|].
  rewrite (H a (or_introl eq_refl)). apply IH. intros x I. apply H. now right.
Qed.

Lemma lastUser_split (a b : list Message) (m : Message) :
  from m = User -> (forall x, In x b -> from x <> User) ->
  lastUser (a ++ m :: b) = Some m.
Proof.
  intros U B. unfold lastUser. rewrite rev_app_distr. simpl.
  rewrite <- app_assoc, find_app, find_none_all.
  - simpl. now rewrite U.
  - intros x I. apply in_rev in I. specialize (B x I).
    destruct (from x); [congruence | reflexivity].
Qed.

Lemma lastUser_none (log : list Message) :
  (forall x, In x log -> from x <> User) -> lastUser log = None.
Proof.
  intros B. unfold lastUser. apply find_none_all. intros x I.
  apply in_rev in I. specialize (B x I).
  destruct (from x); [congruence | reflexivity].
Qed.

Lemma retryLast_found (s : AppState) (a b : list Message) (m : Message) :
  messages s = (a ++ m :: b)%list -> from m = User ->
  (forall x, In x b -> from x <> User) ->
  retryLast s
  = (setTimers (intervals s) (timeouts s) (S (nextHandle s))
       (setInput (text m) s), Some (nextHandle s)).
Proof.
  intros M U B. unfold retryLast. rewrite M, (lastUser_split a b m U B).
  reflexivity.
Qed.

(** X12. [retryLast] does nothing when the log has no user message.
    Otherwise it puts the text of the latest user message, the one no user
    message follows, back into the composer, schedules one submit, and
    changes nothing else of the state but the timer counter. *)
Theorem retryLast_spec (s : AppState) :
  ((forall x, In x (messages s) -> from x <> User) ->
   retryLast s = (s, None) /\ forall env, retry_and_submit env s = s) /\
  (forall a b m,
     messages s = (a ++ m :: b)%list -> from m = User ->
     (forall x, In x b -> from x <> User) ->
     let s1 := fst (retryLast s) in
     input s1 = text m /\ snd (retryLast s) = Some (nextHandle s) /\
     messages s1 = messages s /\ requests s1 = requests s /\
     lastError s1 = lastError s /\ chatRef s1 = chatRef s /\
     handles s1 = handles s /\ timeouts s1 = timeouts s /\
     forall env, retry_and_submit env s = handleSend env s1).
Proof.
  split.
  - intros B. unfold retry_and_submit, retryLast.
    rewrite (lastUser_none _ B). now split.
  - intros a b m M U B. unfold retry_and_submit.
    rewrite (retryLast_found s a b m M U B). cbn [fst snd]. now repeat split.
Qed.

Lemma retryLast_spec_witness :
  let s := mkApp [welcome "w0"; mkMessage "u1" User "first" None None;
                  mkMessage "a1" Assistant "one" None None;
                  mkMessage "u2" User "second" None None;
                  mkMessage "a2" Assistant "two" None None]
             "" false false None 0 (Some []) None [] [] 0 [] in
  input (fst (retryLast s)) = "second".
Proof.
  intros s.
  refine (proj1 (proj2 (retryLast_spec s)
            [welcome "w0"; mkMessage "u1" User "first" None None;
             mkMessage "a1" Assistant "one" None None]
            [mkMessage "a2" Assistant "two" None None]
            (mkMessage "u2" User "second" None None) eq_refl eq_refl _)).
  intros x [<- | []]. discriminate.
Defined.

(** The log after an accepted send ends with the user's message, as it was
    appended, and the assistant's. *)
Lemma for_await_map (target : string) (chunks : list string) :
  forall acc s,
    exists g : Message -> Message,
      (forall m, id m <> target -> g m = m) /\
      (forall m, from (g m) = from m) /\
      messages (for_await target acc chunks s) = map g (messages s).
Proof.
  induction chunks as [|c chunks IH]; intros acc s.
  - exists (fun m => m). repeat split. unfold for_await. simpl.
    now rewrite map_id.
  - rewrite for_await_cons.
    destruct (IH (acc ++ c)
                (setMessages (updateById target (set_text (acc ++ c))) s))
      as (g & G1 & G2 & ->).
    exists (fun m => g (if String.eqb (id m) target
                        then set_text (acc ++ c) m else m)).
    split; [|split].
    + intros m N. apply String.eqb_neq in N. rewrite N. apply G1.
      now apply String.eqb_neq.
    + intros m. rewrite G2. now destruct (String.eqb (id m) target).
    + cbn [messages setMessages]. unfold updateById. now rewrite map_map.
Qed.

Lemma handleSend_tail (env : SendEnv) (s : AppState) :
  accepted s -> userMsgId env <> reply_id env s ->
  exists before reply,
    from reply = Assistant /\
    messages (handleSend env s)
    = (before ++ [userMsg_of env (Js.trim (input s)); reply])%list.
Proof.
  intros Acc. unfold reply_id. destruct (image_branch s) eqn:D; intros N.
  - rewrite (handleSend_image env s Acc D).
    flow_end (image_env env) (Js.trim (input s))
      (image_entry env (Js.trim (input s)) s) E.
    rewrite E.
    destruct (img_response (image_env env)) as [[d|]|err]; cbn [messages];
      [exists (messages s), (imageMsg_of (image_env env) (Js.trim (input s)) d)
      |exists (messages s), (failureMsg_of (image_env env))
      |exists (messages s), (failureMsg_of (image_env env))];
      (split; [reflexivity|]);
      unfold image_entry, append; cbn [messages setInput setMessages setLastError];
      now rewrite <- app_assoc.
  - rewrite (handleSend_text env s _ (accepted_text_send s Acc D)).
    destruct (for_await_map (assistantMsgId env) (fragments (chat_outcome env))
                "" (loop_entry env (Js.trim (input s)) s)) as (g & G1 & G2 & M).
    assert (K : exists g' : Message -> Message,
              (forall m, id m <> assistantMsgId env -> g' m = m) /\
              (forall m, from (g' m) = from m) /\
              messages (handleSend env s)
              = map g' (messages (loop_entry env (Js.trim (input s)) s))).
    { rewrite (handleSend_text env s _ (accepted_text_send s Acc D)).
      destruct (failure (chat_outcome env)) as [err|].
      - exists (fun m => if String.eqb (id (g m)) (assistantMsgId env)
                         then set_text (COULD_NOT_REACH ++ error_detail err) (g m)
                         else g m).
        split; [|split].
        + intros m X. rewrite (G1 m X). apply String.eqb_neq in X. now rewrite X.
        + intros m. destruct (String.eqb _ _); simpl; apply G2.
        + unfold send_catch. cbn [messages setIsThinking setLastError setMessages].
          rewrite M. unfold updateById. now rewrite map_map.
      - exists g. repeat split; assumption. }
    clear M. destruct K as (g' & K1 & K2 & K).
    rewrite <- (handleSend_text env s _ (accepted_text_send s Acc D)), K.
    rewrite loop_entry_messages, !map_app. cbn [map app].
    exists (map g' (messages s)), (g' (assistantMsg_of env "")).
    split; [now rewrite K2|]. rewrite <- app_assoc. cbn [app].
    rewrite (K1 (userMsg_of env (Js.trim (input s))));
      [reflexivity | exact N].
Qed.

(** X13. A retry after an accepted send sends the same thing again: the
    composer holds the text of that send, a submit is scheduled, and the
    submit is accepted and issues the same request to the same capability
    (provided the ids of the two messages of the send differ). *)
Theorem retry_resends (env : SendEnv) (s : AppState) :
  accepted s -> userMsgId env <> reply_id env s ->
  let s1 := fst (retryLast (handleSend env s)) in
  input s1 = Js.trim (input s) /\
  snd (retryLast (handleSend env s)) <> None /\
  accepted s1 /\ request_of s1 = request_of s /\
  forall env', retry_and_submit env' (handleSend env s) = handleSend env' s1.
Proof.
  intros Acc N s1.
  destruct (handleSend_tail env s Acc N) as (before & reply & R & M).
  assert (B : forall x, In x [reply] -> from x <> User)
    by (intros x [<- | []]; rewrite R; discriminate).
  pose proof (retryLast_found (handleSend env s) before [reply]
                (userMsg_of env (Js.trim (input s))) M eq_refl B) as RL.
  assert (I : input s1 = Js.trim (input s)) by (unfold s1; now rewrite RL).
  assert (C : chatRef s1 = chatRef s).
  { unfold s1. rewrite RL. cbn [fst chatRef setTimers setInput].
    destruct (string_dec (Js.trim (input s)) "") as [X|X];
      [now destruct Acc|].
    clear -Acc. destruct Acc as [N Cn]. unfold handleSend.
    rewrite (truthy_nonempty _ N). destruct (chatRef s) as [c|] eqn:Ec;
      [|congruence]. cbn [negb isSome orb].
    destruct (detectImageIntent (Js.trim (input s))).
    - match goal with |- chatRef (generateImageFlow ?e ?p ?st) = _ =>
        flow_end e p st E; rewrite E end.
      destruct (img_response (image_env env)) as [[d|]|err]; cbn; exact Ec.
    - match goal with |- context [for_await ?t ?a ?c ?st] =>
        pose proof (for_await_shape t c a st) as HL;
        set (L := for_await t a c st) in *; rewrite HL end.
      destruct (failure (chat_outcome env)); cbn; exact Ec. }
  split; [exact I|]. split; [rewrite RL; discriminate|].
  assert (T : Js.trim (input s1) = Js.trim (input s))
    by (rewrite I; apply trim_idem).
  split; [|split].
  - destruct Acc as [A1 A2]. split; [rewrite T; exact A1 | rewrite C; exact A2].
  - unfold request_of, image_branch. rewrite T. reflexivity.
  - intros env'. unfold retry_and_submit, s1. rewrite RL. reflexivity.
Qed.

Lemma retry_resends_witness :
  let s := sample_state "  /img sunset " in
  let env := sample_env (mkChatOutcome [] None) in
  accepted s /\ userMsgId env <> reply_id env s /\
  input (fst (retryLast (handleSend env s))) = "/img sunset".
Proof.
  intros s env.
  assert (Acc : accepted s) by (split; discriminate).
  assert (N : userMsgId env <> reply_id env s) by discriminate.
  split; [exact Acc|]. split; [exact N|].
  exact (proj1 (retry_resends env s Acc N)).
Defined.

(** ** Reading back what [JSON.stringify] wrote *)

Lemma skip_ws_app (w s : string) :
  all_ws w = true -> Json.skip_ws (w ++ s) = Json.skip_ws s.
Proof.
  induction w as [|c w IH]; simpl; [reflexivity|].
  intros H. apply andb_true_iff in H. destruct H as [C W]. rewrite C. now apply IH.
Qed.

Lemma skip_ws_stop (c : ascii) (s : string) :
  Json.is_ws c = false -> Json.skip_ws (String c s) = String c s.
Proof. intros H. simpl. now rewrite H. Qed.

Lemma spaces_ws (n : nat) : all_ws (Stringify.spaces n) = true.
Proof. induction n as [|n IH]; [reflexivity | exact IH]. Qed.

Lemma break_ws (gap depth : nat) : all_ws (Stringify.break gap depth) = true.
Proof. destruct gap; [reflexivity | apply spaces_ws]. Qed.

Lemma parse_value_ws (f : nat) (w s : string) :
  all_ws w = true -> Json.parse_value f (w ++ s) = Json.parse_value f s.
Proof.
  intros W. destruct f as [|f]; [reflexivity|].
  cbn [Json.parse_value]. now rewrite (skip_ws_app w s W).
Qed.

Lemma parse_members_ws (f : nat) (w s : string) :
  all_ws w = true -> Json.parse_members f (w ++ s) = Json.parse_members f s.
Proof.
  intros W. destruct f as [|f]; [reflexivity|].
  cbn [Json.parse_members]. now rewrite (skip_ws_app w s W).
Qed.

(** *** String literals *)

Lemma parse_chars_escape_char (c : ascii) (tail : string) :
  Json.parse_chars (Stringify.escape_char c ++ tail)
  = Json.cons_unit (N_of_ascii c) (Json.parse_chars tail).
Proof.
  destruct c as [[] [] [] [] [] [] [] []]; reflexivity.
Qed.

Lemma parse_chars_escape (s rest : string) :
  Json.parse_chars (Stringify.escape s ++ String Json.dquote rest)
  = Some (Js.units s, rest).
Proof.
  induction s as [|c s IH]; [reflexivity|].
  cbn [Stringify.escape]. rewrite append_assoc, parse_chars_escape_char, IH.
  reflexivity.
Qed.

Lemma parse_value_quote (f : nat) (r : string) :
  Json.parse_value (S f) (String Json.dquote r)
  = match Json.parse_chars r with
    | Some (body, rest) => Some (Json.Str body, rest)
    | None => None
    end.
Proof. reflexivity. Qed.

Lemma reads_string (s : string) :
  reads_as 1 (Stringify.quote s) (json_of_text s).
Proof.
  intros f w rest F W _. destruct f as [|f]; [lia|].
  rewrite (parse_value_ws _ _ _ W). unfold Stringify.quote.
  cbn [String.append]. rewrite parse_value_quote, append_assoc.
  cbn [String.append].
  now rewrite parse_chars_escape.
Qed.

(** *** Numbers *)

Lemma nzhead_head (d d' : Decimal.uint) :
  Decimal.nzhead d <> Decimal.D0 d'.
Proof. induction d; simpl; try discriminate; exact IHd. Qed.

Lemma unorm_head (d d' : Decimal.uint) :
  Decimal.unorm d = Decimal.D0 d' -> d' = Decimal.Nil.
Proof.
  unfold Decimal.unorm. destruct (Decimal.nzhead d) eqn:E;
    try discriminate.
  - now intros [= <-].
  - intros _. now destruct (nzhead_head d u).
Qed.

Lemma to_uint_unorm (p : positive) :
  Decimal.unorm (Pos.to_uint p) = Pos.to_uint p.
Proof.
  rewrite <- DecimalPos.Unsigned.to_of, DecimalPos.Unsigned.of_to.
  reflexivity.
Qed.

Lemma to_uint_head (p : positive) (d' : Decimal.uint) :
  Pos.to_uint p <> Decimal.D0 d'.
Proof.
  intros H. pose proof (to_uint_unorm p) as U. rewrite H in U.
  apply unorm_head in U. subst d'.
  exact (DecimalPos.Unsigned.to_uint_nonzero p H).
Qed.

Lemma span_digits_uint (d : Decimal.uint) (rest : string) :
  number_ends rest = true ->
  Json.span_digits (NilEmpty.string_of_uint d ++ rest)
  = (NilEmpty.string_of_uint d, rest).
Proof.
  intros E. induction d; simpl; try (rewrite IHd; reflexivity).
  destruct rest as [|c r]; [reflexivity|]. simpl in *.
  destruct (Json.is_digit c); [discriminate | reflexivity].
Qed.

Lemma number_tail (rest : string) :
  number_ends rest = true ->
  match rest with
  | "" => True
  | String c _ =>
      Ascii.eqb c "." = false /\ Ascii.eqb c "e" = false /\
      Ascii.eqb c "E" = false
  end.
Proof.
  destruct rest as [|c r]; [easy|]. simpl. rewrite negb_true_iff.
  rewrite !orb_false_iff. tauto.
Qed.

(** The digits of a number that does not begin with 0, then a delimiter. *)
Lemma parse_number_digits (c : ascii) (ds rest : string) :
  Json.is_digit c = true -> Ascii.eqb c "0" = false ->
  Ascii.eqb c "-" = false ->
  Json.span_digits (ds ++ rest) = (ds, rest) ->
  number_ends rest = true ->
  Json.parse_number (String c (ds ++ rest)) = Some (String c ds, rest).
Proof.
  intros D Z M S E. unfold Json.parse_number. rewrite M, Z, D.
  cbn [Json.span_digits]. rewrite D, S.
  pose proof (number_tail rest E) as T.
  destruct rest as [|x r].
  - cbn [String.append]. now rewrite append_empty_r.
  - destruct T as (T1 & T2 & T3). rewrite T1, T2, T3.
    cbn [orb String.append]. now rewrite append_empty_r.
Qed.

Lemma parse_number_negative (c : ascii) (ds rest : string) :
  Json.is_digit c = true -> Ascii.eqb c "0" = false ->
  Json.span_digits (ds ++ rest) = (ds, rest) ->
  number_ends rest = true ->
  Json.parse_number (String "-" (String c (ds ++ rest)))
  = Some (String "-" (String c ds), rest).
Proof.
  intros D Z S E. unfold Json.parse_number. cbn. rewrite Z, D, S.
  pose proof (number_tail rest E) as T.
  destruct rest as [|x r].
  - cbn. now rewrite append_empty_r.
  - destruct T as (T1 & T2 & T3). rewrite T1. cbn. rewrite T2, T3.
    cbn. now rewrite append_empty_r.
Qed.

Lemma parse_number_zero (rest : string) :
  number_ends rest = true ->
  Json.parse_number (String "0" rest) = Some ("0", rest).
Proof.
  intros E. unfold Json.parse_number. cbn.
  pose proof (number_tail rest E) as T.
  destruct rest as [|x r]; [reflexivity|].
  destruct T as (T1 & T2 & T3). rewrite T1. cbn. rewrite T2, T3. reflexivity.
Qed.

Lemma parse_value_numeric (f : nat) (c : ascii) (r : string) :
  Json.is_digit c || Ascii.eqb c "-" = true ->
  Json.parse_value (S f) (String c r)
  = match Json.parse_number (String c r) with
    | Some (lx, rest) => Some (Json.Num lx, rest)
    | None => None
    end.
Proof.
  destruct c as [[] [] [] [] [] [] [] []]; intros H;
    try (exfalso; vm_compute in H; discriminate H); reflexivity.
Qed.

Lemma delimited_number_ends (rest : string) :
  delimited rest = true -> number_ends rest = true.
Proof.
  destruct rest as [|c r]; [reflexivity|]. simpl. revert c.
  intros c H. apply Bool.eqb_prop.
  revert H. apply implb_true_iff. revert c.
  apply (all_ascii_sound (fun c =>
    implb (is_delimiter c)
      (Bool.eqb (negb (Json.is_digit c || Ascii.eqb c "." || Ascii.eqb c "e"
                       || Ascii.eqb c "E")) true))).
  vm_compute. reflexivity.
Qed.

(** The decimal digits of a positive number: a digit that is not 0, then
    digits. *)
Lemma pos_digits (p : positive) :
  exists c ds,
    NilZero.string_of_uint (Pos.to_uint p) = String c ds /\
    Json.is_digit c = true /\ Ascii.eqb c "0" = false /\
    Ascii.eqb c "-" = false /\
    forall rest,
      number_ends rest = true -> Json.span_digits (ds ++ rest) = (ds, rest).
Proof.
  destruct (Pos.to_uint p) as [|d|d|d|d|d|d|d|d|d|d] eqn:E.
  - now destruct (DecimalPos.Unsigned.to_uint_nonnil p).
  - now destruct (to_uint_head p d).
  - exists "1"%char, (NilEmpty.string_of_uint d). repeat split.
    intros rest H. now apply span_digits_uint.
  - exists "2"%char, (NilEmpty.string_of_uint d). repeat split.
    intros rest H. now apply span_digits_uint.
  - exists "3"%char, (NilEmpty.string_of_uint d). repeat split.
    intros rest H. now apply span_digits_uint.
  - exists "4"%char, (NilEmpty.string_of_uint d). repeat split.
    intros rest H. now apply span_digits_uint.
  - exists "5"%char, (NilEmpty.string_of_uint d). repeat split.
    intros rest H. now apply span_digits_uint.
  - exists "6"%char, (NilEmpty.string_of_uint d). repeat split.
    intros rest H. now apply span_digits_uint.
  - exists "7"%char, (NilEmpty.string_of_uint d). repeat split.
    intros rest H. now apply span_digits_uint.
  - exists "8"%char, (NilEmpty.string_of_uint d). repeat split.
    intros rest H. now apply span_digits_uint.
  - exists "9"%char, (NilEmpty.string_of_uint d). repeat split.
    intros rest H. now apply span_digits_uint.
Qed.

Lemma reads_number (z : Z) :
  reads_as 1 (string_of_Z z) (Json.Num (string_of_Z z)).
Proof.
  intros f w rest F W D. destruct f as [|f]; [lia|].
  rewrite (parse_value_ws _ _ _ W).
  apply delimited_number_ends in D. unfold string_of_Z.
  destruct z as [|p|p]; cbn [Z.to_int NilZero.string_of_int].
  - change (NilZero.string_of_uint (Decimal.D0 Decimal.Nil)) with "0".
    cbn [String.append]. rewrite parse_value_numeric by reflexivity.
    now rewrite parse_number_zero.
  - destruct (pos_digits p) as (c & ds & -> & Dg & Z & M & S).
    cbn [String.append]. rewrite parse_value_numeric by (now rewrite Dg).
    now rewrite (parse_number_digits c ds rest Dg Z M (S rest D) D).
  - destruct (pos_digits p) as (c & ds & -> & Dg & Z & M & S).
    cbn [String.append]. rewrite parse_value_numeric by reflexivity.
    now rewrite (parse_number_negative c ds rest Dg Z (S rest D) D).
Qed.

(** *** Objects and arrays *)

Lemma join_items (sep : string) (items : list string) (closing : string) :
  Stringify.join (String "," sep) items ++ closing
  = items_text sep items closing.
Proof.
  induction items as [|x items IH]; [reflexivity|].
  destruct items as [|y items]; [reflexivity|].
  change (Stringify.join (String "," sep) (x :: y :: items))
    with (x ++ String "," sep ++ Stringify.join (String "," sep) (y :: items)).
  change (items_text sep (x :: y :: items) closing)
    with (x ++ String "," (sep ++ items_text sep (y :: items) closing)).
  rewrite <- IH, !append_assoc. reflexivity.
Qed.

Lemma parse_members_step (f : nat) (key tail : string) :
  Json.parse_members (S f) (Stringify.quote key ++ tail)
  = match Json.skip_ws tail with
    | String c r2 =>
        if Ascii.eqb c ":" then
          match Json.parse_value f r2 with
          | None => None
          | Some (v, r3) =>
              match Json.skip_ws r3 with
              | String d r4 =>
                  if Ascii.eqb d "," then
                    match Json.parse_members f r4 with
                    | Some (ms, rest) => Some ((Js.units key, v) :: ms, rest)
                    | None => None
                    end
                  else if Ascii.eqb d "}" then Some ([(Js.units key, v)], r4)
                  else None
              | "" => None
              end
          end
        else None
    | "" => None
    end.
Proof.
  unfold Stringify.quote. cbn [String.append]. rewrite append_assoc.
  cbn [String.append].
  change (Json.parse_members (S f)
            (String Json.dquote
               (Stringify.escape key ++ String Json.dquote tail)))
    with (match Json.parse_chars
                  (Stringify.escape key ++ String Json.dquote tail) with
          | None => None
          | Some (key0, r1) =>
              match Json.skip_ws r1 with
              | String c r2 =>
                  if Ascii.eqb c ":" then
                    match Json.parse_value f r2 with
                    | None => None
                    | Some (v, r3) =>
                        match Json.skip_ws r3 with
                        | String d r4 =>
                            if Ascii.eqb d "," then
                              match Json.parse_members f r4 with
                              | Some (ms, rest) => Some ((key0, v) :: ms, rest)
                              | None => None
                              end
                            else if Ascii.eqb d "}" then Some ([(key0, v)], r4)
                            else None
                        | "" => None
                        end
                    end
                  else None
              | "" => None
              end
          end).
  now rewrite parse_chars_escape.
Qed.

Lemma colon_shape (gap : nat) :
  exists pad, Stringify.colon gap = String ":" pad /\ all_ws pad = true.
Proof. destruct gap; [now exists "" | now exists " "]. Qed.

Lemma delimited_app_ws (w : string) (c : ascii) (r : string) :
  all_ws w = true -> is_delimiter c = true -> delimited (w ++ String c r) = true.
Proof.
  destruct w as [|x w]; simpl; intros W C; [exact C|].
  apply andb_true_iff in W. unfold is_delimiter. now rewrite (proj1 W).
Qed.

Lemma skip_ws_to (w : string) (c : ascii) (r : string) :
  all_ws w = true -> Json.is_ws c = false ->
  Json.skip_ws (w ++ String c r) = String c r.
Proof.
  intros W C. rewrite (skip_ws_app _ _ W). now apply skip_ws_stop.
Qed.

(** The members of an object, up to its closing brace. *)
Lemma parse_members_fields (gap : nat) (sep cw : string) :
  all_ws sep = true -> all_ws cw = true ->
  forall fields,
    fields <> [] ->
    (forall fl, In fl fields -> reads_as 1 (snd (fst fl)) (snd fl)) ->
    forall f w rest,
      List.length fields + 1 <= f -> all_ws w = true ->
      Json.parse_members f
        (w ++ items_text sep (map (field_text gap) fields)
                (cw ++ String "}" rest))
      = Some (map field_value fields, rest).
Proof.
  intros Hsep Hcw. induction fields as [|fl fields IH]; [easy|].
  intros _ R f w rest F W. rewrite (parse_members_ws _ _ _ W).
  destruct f as [|f]; [simpl in F; lia|].
  destruct fl as [[key txt] v].
  destruct (colon_shape gap) as (pad & Cg & Pw).
  assert (Rv : reads_as 1 txt v) by (apply (R (key, txt, v)); now left).
  destruct fields as [|fl2 fields].
  - cbn [map items_text]. unfold field_text, Stringify.member. cbn [fst snd].
    rewrite !append_assoc, parse_members_step, Cg. cbn [String.append].
    rewrite skip_ws_stop by reflexivity.
    change (Ascii.eqb ":" ":") with true. cbv iota.
    rewrite (Rv f pad (cw ++ String "}" rest));
      [|simpl in F; lia | exact Pw | now apply delimited_app_ws].
    rewrite (skip_ws_to cw "}" rest Hcw eq_refl). reflexivity.
  - change (items_text sep (map (field_text gap) ((key, txt, v) :: fl2 :: fields))
              (cw ++ String "}" rest))
      with (field_text gap (key, txt, v)
            ++ String "," (sep ++ items_text sep
                 (map (field_text gap) (fl2 :: fields)) (cw ++ String "}" rest))).
    unfold field_text at 1, Stringify.member. cbn [fst snd].
    rewrite !append_assoc, parse_members_step, Cg. cbn [String.append].
    rewrite skip_ws_stop by reflexivity.
    change (Ascii.eqb ":" ":") with true. cbv iota.
    rewrite (Rv f pad (String "," _)); [|simpl in F; lia | exact Pw | reflexivity].
    rewrite skip_ws_stop by reflexivity.
    change (Ascii.eqb "," ",") with true. cbv iota.
    rewrite (IH ltac:(discriminate) (fun x Hx => R x (or_intror Hx)) f sep rest);
      [reflexivity | simpl in *; lia | exact Hsep].
Qed.

Lemma enclose_items (o c : ascii) (gap depth : nat) (items : list string)
    (rest : string) :
  items <> [] ->
  Stringify.enclose (String o "") (String c "") gap depth items ++ rest
  = String o
      (Stringify.break gap depth
       ++ items_text (Stringify.break gap depth) items
            (Stringify.break gap (depth - 1) ++ String c rest)).
Proof.
  intros N. unfold Stringify.enclose. destruct items as [|x items]; [easy|].
  cbn [String.append]. rewrite !append_assoc. cbn [String.append].
  now rewrite join_items.
Qed.

Lemma parse_value_brace (f : nat) (r : string) :
  Json.parse_value (S f) (String "{" r)
  = match Json.skip_ws r with
    | String c1 r1 =>
        if Ascii.eqb c1 "}" then Some (Json.Obj [], r1)
        else
          match Json.parse_members f (String c1 r1) with
          | Some (ms, rest) => Some (Json.Obj ms, rest)
          | None => None
          end
    | "" => None
    end.
Proof. reflexivity. Qed.

Lemma parse_value_bracket (f : nat) (r : string) :
  Json.parse_value (S f) (String "[" r)
  = match Json.skip_ws r with
    | String c1 r1 =>
        if Ascii.eqb c1 "]" then Some (Json.Arr [], r1)
        else
          match Json.parse_elems f (String c1 r1) with
          | Some (vs, rest) => Some (Json.Arr vs, rest)
          | None => None
          end
    | "" => None
    end.
Proof. reflexivity. Qed.

Lemma message_items (gap : nat) (m : Message) :
  Stringify.message gap m
  = Stringify.enclose "{" "}" gap 2 (map (field_text gap) (fields_of m)).
Proof.
  unfold Stringify.message, fields_of.
  destruct (image m), (ts m); reflexivity.
Qed.

Lemma message_value (m : Message) :
  json_of_message m = Json.Obj (map field_value (fields_of m)).
Proof.
  unfold json_of_message, fields_of. destruct (image m), (ts m); reflexivity.
Qed.

Lemma fields_read (m : Message) (fl : Field) :
  In fl (fields_of m) -> reads_as 1 (snd (fst fl)) (snd fl).
Proof.
  unfold fields_of. rewrite !in_app_iff. simpl.
  intros [[<- | [<- | [<- | []]]] | [I | I]]; try apply reads_string.
  - destruct (image m); [|easy]. destruct I as [<- | []]. apply reads_string.
  - destruct (ts m); [|easy]. destruct I as [<- | []]. apply reads_number.
Qed.

Lemma fields_count (m : Message) :
  3 <= List.length (fields_of m) <= 5.
Proof.
  unfold fields_of. destruct (image m), (ts m); simpl; lia.
Qed.

Lemma fields_start (gap : nat) (sep closing : string) (m : Message) :
  exists tl,
    items_text sep (map (field_text gap) (fields_of m)) closing
    = String Json.dquote tl.
Proof.
  unfold fields_of. cbn [map app items_text].
  unfold field_text at 1, Stringify.member, Stringify.quote.
  cbn [fst snd String.append]. eexists. reflexivity.
Qed.

(** A message is read back from its text. *)
Lemma reads_message (gap : nat) (m : Message) :
  reads_as 7 (Stringify.message gap m) (json_of_message m).
Proof.
  intros f w rest F W D. rewrite (parse_value_ws _ _ _ W).
  destruct f as [|f]; [lia|].
  pose proof (fields_count m) as C.
  rewrite message_items, enclose_items
    by (destruct (fields_of m); [simpl in C; lia | discriminate]).
  rewrite parse_value_brace, (skip_ws_app _ _ (break_ws gap 2)).
  destruct (fields_start gap (Stringify.break gap 2)
              (Stringify.break gap (2 - 1) ++ String "}" rest) m) as (tl & E).
  rewrite E, skip_ws_stop by reflexivity.
  change (Ascii.eqb Json.dquote "}") with false. cbv iota. rewrite <- E.
  pose proof (parse_members_fields gap (Stringify.break gap 2)
                (Stringify.break gap (2 - 1)) (break_ws gap 2)
                (break_ws gap (2 - 1)) (fields_of m)) as P.
  assert (N : fields_of m <> [])
    by (destruct (fields_of m); [simpl in C; lia | discriminate]).
  assert (L : List.length (fields_of m) + 1 <= f) by lia.
  specialize (P N (fields_read m) f "" rest L eq_refl).
  change ("" ++ ?x) with x in P. rewrite P.
  now rewrite message_value.
Qed.

(** The elements of an array, up to its closing bracket. *)
Lemma parse_elems_items (k : nat) (sep cw : string) :
  all_ws sep = true -> all_ws cw = true ->
  forall items : list (string * Json.value),
    items <> [] ->
    (forall it, In it items -> reads_as k (fst it) (snd it)) ->
    forall f w rest,
      List.length items + k <= f -> all_ws w = true ->
      Json.parse_elems f
        (w ++ items_text sep (map fst items) (cw ++ String "]" rest))
      = Some (map snd items, rest).
Proof.
  intros Hsep Hcw. induction items as [|[txt v] items IH]; [easy|].
  intros _ R f w rest F W.
  destruct f as [|f]; [simpl in F; lia|].
  assert (Rv : reads_as k txt v) by (apply (R (txt, v)); now left).
  destruct items as [|it2 items].
  - cbn [map items_text fst snd]. cbn [Json.parse_elems].
    rewrite (Rv f w (cw ++ String "]" rest));
      [|simpl in F; lia | exact W | now apply delimited_app_ws].
    rewrite (skip_ws_to cw "]" rest Hcw eq_refl). reflexivity.
  - change (items_text sep (map fst ((txt, v) :: it2 :: items))
              (cw ++ String "]" rest))
      with (txt ++ String "," (sep ++ items_text sep (map fst (it2 :: items))
                                 (cw ++ String "]" rest))).
    cbn [Json.parse_elems].
    rewrite (Rv f w (String "," _)); [|simpl in F; lia | exact W | reflexivity].
    rewrite skip_ws_stop by reflexivity.
    change (Ascii.eqb "," ",") with true. cbv iota.
    rewrite (IH ltac:(discriminate) (fun x Hx => R x (or_intror Hx)) f sep rest);
      [reflexivity | simpl in *; lia | exact Hsep].
Qed.

(** *** The whole log *)

Lemma items_text_length (sep closing : string) (items : list string) :
  (forall x, In x items -> 2 <= String.length x) ->
  String.length closing + 2 * List.length items
  <= String.length (items_text sep items closing).
Proof.
  induction items as [|x items IH]; intros H; [simpl; lia|].
  assert (Hx : 2 <= String.length x) by (apply H; now left).
  specialize (IH (fun y Hy => H y (or_intror Hy))).
  destruct items as [|y items].
  - cbn [items_text]. rewrite string_length_app. simpl. lia.
  - change (items_text sep (x :: y :: items) closing)
      with (x ++ String "," (sep ++ items_text sep (y :: items) closing)).
    rewrite string_length_app. cbn [String.length].
    rewrite string_length_app. simpl List.length in *. lia.
Qed.

Lemma message_start (gap : nat) (m : Message) :
  exists tl, Stringify.message gap m = String "{" tl.
Proof.
  unfold Stringify.message, Stringify.enclose. cbn [app String.append].
  eexists. reflexivity.
Qed.

Lemma message_length (gap : nat) (m : Message) :
  2 <= String.length (Stringify.message gap m).
Proof.
  rewrite <- (append_empty_r (Stringify.message gap m)).
  pose proof (fields_count m) as C.
  rewrite message_items, enclose_items
    by (destruct (fields_of m); [simpl in C; lia | discriminate]).
  cbn [String.length]. rewrite string_length_app.
  assert (X : forall sep closing items,
            String.length closing
            <= String.length (items_text sep items closing)).
  { clear. intros sep closing items. induction items as [|x items IH];
      [simpl; lia|].
    destruct items as [|y items].
    - cbn [items_text]. rewrite string_length_app. lia.
    - change (items_text sep (x :: y :: items) closing)
        with (x ++ String "," (sep ++ items_text sep (y :: items) closing)).
      rewrite string_length_app. cbn [String.length].
      rewrite string_length_app. lia. }
  specialize (X (Stringify.break gap 2) (Stringify.break gap (2 - 1) ++ "}")
                (map (field_text gap) (fields_of m))).
  rewrite string_length_app in X. cbn [String.length] in X. lia.
Qed.

(** [JSON.parse] reads the text of a log back as the log, with or without
    indentation. *)
Lemma parse_stringify (gap : nat) (l : list Message) :
  Json.parse (Stringify.log gap l) = Some (json_of_log l).
Proof.
  destruct l as [|m0 l0] eqn:El; [reflexivity|]. rewrite <- El.
  assert (N : l <> []) by (rewrite El; discriminate).
  set (items := map (fun m => (Stringify.message gap m, json_of_message m)) l).
  assert (Ef : map fst items = map (Stringify.message gap) l)
    by (unfold items; rewrite map_map; reflexivity).
  assert (Es : map snd items = map json_of_message l)
    by (unfold items; rewrite map_map; reflexivity).
  assert (Ni : map (Stringify.message gap) l <> [])
    by (rewrite El; discriminate).
  unfold Json.parse, Stringify.log.
  set (text := Stringify.enclose "[" "]" gap 1 (map (Stringify.message gap) l)).
  assert (T : text
              = String "["
                  (Stringify.break gap 1
                   ++ items_text (Stringify.break gap 1)
                        (map (Stringify.message gap) l)
                        (Stringify.break gap (1 - 1) ++ "]"))).
  { rewrite <- (append_empty_r text). unfold text.
    now rewrite enclose_items. }
  assert (Len : List.length items + 7 <= 2 * String.length text + 1).
  { rewrite T. cbn [String.length]. rewrite string_length_app.
    pose proof (items_text_length (Stringify.break gap 1)
                  (Stringify.break gap (1 - 1) ++ "]")
                  (map (Stringify.message gap) l)) as L.
    rewrite string_length_app in L. cbn [String.length] in L.
    rewrite length_map in L. unfold items. rewrite length_map.
    assert (1 <= List.length l) by (rewrite El; simpl; lia).
    specialize (L ltac:(intros x Hx; apply in_map_iff in Hx;
                        destruct Hx as (m & <- & _); apply message_length)).
    lia. }
  replace (2 * String.length text + 2) with (S (2 * String.length text + 1))
    by lia.
  rewrite T at 2. rewrite parse_value_bracket, (skip_ws_app _ _ (break_ws gap 1)).
  assert (St : exists tl,
            items_text (Stringify.break gap 1) (map (Stringify.message gap) l)
              (Stringify.break gap (1 - 1) ++ "]") = String "{" tl).
  { rewrite El. destruct (message_start gap m0) as (tl & E).
    destruct l0; cbn [map items_text]; rewrite E; cbn [String.append];
      eexists; reflexivity. }
  destruct St as (tl & E). rewrite E, skip_ws_stop by reflexivity.
  change (Ascii.eqb "{" "]") with false. cbv iota. rewrite <- E, <- Ef.
  pose proof (parse_elems_items 7 (Stringify.break gap 1)
                (Stringify.break gap (1 - 1)) (break_ws gap 1)
                (break_ws gap (1 - 1)) items) as P.
  assert (Nit : items <> []) by (unfold items; rewrite El; discriminate).
  assert (R : forall it, In it items -> reads_as 7 (fst it) (snd it)).
  { intros it Hit. unfold items in Hit. apply in_map_iff in Hit.
    destruct Hit as (m & <- & _). apply reads_message. }
  specialize (P Nit R (2 * String.length text + 1) "" "" Len eq_refl).
  change ("" ++ ?x) with x in P. rewrite P, Es. reflexivity.
Qed.

(** ** Saving, loading and exporting the history *)

(** X14. What [saveHistory] writes, [loadHistory] reads back as the same
    log: for every log, the empty one included, whatever characters its
    texts hold (quotes, backslashes, control characters) and whether images
    and timestamps are set. So the component mounted on the store the
    persistence effect wrote starts with the log it had. A write that fails
    changes nothing. *)
Theorem save_load_roundtrip (log : list Message) (s : AppState)
    (newId : string) :
  Json.parse (Stringify.log 0 log) = Some (json_of_log log) /\
  loadHistory (storage (saveHistory true log s)) newId = json_of_log log /\
  log_of_json (loadHistory (storage (saveHistory true log s)) newId)
  = Some log /\
  option_map messages (mount (storage (persist true s)) newId)
  = Some (messages s) /\
  saveHistory false log s = s.
Proof.
  assert (L : forall l st,
            loadHistory (storage (saveHistory true l st)) newId = json_of_log l).
  { intros l st. cbn [saveHistory storage setStorage].
    apply loadHistory_parsed, parse_stringify. }
  split; [apply parse_stringify|]. split; [apply L|].
  split; [rewrite L; apply log_json_roundtrip|]. split; [|reflexivity].
  unfold mount, persist. rewrite L, log_json_roundtrip. reflexivity.
Qed.

(** X15. The text [exportHistory] offers for download is JSON that reads
    back as the log on screen, message by message. *)
Theorem export_roundtrip (s : AppState) :
  Json.parse (exportHistory s) = Some (json_of_log (messages s)) /\
  log_of_json (json_of_log (messages s)) = Some (messages s).
Proof.
  split; [apply parse_stringify | apply log_json_roundtrip].
Qed.

Lemma mount_persist (s : AppState) (newId : string) :
  option_map messages (mount (storage (persist true s)) newId)
  = Some (messages s).
Proof.
  unfold mount, persist. cbn [saveHistory storage setStorage].
  rewrite (loadHistory_parsed _ _ newId (parse_stringify 0 (messages s))).
  now rewrite log_json_roundtrip.
Qed.

(** X16. A store the component itself wrote never loads as an empty log:
    from a log that is not empty, after any sequence of appends, updates and
    resets followed by the persistence effect, mounting the component on the
    store gives the log as it was, which is not empty. *)
Theorem reload_keeps_log (ops : list LogOp) (s : AppState) (newId : string) :
  messages s <> [] ->
  let s' := persist true (run_ops ops s) in
  option_map messages (mount (storage s') newId)
  = Some (messages (run_ops ops s)) /\
  messages (run_ops ops s) <> [].
Proof.
  intros N s'. split; [apply mount_persist | now apply run_ops_nonempty].
Qed.

Lemma reload_keeps_log_witness :
  let s := sample_state "" in
  let ops := [Append (mkMessage "u1" User "say hi \ now" None (Some 12%Z));
              UpdateById "u1" "edited"; ResetLog "w9";
              Append (mkMessage "g1" Assistant "pic" (Some "data:x") None)] in
  messages s <> [] /\
  option_map messages (mount (storage (persist true (run_ops ops s))) "n1")
  = Some [welcome "w9"; mkMessage "g1" Assistant "pic" (Some "data:x") None].
Proof.
  intros s ops.
  assert (N : messages s <> []) by discriminate.
  split; [exact N|]. exact (proj1 (reload_keeps_log ops s "n1" N)).
Defined.

(** ** The context rebuilt from the log *)

Lemma handleSend_text_messages (env : SendEnv) (s : AppState) :
  accepted s -> image_branch s = false -> fresh_ids env s ->
  messages (handleSend env s)
  = (messages s ++ [userMsg_of env (Js.trim (input s));
                    assistantMsg_of env (reply_text env)])%list.
Proof.
  intros Acc D FR.
  pose proof (accepted_text_send s Acc D) as TS.
  pose proof (fresh_base env s (Js.trim (input s)) FR) as FB.
  rewrite (handleSend_text env s _ TS). unfold reply_text.
  destruct (failure (chat_outcome env)) as [err|].
  - unfold send_catch. cbn [messages setIsThinking setLastError setMessages].
    rewrite (loop_exit_messages env s (Js.trim (input s)) FR). unfold assistantMsg_of.
    rewrite (update_last _ _ _ _ _ _ _ FB). now rewrite <- app_assoc.
  - cbn [messages setIsThinking].
    rewrite (loop_exit_messages env s (Js.trim (input s)) FR). now rewrite <- app_assoc.
Qed.

Lemma handleSend_image_messages (env : SendEnv) (s : AppState) :
  accepted s -> image_branch s = true ->
  messages (handleSend env s)
  = (messages s ++
     [userMsg_of env (Js.trim (input s));
      match img_response (image_env env) with
      | Resolved (Some d) => imageMsg_of (image_env env) (Js.trim (input s)) d
      | _ => failureMsg_of (image_env env)
      end])%list.
Proof.
  intros Acc D. rewrite (handleSend_image env s Acc D).
  flow_end (image_env env) (Js.trim (input s))
    (image_entry env (Js.trim (input s)) s) E.
  rewrite E.
  destruct (img_response (image_env env)) as [[d|]|err]; cbn [messages];
    unfold image_entry, append; cbn [messages setInput setMessages setLastError];
    now rewrite <- app_assoc.
Qed.

Lemma chatHistory_app (l extra : list Message) :
  l <> [] ->
  chatHistory (l ++ extra)
  = (chatHistory l ++ map turn_of (filter no_image extra))%list.
Proof.
  intros N. unfold chatHistory. destruct l as [|m l]; [easy|].
  cbn [app skipn]. now rewrite filter_app, map_app.
Qed.

(** X17. The context built from the log grows with a send as the exchange
    went: the user's turn with the trimmed input, then the assistant's turn
    with the reply (the concatenated fragments, or the error text, or the
    failure caption of the image flow); a delivered image adds no turn of
    the assistant. For a text send this is under the condition that the id
    generated for the assistant message is carried by no message of the log
    and is not the id of the user's message (a message that carried it
    would be rewritten, and its turn with it); an image send needs no
    condition. This holds from a log that is not empty; from an empty log
    the user's turn is the one the context drops. *)
Theorem chatHistory_after_send (env : SendEnv) (s : AppState) :
  accepted s -> (image_branch s = false -> fresh_ids env s) ->
  (messages s <> [] ->
   chatHistory (messages (handleSend env s))
   = (chatHistory (messages s)
      ++ (RoleUser, Js.trim (input s)) :: reply_turns env s)%list) /\
  (messages s = [] ->
   chatHistory (messages (handleSend env s)) = reply_turns env s).
Proof.
  intros Acc FR.
  assert (M : exists reply,
            messages (handleSend env s)
            = (messages s ++ [userMsg_of env (Js.trim (input s)); reply])%list /\
            map turn_of (filter no_image [reply]) = reply_turns env s).
  { unfold reply_turns. destruct (image_branch s) eqn:D.
    - eexists. split; [apply (handleSend_image_messages env s Acc D)|].
      destruct (img_response (image_env env)) as [[d|]|err]; reflexivity.
    - eexists. split;
        [apply (handleSend_text_messages env s Acc D (FR eq_refl))|].
      reflexivity. }
  destruct M as (reply & M & T). rewrite M. split.
  - intros N. rewrite (chatHistory_app _ _ N). f_equal.
    change (filter no_image [userMsg_of env (Js.trim (input s)); reply])
      with (userMsg_of env (Js.trim (input s)) :: filter no_image [reply]).
    cbn [map]. now rewrite T.
  - intros ->. unfold chatHistory. cbn [app skipn]. exact T.
Qed.

Lemma chatHistory_after_send_witness :
  let s := sample_state "hello there" in
  let env := sample_env (mkChatOutcome ["Hel"; "lo"] None) in
  accepted s /\
  chatHistory (messages (handleSend env s))
  = [(RoleUser, "hello there"); (RoleModel, "Hello")].
Proof.
  intros s env.
  assert (Acc : accepted s) by (split; discriminate).
  assert (FR : image_branch s = false -> fresh_ids env s)
    by (intros _; split; [intros [H|[]]; discriminate | discriminate]).
  split; [exact Acc|].
  exact (proj1 (chatHistory_after_send env s Acc FR) ltac:(discriminate)).
Defined.

(** ** The proxy *)

Lemma image_error_nonempty (err : Thrown) : Server.image_error err <> "".
Proof.
  unfold Server.image_error. destruct (message err) as [m|]; [|discriminate].
  destruct m; simpl; discriminate.
Qed.

(** X18. [POST /api/image] answers 400 exactly when the prompt is missing or
    empty, and then calls nothing; otherwise it calls the image capability
    once and answers 200 exactly when the answer carries inline data, with
    the data URI the component itself would show, and 500 with a non-empty
    error text in every other case. The prompt sent on names the style
    given, and Cinematic when none is. *)
Theorem api_image_outcomes (prompt style : Server.Seen)
    (answer : ImageResponse) :
  let res := fst (Server.api_image prompt style answer) in
  let calls := snd (Server.api_image prompt style answer) in
  (Server.status res = 400 <-> Server.truthy prompt = false) /\
  (Server.status res = 200 <->
   Server.truthy prompt = true /\ has_inline_data answer = true) /\
  (Server.status res = 400 \/ Server.status res = 200 \/
   Server.status res = 500) /\
  (Server.truthy prompt = false -> calls = []) /\
  (Server.truthy prompt = true ->
   calls = [Server.GenerateImage
              (Server.shown prompt ++ ", "
               ++ (if Server.truthy style then Server.shown style
                   else "Cinematic")
               ++ " style, high detail, masterpiece")]) /\
  (Server.status res <> 200 ->
   exists e, Server.body res = Server.ErrorBody e /\ e <> "") /\
  (forall d env text,
     Server.truthy prompt = true -> answer = Resolved (Some d) ->
     Some (Server.body res)
     = option_map Server.ImageBody (image (imageMsg_of env text d))).
Proof.
  unfold Server.api_image. destruct (Server.truthy prompt) eqn:T; cbn [negb].
  - destruct answer as [[d|]|err]; cbn [fst snd Server.status Server.body].
    + split; [split; discriminate|]. split; [now split|].
      split; [tauto|]. split; [discriminate|]. split; [reflexivity|].
      split; [congruence|]. intros d' env text _ [= ->]. reflexivity.
    + split; [split; discriminate|].
      split; [split; [discriminate | intros [_ X]; discriminate]|].
      split; [tauto|]. split; [discriminate|]. split; [reflexivity|].
      split; [|intros d' env text _ [=]].
      intros _. eexists. split; [reflexivity | apply image_error_nonempty].
    + split; [split; discriminate|].
      split; [split; [discriminate | intros [_ X]; discriminate]|].
      split; [tauto|]. split; [discriminate|]. split; [reflexivity|].
      split; [|intros d' env text _ [=]].
      intros _. eexists. split; [reflexivity | apply image_error_nonempty].
  - cbn [fst snd Server.status Server.body].
    split; [now split|].
    split; [split; [discriminate | intros [X _]; discriminate]|].
    split; [tauto|]. split; [reflexivity|]. split; [discriminate|].
    split; [|intros d env text X; discriminate].
    intros _. eexists. split; [reflexivity | discriminate].
Qed.

Lemma api_image_outcomes_witness :
  let prompt := Server.of_text "a red fox" in
  Server.truthy prompt = true /\
  snd (Server.api_image prompt Server.undefined (Resolved None))
  = [Server.GenerateImage "a red fox, Cinematic style, high detail, masterpiece"] /\
  Server.status (fst (Server.api_image prompt Server.undefined (Resolved None)))
  = 500.
Proof.
  intros prompt. split; [reflexivity|]. split; [|reflexivity].
  destruct (api_image_outcomes prompt Server.undefined (Resolved None))
    as (_ & _ & _ & _ & C & _).
  exact (C eq_refl).
Defined.

(** X19. [POST /api/chat] answers 400 exactly when the message is missing or
    empty, and then calls nothing; otherwise it calls the chat capability
    once and answers 200 with the reply exactly when the call returns, and
    500 exactly when it fails. The 500 answer is the same whatever the
    failure was: unlike the image endpoint, which passes the error's
    message on, the chat endpoint shows nothing of it. *)
Theorem api_chat_outcomes (hist msg : Server.Seen)
    (answer : Server.ChatAnswer) :
  let response := fst (Server.api_chat hist msg answer) in
  let calls := snd (Server.api_chat hist msg answer) in
  (Server.status response = 400 <-> Server.truthy msg = false) /\
  (Server.status response = 200 <->
   Server.truthy msg = true /\ exists t, answer = Server.Replied t) /\
  (Server.status response = 500 <->
   Server.truthy msg = true /\ exists err, answer = Server.ChatFailed err) /\
  (Server.truthy msg = false ->
   response = Server.mkResponse 400 (Server.ErrorBody "Message is required") /\
   calls = []) /\
  (Server.truthy msg = true ->
   calls = [Server.SendMessage (Server.truthy hist) msg]) /\
  (forall t,
     Server.truthy msg = true -> answer = Server.Replied t ->
     response = Server.mkResponse 200 (Server.ReplyBody t)) /\
  (forall err,
     Server.truthy msg = true -> answer = Server.ChatFailed err ->
     response
     = Server.mkResponse 500
         (Server.ErrorBody "Failed to get response from AI")) /\
  (forall prompt style m m',
     Server.truthy prompt = true -> m <> "" -> m' <> "" -> m <> m' ->
     Server.api_image prompt style (Rejected (new_Error m))
     <> Server.api_image prompt style (Rejected (new_Error m'))).
Proof.
  intros response calls. unfold response, calls, Server.api_chat.
  split; [|split; [|split; [|split; [|split; [|split; [|split]]]]]].
  - destruct (Server.truthy msg), answer; cbn; split; intros H;
      try reflexivity; discriminate.
  - destruct (Server.truthy msg), answer as [t|err]; cbn; split;
      try discriminate; try reflexivity.
    + intros _. split; [reflexivity | now exists t].
    + intros [_ [t X]]. discriminate.
    + intros [X _]. discriminate.
    + intros [X _]. discriminate.
  - destruct (Server.truthy msg), answer as [t|err]; cbn; split;
      try discriminate; try reflexivity.
    + intros [_ [e X]]. discriminate.
    + intros _. split; [reflexivity | now exists err].
    + intros [X _]. discriminate.
    + intros [X _]. discriminate.
  - intros T. rewrite T. now split.
  - intros T. rewrite T. now destruct answer.
  - intros t T ->. now rewrite T.
  - intros err T ->. now rewrite T.
  - intros prompt style m m' T M M' D. unfold Server.api_image. rewrite T.
    cbn [negb]. unfold Server.image_error, new_Error. cbn [message].
    destruct m as [|c r]; [congruence|]. destruct m' as [|c' r']; [congruence|].
    cbn [Js.or_else Js.truthy]. intros [= X Y]. apply D. congruence.
Qed.

Lemma api_chat_outcomes_witness :
  let msg := Server.of_text "hello" in
  let failed := Server.ChatFailed (new_Error "quota exceeded") in
  Server.truthy msg = true /\
  Server.api_chat Server.undefined msg failed
  = (Server.mkResponse 500 (Server.ErrorBody "Failed to get response from AI"),
     [Server.SendMessage false msg]) /\
  Server.status (fst (Server.api_chat Server.undefined msg failed)) = 500.
Proof.
  intros msg failed. split; [reflexivity|]. split; [reflexivity|].
  apply (proj1 (proj2 (proj2 (api_chat_outcomes Server.undefined msg failed)))).
  split; [reflexivity | now eexists].
Defined.

(** ** Voice input *)

Lemma run_app (supported : bool) (acts : list Voice.Action) :
  forall v,
    Voice.app (Voice.run supported acts v)
    = setInput
        (fold_left (fun prev t => Voice.heard t prev) (transcripts acts)
           (input (Voice.app v)))
        (Voice.app v).
Proof.
  unfold Voice.run. induction acts as [|a acts IH]; intros v.
  - simpl. now destruct (Voice.app v).
  - cbn [fold_left]. rewrite IH.
    destruct a; cbn [transcripts fold_left Voice.step]; try reflexivity.
    unfold Voice.toggleListening, Voice.stopListening, Voice.startListening.
    destruct (Voice.listening v), (Voice.speechRef v), supported; reflexivity.
Qed.

Lemma heard_all (ts : list string) :
  Forall (fun t => t <> "") ts ->
  forall prev,
    prev <> "" ->
    fold_left (fun p t => Voice.heard t p) ts prev
    = prev ++ fold_right (fun t acc => " " ++ t ++ acc) "" ts.
Proof.
  induction 1 as [|t ts T _ IH]; intros prev P; simpl.
  - now rewrite append_empty_r.
  - unfold Voice.heard at 2. rewrite (truthy_nonempty _ P).
    rewrite IH; [|destruct prev; [congruence | discriminate]].
    rewrite !append_assoc. reflexivity.
Qed.

Lemma heard_prefix (ts : list string) :
  forall prev,
    exists added,
      fold_left (fun p t => Voice.heard t p) ts prev = prev ++ added.
Proof.
  induction ts as [|t ts IH]; intros prev.
  - exists "". simpl. now rewrite append_empty_r.
  - simpl. destruct (IH (Voice.heard t prev)) as (added & E). rewrite E.
    unfold Voice.heard. destruct prev as [|c prev].
    + now exists (t ++ added).
    + exists (" " ++ t ++ added). simpl. now rewrite !append_assoc.
Qed.

(** X20. Voice input only ever adds to the composer: whatever the user
    toggles and whatever events the recognizers send, the text typed before
    stays at the beginning of the composer and nothing else of the
    component's state changes; transcripts that are not empty are appended
    in the order heard, each after one space (the first one without, when
    the composer was empty). *)
Theorem voice_appends (supported : bool) (acts : list Voice.Action)
    (v : Voice.State) :
  let v' := Voice.run supported acts v in
  (exists added,
     Voice.app v' = setInput (input (Voice.app v) ++ added) (Voice.app v)) /\
  (Forall (fun t => t <> "") (transcripts acts) ->
   input (Voice.app v') 
   = match input (Voice.app v), transcripts acts with
     | "", [] => ""
     | "", t :: ts => t ++ fold_right (fun x acc => " " ++ x ++ acc) "" ts
     | prev, ts => prev ++ fold_right (fun x acc => " " ++ x ++ acc) "" ts
     end).
Proof.
  intros v'. unfold v'. rewrite run_app. split.
  - destruct (heard_prefix (transcripts acts) (input (Voice.app v)))
      as (added & E).
    exists added. now rewrite E.
  - intros F. cbn [input setInput].
    destruct (input (Voice.app v)) as [|c prev] eqn:I.
    + destruct (transcripts acts) as [|t ts]; [reflexivity|].
      inversion F as [|? ? T F']; subst. simpl. unfold Voice.heard at 2.
      simpl. now apply heard_all.
    + apply heard_all; [exact F | discriminate].
Qed.

Lemma voice_appends_witness :
  let v := Voice.mkState (sample_state "") false None [] [] [] in
  let acts := [Voice.Toggle; Voice.OnStart; Voice.OnResult "draw";
               Voice.OnResult "a cat"; Voice.OnEnd] in
  Forall (fun t => t <> "") (transcripts acts) /\
  input (Voice.app (Voice.run true acts v)) = "draw a cat".
Proof.
  intros v acts.
  assert (F : Forall (fun t => t <> "") (transcripts acts))
    by (repeat constructor; discriminate).
  split; [exact F|]. exact (proj2 (voice_appends true acts v) F).
Defined.

(** A recognizer that [speechRef] has let go of is never stopped. *)
Lemma orphan_step (supported : bool) (r : nat) (a : Voice.Action)
    (v : Voice.State) :
  r < List.length (Voice.started v) -> Voice.speechRef v <> Some r ->
  ~ In r (Voice.stopped v) ->
  r < List.length (Voice.started (Voice.step supported a v)) /\
  Voice.speechRef (Voice.step supported a v) <> Some r /\
  ~ In r (Voice.stopped (Voice.step supported a v)).
Proof.
  intros L S N. destruct a; cbn [Voice.step]; try (now repeat split).
  unfold Voice.toggleListening. destruct (Voice.listening v).
  - unfold Voice.stopListening. destruct (Voice.speechRef v) as [c|] eqn:R.
    + cbn [Voice.setListening Voice.started Voice.speechRef Voice.stopped
           Voice.app Voice.alerts Voice.listening].
      split; [exact L|]. split; [exact S|].
      rewrite in_app_iff. intros [I | [X | []]]; [exact (N I) | congruence].
    + cbn [Voice.setListening Voice.started Voice.speechRef Voice.stopped].
      split; [exact L|]. split; [rewrite R; discriminate | exact N].
  - unfold Voice.startListening. destruct supported; cbn [negb].
    + cbn [Voice.started Voice.speechRef Voice.stopped].
      rewrite length_app. simpl. split; [lia|]. split; [|exact N].
      intros [= X]. lia.
    + now repeat split.
Qed.

Lemma orphan_stays (supported : bool) (r : nat) (acts : list Voice.Action) :
  forall v,
    r < List.length (Voice.started v) -> Voice.speechRef v <> Some r ->
    ~ In r (Voice.stopped v) ->
    ~ In r (Voice.stopped (Voice.run supported acts v)).
Proof.
  unfold Voice.run. induction acts as [|a acts IH]; intros v L S N; [exact N|].
  cbn [fold_left].
  destruct (orphan_step supported r a v L S N) as (L' & S' & N').
  now apply IH.
Qed.

(** X21. Pressing the microphone button twice before the first recognizer
    has reported its start creates two recognizers: [listening] is still
    down at the second press, so the press starts another one instead of
    stopping the first. [speechRef] then holds the second, and the first is
    out of reach: whatever is pressed and whatever events arrive later, it
    is never asked to stop. A press after the start was reported stops the
    recognizer that was started. *)
Theorem voice_double_start (supported : bool) (v : Voice.State) :
  voice_wf v -> Voice.listening v = false ->
  let first := List.length (Voice.started v) in
  let v2 := Voice.run true [Voice.Toggle; Voice.Toggle] v in
  (Voice.started v2 = (Voice.started v ++ [first; S first])%list /\
   Voice.speechRef v2 = Some (S first) /\
   Voice.stopped v2 = Voice.stopped v) /\
  (forall later,
     ~ In first (Voice.stopped (Voice.run supported later v2))) /\
  Voice.stopped
    (Voice.run true [Voice.Toggle; Voice.OnStart; Voice.Toggle] v)
  = (Voice.stopped v ++ [first])%list.
Proof.
  intros [_ W] L first v2.
  assert (T : forall u,
            Voice.listening u = false ->
            Voice.toggleListening true u
            = Voice.mkState (Voice.app u) false
                (Some (List.length (Voice.started u)))
                (Voice.started u ++ [List.length (Voice.started u)])
                (Voice.stopped u) (Voice.alerts u)).
  { intros u Hu. unfold Voice.toggleListening, Voice.startListening.
    rewrite Hu. reflexivity. }
  assert (E : v2 = Voice.mkState (Voice.app v) false (Some (S first))
                     (Voice.started v ++ [first; S first]) (Voice.stopped v)
                     (Voice.alerts v)).
  { unfold v2, Voice.run. cbn [fold_left Voice.step].
    rewrite (T v L). rewrite T by reflexivity.
    cbn [Voice.app Voice.started Voice.stopped Voice.alerts].
    rewrite length_app, <- app_assoc. simpl List.length.
    replace (List.length (Voice.started v) + 1) with (S first)
      by (unfold first; lia).
    reflexivity. }
  split; [rewrite E; now repeat split|]. split.
  - intros later. apply orphan_stays; rewrite E;
      cbn [Voice.started Voice.speechRef Voice.stopped].
    + rewrite length_app. simpl. unfold first. lia.
    + intros [= X]. lia.
    + intros I. specialize (W _ I). unfold first in W. lia.
  - unfold Voice.run. cbn [fold_left Voice.step]. rewrite (T v L).
    reflexivity.
Qed.

Lemma voice_double_start_witness :
  let v := Voice.mkState (sample_state "") false None [] [] [] in
  let later := [Voice.OnStart; Voice.Toggle; Voice.Toggle; Voice.OnStart;
                Voice.Toggle] in
  voice_wf v /\ Voice.listening v = false /\
  ~ In 0 (Voice.stopped
            (Voice.run true later
               (Voice.run true [Voice.Toggle; Voice.Toggle] v))) /\
  Voice.stopped
    (Voice.run true later (Voice.run true [Voice.Toggle; Voice.Toggle] v))
  = [1; 2].
Proof.
  intros v later.
  assert (W : voice_wf v) by (split; [intros r H; discriminate | intros r []]).
  split; [exact W|]. split; [reflexivity|]. split; [|reflexivity].
  exact (proj1 (proj2 (voice_double_start true v W eq_refl)) later).
Defined.

(** ** Sanity checks on concrete inputs *)

Example classify_draw : classify "draw a cat" = ImageRequest.
Proof. reflexivity. Qed.
Example classify_hello : classify "hello there" = TextChat.
Proof. reflexivity. Qed.
Example classify_img : classify "/img sunset" = ImageRequest.
Proof. reflexivity. Qed.
Example body_img : bodyPrompt "/img sunset" = "sunset".
Proof. reflexivity. Qed.
Example body_image : bodyPrompt "/image" = "/image".
Proof. reflexivity. Qed.
Example body_IMG : bodyPrompt "/IMG  a b " = "a b".
Proof. reflexivity. Qed.
Example body_imgx : bodyPrompt "/imgx" = "/imgx" /\ classify "/imgx" = TextChat.
Proof. split; reflexivity. Qed.
Example parse_empty_array : Json.parse "[]" = Some (Json.Arr []).
Proof. reflexivity. Qed.
Example parse_empty_string : Json.parse "" = None.
Proof. reflexivity. Qed.
Example parse_garbage : Json.parse "{oops" = None.
Proof. reflexivity. Qed.
Example parse_nested :
  let q := String Json.dquote "" in
  Json.parse ("[{" ++ q ++ "id" ++ q ++ ":" ++ q ++ "a\u0041" ++ q ++ ","
              ++ q ++ "n" ++ q ++ ": [1, -2.5e3, true, null]}]")
  = Some (Json.Arr [Json.Obj [(Js.units "id", json_of_text "aA");
        (Js.units "n",
         Json.Arr [Json.Num "1"; Json.Num "-2.5e3"; Json.Bool true; Json.Null])]]).
Proof. vm_compute. reflexivity. Qed.
Example parse_wide_escape :
  Json.parse (quoted "\u20AC") = Some (Json.Str [8364%N]) /\
  text_of_json (Json.Str [8364%N]) = None.
Proof. vm_compute. split; reflexivity. Qed.
Example load_absent :
  log_of_json (loadHistory None "w1") = Some [welcome "w1"].
Proof. reflexivity. Qed.
Example load_corrupt :
  log_of_json (loadHistory (Some "{oops") "w1") = Some [welcome "w1"].
Proof. reflexivity. Qed.
Example load_empty_array :
  log_of_json (loadHistory (Some "[]") "w1") = Some [].
Proof. reflexivity. Qed.
Example parse_deep : Json.parse "[[[[[[]]]]], [[1], [2, [3]]]]" <> None.
Proof. vm_compute. discriminate. Qed.
Example progress_reset :
  let s := generateImageFlow (sample_image_env (Resolved None)) "draw" (sample_state "") in
  progress s = 80%Z /\ timeouts s = [1] /\ progress (fire_timeout 1 s) = 0%Z /\
  progress (on_answer (sample_image_env (Resolved None)) "draw" (sample_state "")) = 88%Z.
Proof. vm_compute. repeat split. Qed.
